(** * Header-verification pipeline of consensus/process/process.go

    A shallow embedding of the event loop of [NewConsensusProcess] and of the
    functions it drives: the intake of a batch of headers, the resolution of
    their ancestors, the merge of the per-header fetch requests, the pass run
    when fetched ancestors arrive, and the expiry sweep.

    Conventions.
    - A [uint64] is a [Z] in [0, 2^64); every operation that can leave that
      range is followed by [wrap64].  A Go [int] / [int64] is a [Z] reduced
      with [int64].
    - A nil pointer is [None]; a run that panics or never returns is [None]
      in the [option] monad.
    - A send on a channel appends the message to the list of messages sent
      on that channel, kept in the state.
    - Go maps are [gmap]s; ranging over a map is ranging over [map_to_list].
    - The event loop and the cleanup loop take turns, one event at a time
      ([step], [run]): a case of the event loop runs there without a
      receive of the cleanup loop in between.  process.go gives up the lock
      of the registry in the middle of the pass over the pending
      verifications, so the cleanup loop can carry out removals inside it:
      [passLoopAmid] is the pass with the cleanup loop at work, and what is
      said of a pass that returns is said of it, for every schedule of the
      cleanup loop.
    - make gives a slice when the machine grants the memory asked for
      ([Memory]), and ends the run otherwise. *)

From stdpp Require Import gmap list sorting.
From Stdlib Require Import ZArith Lia.

Local Open Scope Z_scope.

(** ** Machine integers *)

Definition wrap64 (x : Z) : Z := x mod 2 ^ 64.

Definition int64 (x : Z) : Z := (x + 2 ^ 63) mod 2 ^ 64 - 2 ^ 63.

(** ** Data *)

(** common.Hash: 32 bytes, read as a number; [common.Hash{}] is 0. *)
Abbreviation Hash := Z (only parsing).

(** Modelled from the spec: types.Header is declared outside the files at
    hand; the spec gives it a block number, a parent hash and a content hash.
    [HeaderHash] is what the method Hash() returns. *)
Record Header := mkHeader {
  Number : N;
  ParentHash : Hash;
  HeaderHash : Hash
}.

#[global] Instance Header_eq_dec : EqDecision Header.
Proof. solve_decision. Defined.

(** header.Number.Uint64() and header.Number.Int64() of math/big. *)
Definition NumberUint64 (h : Header) : Z := wrap64 (Z.of_N (Number h)).
Definition NumberInt64 (h : Header) : Z := int64 (Z.of_N (Number h)).

Inductive error :=
  | errEmptyHeader
  | errNothingToAsk
  | errNotAllParents
  | errTimeout
  | errExternal (code : Z).

#[global] Instance error_eq_dec : EqDecision error.
Proof. solve_decision. Defined.

(** consensus.VerifyHeaderRequest: a batch handed in for verification. *)
Record VerifyHeaderRequest := mkVerifyHeaderRequest {
  vhrID : Z;
  vhrHeaders : list (option Header);
  vhrSeal : list bool;
  vhrDeadline : option Z
}.

(** consensus.VerifyHeaderResponse *)
Record VerifyHeaderResponse := mkVerifyHeaderResponse {
  respID : Z;
  respHash : Hash;
  respErr : option error
}.

#[global] Instance VerifyHeaderResponse_eq_dec : EqDecision VerifyHeaderResponse.
Proof. solve_decision. Defined.

(** consensus.HeadersRequest *)
Record HeadersRequest := mkHeadersRequest {
  hrID : Z;
  HighestHash : Hash;
  HighestBlockNumber : Z;
  hrNumber : Z
}.

#[global] Instance HeadersRequest_eq_dec : EqDecision HeadersRequest.
Proof. solve_decision. Defined.

(** consensus.HeaderResponse: the answer of the fetcher; its BlockError part
    carries the hash the fetch failed on and the error.  The headers
    delivered are pointers to headers, none of them nil. *)
Record HeaderResponse := mkHeaderResponse {
  hresID : Z;
  hresHeaders : list Header;
  hresHash : Hash;
  hresErr : option error
}.

(** consensus.VerifyRequest: a header waiting for its ancestors. *)
Record VerifyRequest := mkVerifyRequest {
  ID : Z;
  ReqHeader : Header;
  ReqSeal : bool;
  Deadline : Z;
  KnownParents : list Header;
  ParentsExpected : Z;
  From : Z;
  To : Z
}.

#[global] Instance VerifyRequest_eq_dec : EqDecision VerifyRequest.
Proof. solve_decision. Defined.

(** consensus.FinishedRequest *)
Record FinishedRequest := mkFinishedRequest {
  frReqID : Z;
  frBlockNumber : Z
}.

Inductive logEntry :=
  | logCantRequestAncestors (reqID number : Z) (err : error).

(** The part of the state of consensus.API the process works on: the
    registry of pending verifications, the header cache, and the messages
    sent so far on each channel (oldest first). *)
Record API := mkAPI {
  ProcessingRequests : gmap Z (gmap Z VerifyRequest);
  Cache : gmap (Z * Z) Header;
  VerifyHeaderResponses : list VerifyHeaderResponse;
  HeadersRequests : list HeadersRequest;
  CleanupCh : list FinishedRequest;
  Log : list logEntry
}.

Definition setProcessingRequests (m : gmap Z (gmap Z VerifyRequest)) (a : API) : API :=
  mkAPI m (Cache a) (VerifyHeaderResponses a) (HeadersRequests a) (CleanupCh a) (Log a).

Definition setCache (c : gmap (Z * Z) Header) (a : API) : API :=
  mkAPI (ProcessingRequests a) c (VerifyHeaderResponses a) (HeadersRequests a)
        (CleanupCh a) (Log a).

Definition sendVerifyHeaderResponse (r : VerifyHeaderResponse) (a : API) : API :=
  mkAPI (ProcessingRequests a) (Cache a) (VerifyHeaderResponses a ++ [r])
        (HeadersRequests a) (CleanupCh a) (Log a).

Definition sendHeadersRequest (r : HeadersRequest) (a : API) : API :=
  mkAPI (ProcessingRequests a) (Cache a) (VerifyHeaderResponses a)
        (HeadersRequests a ++ [r]) (CleanupCh a) (Log a).

Definition sendCleanupCh (r : FinishedRequest) (a : API) : API :=
  mkAPI (ProcessingRequests a) (Cache a) (VerifyHeaderResponses a)
        (HeadersRequests a) (CleanupCh a ++ [r]) (Log a).

Definition logError (e : logEntry) (a : API) : API :=
  mkAPI (ProcessingRequests a) (Cache a) (VerifyHeaderResponses a)
        (HeadersRequests a) (CleanupCh a) (Log a ++ [e]).

(** Modelled from the spec: the Header Knowledge Cache lives outside the
    files at hand; the spec gives it lookup(hash, number) and insert(header),
    and says it only grows. *)
Definition GetCachedHeader (a : API) (hash : Hash) (number : Z) : option Header :=
  Cache a !! (hash, number).

Definition CacheHeader (h : Header) (a : API) : API :=
  setCache (<[(HeaderHash h, NumberUint64 h) := h]> (Cache a)) a.

(** const ttl = time.Minute, in nanoseconds. *)
Definition ttl : Z := 60000000000.

(** ** Merging the fetch requests of a batch *)

(** The body of the loop of sumHeadersRequestsInRange, on the triple
    (maxBlockNumber, maxBlockHash, minBlockToGet). *)
Definition sumStep (reqID from : Z) (acc : Z * Hash * Z) (req : HeadersRequest)
  : Z * Hash * Z :=
  let '(maxBlockNumber, maxBlockHash, minBlockToGet) := acc in
  if negb (hrID req =? reqID) then acc
  else if hrNumber req =? 0 then acc
  else
    let '(maxBlockNumber, maxBlockHash) :=
      if (maxBlockNumber <? HighestBlockNumber req) && (HighestBlockNumber req <? from)
      then (HighestBlockNumber req, HighestHash req)
      else (maxBlockNumber, maxBlockHash) in
    let lowest := wrap64 (HighestBlockNumber req - hrNumber req + 1) in
    let minBlockToGet := if lowest <? minBlockToGet then lowest else minBlockToGet in
    (maxBlockNumber, maxBlockHash, minBlockToGet).

Definition sumHeadersRequestsInRange (reqID from : Z) (reqs : list HeadersRequest)
  : HeadersRequest * option error :=
  match reqs with
  | [] => (mkHeadersRequest 0 0 0 0, Some errNothingToAsk)
  | r0 :: _ =>
      let maxBlockNumber := HighestBlockNumber r0 in
      let maxBlockHash := HighestHash r0 in
      let minBlockToGet := wrap64 (maxBlockNumber - hrNumber r0 + 1) in
      let '(maxBlockNumber, maxBlockHash, minBlockToGet) :=
        fold_left (sumStep reqID from) reqs (maxBlockNumber, maxBlockHash, minBlockToGet) in
      (mkHeadersRequest reqID maxBlockHash maxBlockNumber
         (wrap64 (maxBlockNumber - minBlockToGet + 1)), None)
  end.

(** ** Memory *)

(** runtime.makeslice panics, "makeslice: cap out of range", when the
    capacity asked for, times the size of an element, is above maxAlloc:
    2^48 bytes where the heap has 48 bits of address, as on amd64 and
    arm64. *)
Definition maxAlloc : Z := 2 ^ 48.

(** The machine the process runs on: [maxCap] is the largest capacity for
    which it grants a slice of pointers, 8 bytes each.  Above it the run
    ends, by the panic of makeslice or, under maxAlloc, for want of
    memory.  A slice of capacity 0 takes no memory and is always
    granted. *)
Class Memory := {
  maxCap : Z;
  maxCap_nonneg : (0 <=? maxCap) = true;
  maxCap_maxAlloc : (8 * maxCap <=? maxAlloc) = true
}.

(** make([]*types.Header, 0, capacity) *)
Definition makeslice `{Memory} (capacity : Z) : option (list Header) :=
  if capacity <=? maxCap then Some [] else None.

(** ** The walk through the cache *)

(** The loop of requestHeadersNotFromRange.  It counts [parentBlockNum] down
    with wrap-around and leaves on a cache miss or below [minHeader].  Every
    turn that goes on has found a cached header under a block number of its
    own, so [fuel] turns are enough once [fuel] exceeds the size of the
    cache; [None] is a walk that used up its fuel. *)
Fixpoint walkCache (fuel : nat) (a : API) (highestKnown : Hash)
    (parentBlockNum minHeader : Z) (known : list Header)
    (highestParentNumber : Z) (highestParentHash : Hash)
  : option (list Header * Z * Hash) :=
  match fuel with
  | O => None
  | S fuel' =>
      if parentBlockNum <? minHeader then
        Some (known, highestParentNumber, highestParentHash)
      else
        match GetCachedHeader a highestKnown parentBlockNum with
        | None => Some (known, highestParentNumber, highestParentHash)
        | Some parentBlock =>
            let '(hpn, hph) :=
              if highestParentNumber <? NumberUint64 parentBlock
              then (NumberUint64 parentBlock, HeaderHash parentBlock)
              else (highestParentNumber, highestParentHash) in
            walkCache fuel' a (ParentHash parentBlock) (wrap64 (parentBlockNum - 1))
              minHeader (known ++ [parentBlock]) hpn hph
        end
  end.

Definition requestHeadersNotFromRange `{Memory} (a : API) (reqID highestBlock : Z)
    (highestKnown : Hash) (parentsToGet : Z)
  : option (list Header * HeadersRequest) :=
  let minHeader :=
    if wrap64 (parentsToGet - 1) <? highestBlock
    then wrap64 (highestBlock - parentsToGet + 1)
    else 0 in
  known ← makeslice (wrap64 (highestBlock - minHeader));
  '(known, highestParentNumber, highestParentHash) ←
    walkCache (S (size (Cache a))) a highestKnown highestBlock minHeader known
      highestBlock highestKnown;
  Some (known,
        mkHeadersRequest reqID highestParentHash highestParentNumber
          (wrap64 (parentsToGet - Z.of_nat (length known)))).

(** ** The process *)

Section Process.

Context `{Memory}.

(** c.Server, the rule engine: how many ancestors a header needs, and the
    check of a header against its parents (arguments: header, parents,
    uncle, seal; [None] is a nil error). *)
Variable NeededForVerification : Header → Z.
Variable Verify : Header → list Header → bool → bool → option error.

(** Room in the channel CleanupCh: a send goes through while fewer than
    [cleanupChCap] messages wait in it. *)
Variable cleanupChCap : nat.

(** *** Ancestors of one header *)

(** Lines 311-332 of requestParentHeaders: how many ancestors to ask for
    outside the batch, and the block number and hash the request starts
    from.  [first] and [last] are reqHeaders[0] and reqHeaders[len-1]. *)
Definition fetchOrigin (parentsToValidate : Z) (header first last : Header)
  : Z * Z * Hash :=
  let from := NumberUint64 first in
  let to := NumberUint64 last in
  let parentsToAsk :=
    if (from <? NumberUint64 header) && (NumberUint64 header <=? to) then
      if wrap64 (from + wrap64 parentsToValidate) <=? NumberUint64 header then 0
      else int64 (int64 from - int64 (NumberInt64 header - int64 parentsToValidate))
    else parentsToValidate in
  if 0 <? parentsToAsk
  then (parentsToAsk, wrap64 (from - 1), ParentHash first)
  else (parentsToAsk, NumberUint64 header, ParentHash header).

(** The search for [idx] in checkHeadersFromRange; every header looked at
    is dereferenced. *)
Fixpoint indexOfNumber (number : Z) (requestedHeaders : list (option Header)) (i : Z)
  : option (option Z) :=
  match requestedHeaders with
  | [] => Some None
  | p :: rest =>
      h ← p;
      if NumberUint64 h =? number then Some (Some i)
      else indexOfNumber number rest (i + 1)
  end.

(** [idx] is an index of [requestedHeaders], below 2^63, so the
    [idx - int(parentsToGet)] of line 432 leaves the range of an int only
    when [int(parentsToGet)] is negative; it then wraps around. *)
Definition checkHeadersFromRange (highestHeader : Header)
    (requestedHeaders : list (option Header)) (parentsToGet parentsToValidate : Z)
  : option (list Header) :=
  let parentsToGet := wrap64 (parentsToValidate - parentsToGet) in
  if parentsToGet <=? 0 then Some []
  else
    found ← indexOfNumber (NumberUint64 highestHeader) requestedHeaders 0;
    match found with
    | None => Some []
    | Some idx =>
        let toGet := int64 parentsToGet in
        let low := if toGet <? 0 then int64 (idx - toGet) else idx - toGet in
        if low <? 0 then Some []
        else if idx <? low then None
        else mapM id (take (Z.to_nat (idx - low)) (drop (Z.to_nat low) requestedHeaders))
    end.

Definition requestParentHeaders (a : API) (reqID : Z) (header : Header)
    (reqHeaders : list (option Header))
  : option (list Header * Z * option HeadersRequest) :=
  let parentsToValidate := NeededForVerification header in
  if parentsToValidate =? 0 then Some ([], 0, None)
  else
    first ← mjoin (head reqHeaders);
    last ← mjoin (last reqHeaders);
    let '(parentsToAsk, headerNumber, headerParentHash) :=
      fetchOrigin parentsToValidate header first last in
    '(knownParents, ancestorsReq) ←
      requestHeadersNotFromRange a reqID headerNumber headerParentHash (wrap64 parentsToAsk);
    knownParentsFromRange ←
      checkHeadersFromRange header reqHeaders (wrap64 parentsToAsk) (wrap64 parentsToValidate);
    Some (knownParents ++ knownParentsFromRange, parentsToValidate, Some ancestorsReq).

(** *** The registry *)

Definition cleanupRequest (reqID number : Z) (a : API) : API :=
  match ProcessingRequests a !! reqID with
  | Some reqBlocks =>
      let reqBlocks := delete number reqBlocks in
      if decide (size reqBlocks = 0%nat)
      then setProcessingRequests (delete reqID (ProcessingRequests a)) a
      else setProcessingRequests (<[reqID := reqBlocks]> (ProcessingRequests a)) a
  | None => a
  end.

Definition toVerifyRequest (reqID : Z) (header : Header) (seal : bool) (deadline : Z)
    (knownParents : list Header) (parentsToValidate : Z) : VerifyRequest :=
  mkVerifyRequest reqID header seal deadline knownParents parentsToValidate
    (wrap64 (NumberUint64 header - wrap64 parentsToValidate))
    (wrap64 (NumberUint64 header - wrap64 (Z.of_nat (length knownParents)) - 1)).

Definition addVerifyHeaderRequest (reqID : Z) (header : Header) (seal : bool)
    (deadline : Z) (knownParentsSlice : list Header) (parentsToValidate : Z) (a : API)
  : API :=
  let request :=
    toVerifyRequest reqID header seal deadline knownParentsSlice parentsToValidate in
  let blocks := default ∅ (ProcessingRequests a !! reqID) in
  setProcessingRequests
    (<[reqID := <[NumberUint64 header := request]> blocks]> (ProcessingRequests a)) a.

(** *** One verification attempt *)

(** The result is the error verifyByRequest returns: errNotAllParents or
    nil, whatever the rule engine said. *)
Definition verifyByRequest (a : API) (reqID : Z) (header : Header) (seal : bool)
    (parentsExpected : Z) (knownParents : list Header) : API * option error :=
  if negb (Z.of_nat (length knownParents) =? parentsExpected)
  then (a, Some errNotAllParents)
  else
    let err := Verify header knownParents false seal in
    let a := match err with None => CacheHeader header a | Some _ => a end in
    let a := sendVerifyHeaderResponse (mkVerifyHeaderResponse reqID (HeaderHash header) err) a in
    let finishedRequest := mkFinishedRequest reqID (NumberUint64 header) in
    let a :=
      if (length (CleanupCh a) <? cleanupChCap)%nat
      then sendCleanupCh finishedRequest a
      else cleanupRequest (frReqID finishedRequest) (frBlockNumber finishedRequest) a in
    (a, None).

(** *** Folding ancestors into a pending verification *)

Definition addKnownParent (request : VerifyRequest) (parent : Header) : VerifyRequest :=
  mkVerifyRequest (ID request) (ReqHeader request) (ReqSeal request) (Deadline request)
    (KnownParents request ++ [parent]) (ParentsExpected request)
    (From request) (To request).

(** The body of the second loop of appendAncestors. *)
Definition foldAncestor (blockNumber : Z)
    (acc : VerifyRequest * gmap Z (gset Z)) (parent : Header)
  : VerifyRequest * gmap Z (gset Z) :=
  let '(request, ancestorsMap) := acc in
  if (From request <=? NumberUint64 parent) && (NumberUint64 parent <=? To request) then
    match ancestorsMap !! HeaderHash parent with
    | None =>
        (addKnownParent request parent,
         <[HeaderHash parent := {[blockNumber]}]> ancestorsMap)
    | Some parentMap =>
        if decide (blockNumber ∈ parentMap) then acc
        else (addKnownParent request parent,
              <[HeaderHash parent := {[blockNumber]}]> ancestorsMap)
    end
  else acc.

(** [knownByRequests]: reqID -> parent hash -> blocks to validate. *)
Definition appendAncestors (request : VerifyRequest) (ancestors : list Header)
    (knownByRequests : gmap Z (gmap Z (gset Z)))
  : VerifyRequest * gmap Z (gmap Z (gset Z)) :=
  let blockNumber := NumberUint64 (ReqHeader request) in
  let ancestorsMap :=
    match knownByRequests !! ID request with
    | Some ancestorsMap => ancestorsMap
    | None =>
        fold_left (λ m p, <[HeaderHash p := {[blockNumber]}]> m) (KnownParents request) ∅
    end in
  let '(request', ancestorsMap) :=
    fold_left (foldAncestor blockNumber) ancestors (request, ancestorsMap) in
  (request', <[ID request := ancestorsMap]> knownByRequests).

(** *** Arrival of fetched ancestors *)

(** [request.KnownParents = append(...)] writes through the pointer kept in
    the registry. *)
Definition storeRequest (reqID num : Z) (request : VerifyRequest) (a : API) : API :=
  match ProcessingRequests a !! reqID with
  | Some reqHeaders =>
      setProcessingRequests (<[reqID := <[num := request]> reqHeaders]> (ProcessingRequests a)) a
  | None => a
  end.

(** The loop over [nums] of VerifyRequestsCommonAncestor.  [headers] is the
    pool the ancestors are taken from; the result carries the pool as the
    loop leaves it.  A block number without a request is a nil request,
    whose fields appendAncestors reads.

    The loop runs here with the cleanup loop idle, as a case of [step];
    [passLoopAmid] is the loop with the cleanup loop at work. *)
Fixpoint passLoop (reqID : Z) (nums : list Z) (a : API) (headers : list Header)
    (knownByRequests : gmap Z (gmap Z (gset Z))) : option (API * list Header) :=
  match nums with
  | [] => Some (a, headers)
  | num :: nums' =>
      reqHeaders ← ProcessingRequests a !! reqID;
      req ← reqHeaders !! num;
      let '(req, knownByRequests) := appendAncestors req headers knownByRequests in
      let a := storeRequest reqID num req a in
      let '(a, err) :=
        verifyByRequest a (ID req) (ReqHeader req) (ReqSeal req)
          (ParentsExpected req) (KnownParents req) in
      let headers :=
        match err with
        | None => headers ++ [ReqHeader req]
        | Some _ => headers
        end in
      passLoop reqID nums' a headers knownByRequests
  end.

(** The block numbers pending under a request id, sorted as sort.Slice
    leaves them: they are the keys of a map, hence distinct, and there is one
    ascending order of them. *)
Definition sortedNums (reqHeaders : gmap Z VerifyRequest) : list Z :=
  merge_sort Z.le (map fst (map_to_list reqHeaders)).

Definition cacheHeaders (headers : list Header) (a : API) : API :=
  fold_left (λ a h, CacheHeader h a) headers a.

Definition VerifyRequestsCommonAncestorPool (a : API) (reqID : Z) (headers : list Header)
  : option (API * list Header) :=
  match headers with
  | [] => Some (a, headers)
  | _ :: _ =>
      match ProcessingRequests a !! reqID with
      | None => Some (a, headers)
      | Some reqHeaders =>
          let nums := sortedNums reqHeaders in
          let a := cacheHeaders headers a in
          passLoop reqID nums a headers ∅
      end
  end.

Definition VerifyRequestsCommonAncestor (a : API) (reqID : Z) (headers : list Header)
  : option API :=
  fst <$> VerifyRequestsCommonAncestorPool a reqID headers.

(** case parentResp := <-c.API.HeaderResponses *)
Definition onHeaderResponse (a : API) (parentResp : HeaderResponse) : option API :=
  match hresErr parentResp with
  | Some err =>
      let a :=
        sendVerifyHeaderResponse
          (mkVerifyHeaderResponse (hresID parentResp) (hresHash parentResp) (Some err)) a in
      Some (setProcessingRequests (delete (hresID parentResp) (ProcessingRequests a)) a)
  | None => VerifyRequestsCommonAncestor a (hresID parentResp) (hresHeaders parentResp)
  end.

(** *** The expiry sweep *)

(** The inner loop of cleanup, over the pending verifications of one
    request id. *)
Definition cleanupBlocks (now reqID : Z) (a : API) (reqBlocks : list (Z * VerifyRequest))
  : API :=
  fold_left
    (λ a kv,
       let req := kv.2 in
       if Deadline req <? now then
         let a :=
           sendVerifyHeaderResponse
             (mkVerifyHeaderResponse reqID (HeaderHash (ReqHeader req)) (Some errTimeout)) a in
         setProcessingRequests (delete reqID (ProcessingRequests a)) a
       else a)
    reqBlocks a.

Definition cleanup (now : Z) (a : API) : API :=
  fold_left
    (λ a kv, cleanupBlocks now kv.1 a (map_to_list kv.2))
    (map_to_list (ProcessingRequests a)) a.

(** *** Intake of a batch *)

Record reqHeader := mkReqHeader {
  header : option Header;
  seal : bool
}.

(** reqHeaders[i] = reqHeader{req.Headers[i], req.Seal[i]}; an index past
    the end of req.Seal panics. *)
Fixpoint pairHeaders (headers : list (option Header)) (seals : list bool)
  : option (list reqHeader) :=
  match headers with
  | [] => Some []
  | h :: headers' =>
      match seals with
      | [] => None
      | s :: seals' => rest ← pairHeaders headers' seals'; Some (mkReqHeader h s :: rest)
      end
  end.

(** The comparison handed to sort.Slice; it reads the Number of both
    headers. *)
Definition lessNumber (x y : reqHeader) : option bool :=
  hx ← header x;
  hy ← header y;
  Some (bool_decide (Number hx < Number hy)%N).

(** sort.Slice, as the insertion sort the sort package runs on a short
    slice: each element sinks into the sorted part before it while it is
    less than its left neighbour.  [rprefix] is that sorted part, last
    element first.  A longer slice is sorted by other means, with the same
    outcome up to the order of equal block numbers. *)
Fixpoint sink (x : reqHeader) (rprefix : list reqHeader) : option (list reqHeader) :=
  match rprefix with
  | [] => Some [x]
  | y :: r =>
      b ← lessNumber x y;
      if b : bool then r' ← sink x r; Some (y :: r')
      else Some (x :: y :: r)
  end.

Fixpoint insertionSort (rprefix rest : list reqHeader) : option (list reqHeader) :=
  match rest with
  | [] => Some (rev rprefix)
  | x :: rest' => rprefix' ← sink x rprefix; insertionSort rprefix' rest'
  end.

Definition sortSlice (reqHeaders : list reqHeader) : option (list reqHeader) :=
  insertionSort [] reqHeaders.

(** How the loop over the headers of a batch ends: it ran through, with the
    fetch requests gathered, or it left for the next event on a nil
    header. *)
Inductive batchEnd :=
  | RanThrough (ancestorsReqs : list HeadersRequest)
  | NextEvent.

Fixpoint batchLoop (reqID deadline : Z) (reqHeaders : list (option Header))
    (items : list reqHeader) (a : API) (ancestorsReqs : list HeadersRequest)
  : option (API * batchEnd) :=
  match items with
  | [] => Some (a, RanThrough ancestorsReqs)
  | item :: items' =>
      match header item with
      | None =>
          Some (sendVerifyHeaderResponse
                  (mkVerifyHeaderResponse reqID 0 (Some errEmptyHeader)) a,
                NextEvent)
      | Some h =>
          match GetCachedHeader a (HeaderHash h) (NumberUint64 h) with
          | Some _ =>
              batchLoop reqID deadline reqHeaders items'
                (sendVerifyHeaderResponse (mkVerifyHeaderResponse reqID (HeaderHash h) None) a)
                ancestorsReqs
          | None =>
              '(knownParentsSlice, parentsToValidate, ancestorsReq) ←
                requestParentHeaders a reqID h reqHeaders;
              let ancestorsReqs :=
                match ancestorsReq with
                | Some r => ancestorsReqs ++ [r]
                | None => ancestorsReqs
                end in
              let '(a, err) :=
                verifyByRequest a reqID h (seal item) parentsToValidate knownParentsSlice in
              let a :=
                match err with
                | Some errNotAllParents =>
                    addVerifyHeaderRequest reqID h (seal item) deadline
                      knownParentsSlice parentsToValidate a
                | _ => a
                end in
              batchLoop reqID deadline reqHeaders items' a ancestorsReqs
          end
      end
  end.

(** case req := <-c.API.VerifyHeaderRequests, at time [now]. *)
Definition onVerifyHeaderRequest (now : Z) (a : API) (req : VerifyHeaderRequest)
  : option API :=
  match vhrHeaders req with
  | [] =>
      Some (sendVerifyHeaderResponse
              (mkVerifyHeaderResponse (vhrID req) 0 (Some errEmptyHeader)) a)
  | _ :: _ =>
      let deadline := default (now + ttl) (vhrDeadline req) in
      reqHeaders ← pairHeaders (vhrHeaders req) (vhrSeal req);
      reqHeaders ← sortSlice reqHeaders;
      let headers := map header reqHeaders in
      '(a, ended) ← batchLoop (vhrID req) deadline headers reqHeaders a [];
      match ended with
      | NextEvent => Some a
      | RanThrough ancestorsReqs =>
          first ← mjoin (head headers);
          match sumHeadersRequestsInRange (vhrID req) (NumberUint64 first) ancestorsReqs with
          | (_, Some err) =>
              Some (logError (logCantRequestAncestors (vhrID req) (NumberUint64 first) err) a)
          | (ancestorsReq, None) => Some (sendHeadersRequest ancestorsReq a)
          end
      end
  end.

(** *** The two loops *)

(** case req := <-c.API.CleanupCh, in the cleanup loop. *)
Definition onCleanupCh (a : API) : API :=
  match CleanupCh a with
  | [] => a
  | req :: rest =>
      cleanupRequest (frReqID req) (frBlockNumber req)
        (mkAPI (ProcessingRequests a) (Cache a) (VerifyHeaderResponses a)
               (HeadersRequests a) rest (Log a))
  end.

Inductive event :=
  | VerifyHeaders (now : Z) (req : VerifyHeaderRequest)
  | HeadersArrived (parentResp : HeaderResponse)
  | CleanupTick (now : Z)
  | CleanupReceived.

Definition step (a : API) (e : event) : option API :=
  match e with
  | VerifyHeaders now req => onVerifyHeaderRequest now a req
  | HeadersArrived parentResp => onHeaderResponse a parentResp
  | CleanupTick now => Some (cleanup now a)
  | CleanupReceived => Some (onCleanupCh a)
  end.

Fixpoint run (a : API) (events : list event) : option API :=
  match events with
  | [] => Some a
  | e :: events' => a' ← step a e; run a' events'
  end.

(** *** The pass while the cleanup loop is at work *)

(** The cleanup loop carries out [n] of the removals that wait in
    CleanupCh, oldest first; a receive and the removal it leads to are one
    step, as in [step]. *)
Fixpoint cleanupLoop (n : nat) (a : API) : API :=
  match n with
  | O => a
  | S n' => cleanupLoop n' (onCleanupCh a)
  end.

(** passLoop with the cleanup loop at work.  VerifyRequestsCommonAncestor
    holds the lock of the registry for the snapshot of [nums] (lines
    164-176) and for each lookup (lines 189-191), and not in between: the
    cleanup loop can carry out removals before a lookup, and between a
    lookup and the attempt, where a receive also frees a place in
    CleanupCh for the select of line 215.  [sched] gives, for each turn of
    the loop, how many removals are carried out at each of the two points;
    turns beyond its length have none.  The lookup goes through the
    registry: the map found at line 165 is the one the registry holds
    under [reqID] until the cleanup loop has emptied it, and from then on
    both give nil.  A removal carried out before the lookup of its entry
    leaves that lookup with nil, and line 266 panics.  A request that was
    looked up is folded through its pointer, and attempted, whether or not
    its entry is removed meanwhile. *)
Fixpoint passLoopAmid (sched : list (nat * nat)) (reqID : Z) (nums : list Z) (a : API)
    (headers : list Header) (knownByRequests : gmap Z (gmap Z (gset Z)))
  : option (API * list Header) :=
  match nums with
  | [] => Some (a, headers)
  | num :: nums' =>
      let '(before, meanwhile) := default (O, O) (head sched) in
      let a := cleanupLoop before a in
      reqHeaders ← ProcessingRequests a !! reqID;
      req ← reqHeaders !! num;
      let '(req, knownByRequests) := appendAncestors req headers knownByRequests in
      let a := storeRequest reqID num req a in
      let a := cleanupLoop meanwhile a in
      let '(a, err) :=
        verifyByRequest a (ID req) (ReqHeader req) (ReqSeal req)
          (ParentsExpected req) (KnownParents req) in
      let headers :=
        match err with
        | None => headers ++ [ReqHeader req]
        | Some _ => headers
        end in
      passLoopAmid (tail sched) reqID nums' a headers knownByRequests
  end.

(** VerifyRequestsCommonAncestor with the cleanup loop at work, and the
    pool as the pass leaves it. *)
Definition VerifyRequestsCommonAncestorAmid (sched : list (nat * nat)) (a : API) (reqID : Z)
    (headers : list Header) : option (API * list Header) :=
  match headers with
  | [] => Some (a, headers)
  | _ :: _ =>
      match ProcessingRequests a !! reqID with
      | None => Some (a, headers)
      | Some reqHeaders =>
          let nums := sortedNums reqHeaders in
          let a := cacheHeaders headers a in
          passLoopAmid sched reqID nums a headers ∅
      end
  end.

(** What verifyByRequest sends for a request as it stands: the verdict of
    the rule engine when every expected parent is known, nothing
    otherwise. *)
Definition attemptResponse (req : VerifyRequest) : list VerifyHeaderResponse :=
  if Z.of_nat (length (KnownParents req)) =? ParentsExpected req
  then [mkVerifyHeaderResponse (ID req) (HeaderHash (ReqHeader req))
          (Verify (ReqHeader req) (KnownParents req) false (ReqSeal req))]
  else [].

End Process.

Definition emptyAPI : API := mkAPI ∅ ∅ [] [] [] [].

(** ** Vocabulary of the statements *)

(** The pending verification registered under a request id and a block
    number, if any. *)
Definition pendingAt (a : API) (reqID num : Z) : option VerifyRequest :=
  ProcessingRequests a !! reqID ≫= (λ reqBlocks, reqBlocks !! num).


(** A slot of the batch that holds a header. *)
Definition present (x : reqHeader) : Prop := is_Some (header x).

(** The result the sweep sends for a pending verification. *)
Definition timeoutResponse (reqID : Z) (req : VerifyRequest) : VerifyHeaderResponse :=
  mkVerifyHeaderResponse reqID (HeaderHash (ReqHeader req)) (Some errTimeout).

Definition timeouts (now reqID : Z) (reqBlocks : list (Z * VerifyRequest))
  : list VerifyHeaderResponse :=
  map (timeoutResponse reqID) (filter (λ req, Deadline req < now) (map snd reqBlocks)).

(** All the sweep sends, and all it leaves in the registry, request id by
    request id. *)
Definition sweepOut (now : Z) (l : list (Z * gmap Z VerifyRequest))
  : list VerifyHeaderResponse :=
  flat_map (λ kv, timeouts now kv.1 (map_to_list kv.2)) l.

Definition sweepKeep (now : Z) (l : list (Z * gmap Z VerifyRequest))
    (m : gmap Z (gmap Z VerifyRequest)) : gmap Z (gmap Z VerifyRequest) :=
  fold_left
    (λ m kv, match timeouts now kv.1 (map_to_list kv.2) with
             | [] => m
             | _ => delete kv.1 m
             end) l m.

(** The window [From, To] of a pending verification. *)
Definition inWindow (req : VerifyRequest) (p : Header) : Prop :=
  From req ≤ NumberUint64 p ≤ To req.

Definition withKnownParents (req : VerifyRequest) (known : list Header) : VerifyRequest :=
  mkVerifyRequest (ID req) (ReqHeader req) (ReqSeal req) (Deadline req) known
    (ParentsExpected req) (From req) (To req).

(** The index of appendAncestors credits block [b] only with hashes of
    parents the request knows. *)
Definition credited (b : Z) (m : gmap Z (gset Z)) (known : list Header) : Prop :=
  ∀ hash S, m !! hash = Some S → b ∈ S → hash ∈ HeaderHash <$> known.

(** [req'] is [req] after a fold: parents were added at the end, each taken
    from [pool'] inside the window, and every header of [pool] inside the
    window has its hash among the parents known afterwards. *)
Definition foldedFrom (req req' : VerifyRequest) (pool pool' : list Header) : Prop :=
  ∃ added,
    req' = withKnownParents req (KnownParents req ++ added) ∧
    (∀ p, p ∈ added → p ∈ pool' ∧ inWindow req p) ∧
    (∀ p, p ∈ pool → inWindow req p → HeaderHash p ∈ HeaderHash <$> KnownParents req').

(** Every pending verification sits under its own request id and under
    the block number of its header. *)
Definition wfRegistry (a : API) : Prop :=
  ∀ reqID num req, pendingAt a reqID num = Some req →
    ID req = reqID ∧ NumberUint64 (ReqHeader req) = num.

(** Every pending verification of [a'] is one of [a]. *)
Definition subRegistry (a' a : API) : Prop :=
  ∀ reqID num req, pendingAt a' reqID num = Some req → pendingAt a reqID num = Some req.

(** A request the loop of the merge takes into account: made under the
    request id of the batch, for one header or more. *)
Definition counted (reqID : Z) (r : HeadersRequest) : Prop :=
  hrID r = reqID ∧ hrNumber r ≠ 0.

(** The lowest block a request asks for. *)
Definition lowestAsked (r : HeadersRequest) : Z :=
  wrap64 (HighestBlockNumber r - hrNumber r + 1).


(** A request that knows as many parents as it expects. *)
Definition complete (req : VerifyRequest) : Prop :=
  Z.of_nat (length (KnownParents req)) = ParentsExpected req.

#[global] Instance complete_dec req : Decision (complete req).
Proof. unfold complete. apply _. Defined.

(** No request id of the registry is left with an empty map of blocks. *)
Definition noEmptyBlocks (a : API) : Prop :=
  map_Forall (λ _ reqBlocks, reqBlocks ≠ (∅ : gmap Z VerifyRequest)) (ProcessingRequests a).

(** The registry as a map that can be checked entry by entry: every
    pending verification under its own request id and block number. *)
Definition keyedRegistry (a : API) : Prop :=
  map_Forall
    (λ reqID reqBlocks,
       map_Forall (λ num req, ID req = reqID ∧ NumberUint64 (ReqHeader req) = num) reqBlocks)
    (ProcessingRequests a).

#[global] Instance counted_dec reqID r : Decision (counted reqID r).
Proof. unfold counted. apply _. Defined.

#[global] Instance inWindow_dec req p : Decision (inWindow req p).
Proof. unfold inWindow. apply _. Defined.

(** The index of appendAncestors credits block [b] with the hash of every
    parent the request knows. *)
Definition indexed (b : Z) (m : gmap Z (gset Z)) (known : list Header) : Prop :=
  ∀ p, p ∈ known → ∃ S, m !! HeaderHash p = Some S ∧ b ∈ S.

(** [l] is what the cache holds along the parent hashes, from [hash] at
    block [num] downwards: the headers the walk of
    requestHeadersNotFromRange meets. *)
Fixpoint cachedChain (a : API) (hash : Hash) (num : Z) (l : list Header) : Prop :=
  match l with
  | [] => True
  | p :: l' =>
      GetCachedHeader a hash num = Some p ∧ cachedChain a (ParentHash p) (wrap64 (num - 1)) l'
  end.

(** The hash the walk looks up after [l]. *)
Fixpoint chainEnd (hash : Hash) (l : list Header) : Hash :=
  match l with
  | [] => hash
  | p :: l' => chainEnd (ParentHash p) l'
  end.

(** Every cached header sits under its own hash and block number, as
    [CacheHeader] files it. *)
Definition keyedByOwn (a : API) : Prop :=
  map_Forall (λ key h, key = (HeaderHash h, NumberUint64 h)) (Cache a).

(** [l] is a chain of headers: hash [hash] at block [num], then its parent
    at block [num - 1], and so on. *)
Fixpoint chainFrom (hash : Hash) (num : Z) (l : list Header) : Prop :=
  match l with
  | [] => True
  | p :: l' => HeaderHash p = hash ∧ NumberUint64 p = num ∧ chainFrom (ParentHash p) (num - 1) l'
  end.

(** ** Scenarios *)

Module Scenario.

(** Header number [n] of a chain: its hash is 1000 + n, its parent hash the
    hash of header [n - 1]. *)
Definition hdr (n : N) : Header := mkHeader n (999 + Z.of_N n) (1000 + Z.of_N n).


Definition acceptAll (h : Header) (parents : list Header) (uncle seal : bool)
  : option error := None.

Definition rejectAll (h : Header) (parents : list Header) (uncle seal : bool)
  : option error := Some (errExternal 1).

Definition needOne (h : Header) : Z := 1.

(** Two ancestors for header 10, three for the others. *)
Definition needTwoThenThree (h : Header) : Z := if (Number h =? 10)%N then 2 else 3.

(** None for header 10, one for the others. *)
Definition needNoneThenOne (h : Header) : Z := if (Number h =? 10)%N then 0 else 1.

(** None for header 10, one for header 11, five for the others. *)
Definition needNoneOneFive (h : Header) : Z :=
  if (Number h =? 10)%N then 0 else if (Number h =? 11)%N then 1 else 5.

Definition batch (reqID : Z) (numbers : list N) (deadline : option Z)
  : VerifyHeaderRequest :=
  mkVerifyHeaderRequest reqID (map (λ n, Some (hdr n)) numbers)
    (map (λ _, true) numbers) deadline.

(** A batch of two slots whose first is nil. *)
Definition nilBatch : VerifyHeaderRequest :=
  mkVerifyHeaderRequest 1 [None; Some (hdr 10)] [true; true] None.

Definition fetched (reqID : Z) (numbers : list N) : HeaderResponse :=
  mkHeaderResponse reqID (map hdr numbers) 0 None.

Definition fetchFailed (reqID : Z) (hash : Hash) : HeaderResponse :=
  mkHeaderResponse reqID [] hash (Some (errExternal 7)).

(** Header 10 waiting for blocks 8 and 9 under request id 1, deadline 100. *)
Definition waiting10 : VerifyRequest :=
  mkVerifyRequest 1 (hdr 10) true 100 [] 2 8 9.

(** Header 20 waiting under the same request id, deadline 500. *)
Definition waiting20 : VerifyRequest :=
  mkVerifyRequest 1 (hdr 20) true 500 [] 1 19 19.

Definition oneWaiting : API :=
  mkAPI {[1 := {[10 := waiting10]}]} ∅ [] [] [] [].

Definition twoWaiting : API :=
  mkAPI {[1 := {[10 := waiting10; 20 := waiting20]}]} ∅ [] [] [] [].

(** Headers 8 and 9 in the cache, nothing else. *)
Definition cachedTwo : API := cacheHeaders [hdr 8; hdr 9] emptyAPI.

(** Headers 10 and 11 in the cache, nothing else. *)
Definition cachedBatch : API := cacheHeaders [hdr 10; hdr 11] emptyAPI.

(** Header 11 waiting for block 10 under request id 1, deadline 100. *)
Definition waiting11 : VerifyRequest :=
  mkVerifyRequest 1 (hdr 11) true 100 [] 1 10 10.

Definition chainWaiting : API :=
  mkAPI {[1 := {[10 := waiting10; 11 := waiting11]}]} ∅ [] [] [] [].


(** The same, with the removal of block 11 in CleanupCh: a removal that
    waits for a pending verification. *)
Definition removalOfPending : API :=
  mkAPI {[1 := {[10 := waiting10; 11 := waiting11]}]} ∅ [] [] [mkFinishedRequest 1 11] [].

(** A machine that grants a slice of up to 2^20 pointers; the scenarios
    run on it, and none of them asks for more than a few. *)
Definition smallMachine : Memory :=
  {| maxCap := 2 ^ 20; maxCap_nonneg := eq_refl; maxCap_maxAlloc := eq_refl |}.

End Scenario.

(** * Properties *)

(** ** Machine integers *)

Lemma wrap64_range x : 0 ≤ wrap64 x < 2 ^ 64.
Proof. unfold wrap64. apply Z.mod_pos_bound. lia. Qed.

Lemma wrap64_small x : 0 ≤ x < 2 ^ 64 → wrap64 x = x.
Proof. intros. unfold wrap64. apply Z.mod_small. lia. Qed.

Lemma int64_small x : - 2 ^ 63 ≤ x < 2 ^ 63 → int64 x = x.
Proof. intros. unfold int64. rewrite Z.mod_small; lia. Qed.

Lemma wrap64_pred x d : wrap64 (wrap64 (x - d) - 1) = wrap64 (x - (d + 1)).
Proof. unfold wrap64. rewrite Zminus_mod_idemp_l. f_equal. lia. Qed.

Lemma wrap64_back x d : 0 ≤ d < 2 ^ 64 → wrap64 (x - wrap64 (x - d)) = d.
Proof.
  intros Hd. unfold wrap64. rewrite Zminus_mod_idemp_r.
  replace (x - (x - d)) with d by lia. apply Z.mod_small. lia.
Qed.

Lemma NumberUint64_range h : 0 ≤ NumberUint64 h < 2 ^ 64.
Proof. apply wrap64_range. Qed.

Lemma Number_Uint64 h : ∃ q, Z.of_N (Number h) = NumberUint64 h + 2 ^ 64 * q.
Proof.
  unfold NumberUint64, wrap64. exists (Z.of_N (Number h) / 2 ^ 64).
  pose proof (Z.div_mod (Z.of_N (Number h)) (2 ^ 64)). lia.
Qed.

(** ** The fetch origin of one header *)

(** Whatever the header, the number of ancestors asked for outside the
    batch lies between none and all, and the origin is a uint64. *)
Lemma fetchOrigin_bounds k h first last pa hn hh :
  0 ≤ k < 2 ^ 63 → fetchOrigin k h first last = (pa, hn, hh) →
  0 ≤ pa ≤ k ∧ 0 ≤ hn < 2 ^ 64.
Proof.
  intros Hk. unfold fetchOrigin.
  pose proof (NumberUint64_range h) as Hn.
  pose proof (NumberUint64_range first) as Hf.
  pose proof (wrap64_range (NumberUint64 first - 1)) as Hf1.
  set (pa' := if _ && _ then _ else _).
  assert (0 ≤ pa' ≤ k) as Hpa.
  { subst pa'. destruct (_ && _) eqn:Hin; [|lia].
    apply andb_prop in Hin as [Hlo%Z.ltb_lt Hhi%Z.leb_le].
    destruct (Z.leb_spec (wrap64 (NumberUint64 first + wrap64 k)) (NumberUint64 h))
      as [|Hlt]; [lia|].
    rewrite (wrap64_small k) in Hlt by lia.
    unfold NumberInt64. destruct (Number_Uint64 h) as [q Hq].
    unfold wrap64 in Hlt. unfold int64. Z.div_mod_to_equations. lia. }
  destruct (0 <? pa'); intros [= <- <- <-]; lia.
Qed.

(** Lines 311-332 in closed form, for a header strictly above the first
    and not above the last header of the batch, when [from + k] does not
    overflow a uint64. *)
Lemma fetchOrigin_own k h first lst pa hn hh :
  fetchOrigin k h first lst = (pa, hn, hh) → ¬ 0 < pa → hn = NumberUint64 h.
Proof.
  unfold fetchOrigin. cbv zeta.
  destruct (0 <? _) eqn:E; intros [= <- <- <-]; [|done].
  apply Z.ltb_lt in E. lia.
Qed.

Lemma fetchOrigin_closed_form (k : Z) (h first last : Header) :
  let n := NumberUint64 h in
  let from := NumberUint64 first in
  let to := NumberUint64 last in
  0 < k < 2 ^ 63 → from + k < 2 ^ 64 → from < n → n ≤ to →
  fetchOrigin k h first last =
    if from <=? n - k then (0, n, ParentHash h)
    else (from - (n - k), wrap64 (from - 1), ParentHash first).
Proof.
  intros n from to Hk Hov Hlo Hhi. unfold fetchOrigin. fold n from to.
  pose proof (NumberUint64_range h) as Hn. fold n in Hn.
  pose proof (NumberUint64_range first) as Hf. fold from in Hf.
  destruct (Z.ltb_spec from n); [|lia].
  destruct (Z.leb_spec n to); [|lia]. cbn [andb].
  rewrite (wrap64_small k) by lia.
  rewrite (wrap64_small (from + k)) by lia.
  destruct (Z.leb_spec (from + k) n), (Z.leb_spec from (n - k)); try lia.
  - reflexivity.
  - assert (int64 (int64 from - int64 (NumberInt64 h - int64 k)) = from - (n - k)) as ->.
    { unfold NumberInt64. destruct (Number_Uint64 h) as [q Hq]. fold n in Hq.
      unfold int64. Z.div_mod_to_equations. lia. }
    destruct (Z.ltb_spec 0 (from - (n - k))); [reflexivity|lia].
Qed.

(** ** Merging the fetch requests *)

Lemma sumStep_loop reqID from (reqs : list HeadersRequest) :
  ∀ mx mh mn mx' mh' mn',
    fold_left (sumStep reqID from) reqs (mx, mh, mn) = (mx', mh', mn') →
    ((mx' = mx ∧ mh' = mh) ∨
     (∃ r, r ∈ reqs ∧ counted reqID r ∧ HighestBlockNumber r < from
           ∧ mx' = HighestBlockNumber r ∧ mh' = HighestHash r)) ∧
    mx ≤ mx' ∧
    (∀ r, r ∈ reqs → counted reqID r → HighestBlockNumber r < from →
          HighestBlockNumber r ≤ mx') ∧
    (mn' = mn ∨ (∃ r, r ∈ reqs ∧ counted reqID r ∧ mn' = lowestAsked r)) ∧
    mn' ≤ mn ∧
    (∀ r, r ∈ reqs → counted reqID r → mn' ≤ lowestAsked r).
Proof.
  induction reqs as [|r reqs IH]; intros mx mh mn mx' mh' mn' Hfold.
  - cbn in Hfold. injection Hfold as <- <- <-.
    repeat split; try lia; try (by left); by intros ? ?%elem_of_nil.
  - cbn [fold_left] in Hfold.
    destruct (sumStep reqID from (mx, mh, mn) r) as [[mx1 mh1] mn1] eqn:Hstep.
    apply IH in Hfold as (Hmax & Hle & Hub & Hmin & Hge & Hlb). clear IH.
    assert ((¬ counted reqID r ∧ mx1 = mx ∧ mh1 = mh ∧ mn1 = mn) ∨
            (counted reqID r ∧
             ((mx < HighestBlockNumber r < from ∧ mx1 = HighestBlockNumber r
               ∧ mh1 = HighestHash r) ∨
              (¬ (mx < HighestBlockNumber r < from) ∧ mx1 = mx ∧ mh1 = mh)) ∧
             ((lowestAsked r < mn ∧ mn1 = lowestAsked r) ∨
              (mn ≤ lowestAsked r ∧ mn1 = mn)))) as Hcase.
    { unfold sumStep in Hstep. unfold counted.
      destruct (Z.eqb_spec (hrID r) reqID) as [Hid|Hid]; cbn [negb] in Hstep;
        [|injection Hstep as <- <- <-; left; split; [tauto|done]].
      destruct (Z.eqb_spec (hrNumber r) 0) as [Hz|Hz];
        [injection Hstep as <- <- <-; left; split; [tauto|done]|].
      right. split; [done|]. fold (lowestAsked r) in Hstep.
      destruct (Z.ltb_spec mx (HighestBlockNumber r)), (Z.ltb_spec (HighestBlockNumber r) from),
        (Z.ltb_spec (lowestAsked r) mn); cbn [andb] in Hstep; injection Hstep as <- <- <-;
        (split; [first [left; split; [lia|done] | right; split; [lia|done]]
                |first [left; split; [lia|done] | right; split; [lia|done]]]). }
    destruct Hcase as [(Hnot & -> & -> & ->)|(Hcnt & Hmx & Hmn)].
    + split.
      { destruct Hmax as [?|(q & Hq & ?)]; [by left|]. right. exists q. split; [by right|done]. }
      split; [done|]. split.
      { intros q [->|Hq]%elem_of_cons; [done|by apply Hub]. }
      split.
      { destruct Hmin as [?|(q & Hq & ?)]; [by left|]. right. exists q. split; [by right|done]. }
      split; [done|].
      intros q [->|Hq]%elem_of_cons; [done|by apply Hlb].
    + split.
      { destruct Hmax as [[-> ->]|(q & Hq & ?)].
        - destruct Hmx as [(? & -> & ->)|(_ & -> & ->)]; [|by left].
          right. exists r. split; [by left|]. split; [done|]. split; [lia|done].
        - right. exists q. split; [by right|done]. }
      split; [destruct Hmx as [(? & -> & _)|(_ & -> & _)]; lia|]. split.
      { intros q [->|Hq]%elem_of_cons; [|by apply Hub]. intros _ Hbelow.
        destruct Hmx as [(? & -> & _)|(? & -> & _)]; lia. }
      split.
      { destruct Hmin as [->|(q & Hq & ?)].
        - destruct Hmn as [(_ & ->)|(_ & ->)]; [|by left].
          right. exists r. split; [by left|done].
        - right. exists q. split; [by right|done]. }
      split; [destruct Hmn as [(? & ->)|(_ & ->)]; lia|].
      intros q [->|Hq]%elem_of_cons; [|by apply Hlb]. intros _.
      destruct Hmn as [(? & ->)|(? & ->)]; lia.
Qed.

(** When the first request is one the loop takes into account and starts
    below the batch, the merged request is what the loop is after: it
    starts at the highest block below the batch any counted request starts
    at, with the hash of such a request, and reaches down to the lowest
    block any counted request asks for. *)
Lemma sum_when_first_request_counts reqID from r0 rest :
  counted reqID r0 → HighestBlockNumber r0 < from →
  ∃ res lowest,
    sumHeadersRequestsInRange reqID from (r0 :: rest) = (res, None) ∧
    hrID res = reqID ∧
    (∃ r, r ∈ r0 :: rest ∧ counted reqID r ∧ HighestBlockNumber r < from
          ∧ HighestBlockNumber res = HighestBlockNumber r ∧ HighestHash res = HighestHash r) ∧
    (∀ r, r ∈ r0 :: rest → counted reqID r → HighestBlockNumber r < from →
          HighestBlockNumber r ≤ HighestBlockNumber res) ∧
    (∃ r, r ∈ r0 :: rest ∧ counted reqID r ∧ lowest = lowestAsked r) ∧
    (∀ r, r ∈ r0 :: rest → counted reqID r → lowest ≤ lowestAsked r) ∧
    hrNumber res = wrap64 (HighestBlockNumber res - lowest + 1).
Proof.
  intros Hcnt Hbelow. unfold sumHeadersRequestsInRange.
  destruct (fold_left _ _ _) as [[mx mh] mn] eqn:Hfold.
  apply sumStep_loop in Hfold as (Hmax & Hle & Hub & Hmin & Hge & Hlb).
  exists (mkHeadersRequest reqID mh mx (wrap64 (mx - mn + 1))), mn. cbn.
  split; [done|]. split; [done|]. split.
  { destruct Hmax as [[-> ->]|?]; [|done]. exists r0. split; [by left|done]. }
  split; [done|]. split.
  { destruct Hmin as [->|?]; [|done]. exists r0. split; [by left|done]. }
  done.
Qed.

(** ** Pairing and sorting the batch *)

Lemma pairHeaders_total headers seals :
  (length headers ≤ length seals)%nat →
  ∃ l, pairHeaders headers seals = Some l ∧ map header l = headers.
Proof.
  revert seals. induction headers as [|h hs IH]; intros [|s ss] Hlen; cbn in *; try lia.
  - by exists [].
  - by exists [].
  - destruct (IH ss) as (l & -> & Hl); [lia|]. cbn. eexists. split; [done|]. cbn. by rewrite Hl.
Qed.

Lemma sink_total x r :
  present x → Forall present r → ∃ r', sink x r = Some r' ∧ r' ≡ₚ x :: r.
Proof.
  intros [hx Hx] Hr. induction Hr as [|y r [hy Hy] Hr IH]; cbn.
  - by exists [x].
  - unfold lessNumber. rewrite Hx, Hy. cbn.
    destruct (bool_decide _).
    + destruct IH as (r' & -> & Hp). cbn. eexists. split; [done|].
      rewrite Hp. apply Permutation_swap.
    + eexists. split; done.
Qed.

Lemma insertionSort_total rprefix rest :
  Forall present rprefix → Forall present rest →
  ∃ l, insertionSort rprefix rest = Some l ∧ l ≡ₚ rprefix ++ rest.
Proof.
  intros Hp Hr. revert rprefix Hp. induction Hr as [|x rest Hx Hr IH]; intros rprefix Hp; cbn.
  - eexists. split; [done|]. rewrite app_nil_r. symmetry. apply Permutation_rev.
  - destruct (sink_total x rprefix Hx Hp) as (r' & -> & Hperm). cbn.
    destruct (IH r') as (l & -> & Hl).
    { rewrite Hperm. by constructor. }
    eexists. split; [done|]. rewrite Hl, Hperm. apply Permutation_middle.
Qed.

(** A batch without nil header is sorted into a permutation of itself. *)
Lemma sortSlice_total l :
  Forall present l → ∃ l', sortSlice l = Some l' ∧ l' ≡ₚ l.
Proof. intros Hl. by apply (insertionSort_total [] l). Qed.

Lemma sink_nonempty x r r' : sink x r = Some r' → r' ≠ [].
Proof.
  destruct r as [|y r]; cbn; [by intros [= <-]|].
  destruct (lessNumber x y) as [[]|]; cbn; [|by intros [= <-]|done].
  destruct (sink x r); cbn; [by intros [= <-]|done].
Qed.

Lemma insertionSort_nil_later rprefix rest :
  Forall present rprefix → rprefix ≠ [] → (∃ x, x ∈ rest ∧ header x = None) →
  insertionSort rprefix rest = None.
Proof.
  intros Hp Hne Hnil. revert rprefix Hp Hne.
  induction rest as [|x rest IH]; intros rprefix Hp Hne.
  { destruct Hnil as (x & Hin & _). by apply elem_of_nil in Hin. }
  cbn. destruct (header x) as [hx|] eqn:Hx.
  - destruct (sink_total x rprefix) as (r' & Hs & Hperm); [by exists hx|done|].
    rewrite Hs. cbn. apply IH.
    + destruct Hnil as (y & Hin & Hy). exists y. split; [|done].
      apply elem_of_cons in Hin as [->|Hin]; [congruence|done].
    + rewrite Hperm. constructor; [by exists hx|done].
    + by eapply sink_nonempty.
  - destruct rprefix as [|y r]; [done|]. cbn. unfold lessNumber. by rewrite Hx.
Qed.

Lemma insertionSort_nil_first x rest :
  header x = None → rest ≠ [] → insertionSort [x] rest = None.
Proof.
  intros Hx Hne. destruct rest as [|y rest]; [done|]. cbn. unfold lessNumber.
  rewrite Hx. by destruct (header y).
Qed.

(** Among two slots or more, a nil header is compared with a neighbour,
    and the comparison reads its Number. *)
Lemma sortSlice_nil_panics l :
  (2 ≤ length l)%nat → (∃ x, x ∈ l ∧ header x = None) → sortSlice l = None.
Proof.
  intros Hlen Hnil. destruct l as [|x [|y rest]]; cbn in Hlen; try lia.
  change (insertionSort [x] (y :: rest) = None).
  destruct (header x) as [hx|] eqn:Hx.
  - apply insertionSort_nil_later; [|done|].
    + constructor; [by exists hx|done].
    + destruct Hnil as (z & Hin & Hz). exists z. split; [|done].
      apply elem_of_cons in Hin as [->|Hin]; [congruence|done].
  - by apply insertionSort_nil_first.
Qed.

Lemma omap_header_present (l : list reqHeader) :
  Forall present l → map header l = Some <$> omap header l.
Proof.
  induction 1 as [|x l [h Hx] _ IH]; [done|]. cbn. rewrite Hx. cbn. by rewrite IH.
Qed.

Lemma omap_header_Some (l : list reqHeader) (hs : list Header) :
  map header l = Some <$> hs → omap header l = hs.
Proof.
  revert hs. induction l as [|x l IH]; intros [|h hs] Heq; try done.
  cbn in Heq. injection Heq as Hx Heq. cbn. rewrite Hx. cbn. by rewrite (IH hs).
Qed.

(** ** The walk through the cache returns *)

(** [m] holds what is left of the cache below the blocks already visited;
    every turn that goes on takes one entry out of it. *)
Lemma walkCache_fuel (a : API) (num0 minHeader : Z) (fuel : nat) :
  ∀ (m : gmap (Z * Z) Header) d highestKnown known hpn hph,
    0 ≤ d → d + Z.of_nat fuel ≤ 2 ^ 64 →
    (∀ hash x, d ≤ wrap64 (num0 - x) → Cache a !! (hash, x) = m !! (hash, x)) →
    (size m < fuel)%nat →
    is_Some (walkCache fuel a highestKnown (wrap64 (num0 - d)) minHeader known hpn hph).
Proof.
  induction fuel as [|fuel IH]; intros m d highestKnown known hpn hph Hd Hfuel Hm Hsize; [lia|].
  cbn [walkCache]. destruct (_ <? _); [done|].
  unfold GetCachedHeader.
  destruct (Cache a !! (highestKnown, wrap64 (num0 - d))) as [p|] eqn:Hp; [|done].
  destruct (if hpn <? NumberUint64 p then _ else _) as [hpn' hph'].
  rewrite wrap64_pred.
  assert (m !! (highestKnown, wrap64 (num0 - d)) = Some p) as Hmp.
  { rewrite <- (Hm highestKnown (wrap64 (num0 - d))); [done|]. rewrite wrap64_back; lia. }
  apply (IH (delete (highestKnown, wrap64 (num0 - d)) m)); [lia|lia| |].
  - intros hash x Hx. rewrite Hm by lia.
    rewrite lookup_delete_ne; [done|]. intros [= <- <-].
    rewrite wrap64_back in Hx; lia.
  - rewrite map_size_delete_Some by eauto.
    pose proof (map_size_ne_0_lookup_2 m _ (mk_is_Some _ _ Hmp)). lia.
Qed.

Section Capacity.

Context `{Memory}.

Lemma maxCap_bound : maxCap ≤ 2 ^ 45.
Proof.
  pose proof maxCap_maxAlloc as Hm. apply Z.leb_le in Hm. unfold maxAlloc in Hm. lia.
Qed.

(** The capacity line 353 asks for is [highestBlock] when [parentsToGet] is
    0, and the lesser of [highestBlock] and [parentsToGet - 1] otherwise. *)
Lemma makeslice_granted highestBlock parentsToGet :
  0 ≤ highestBlock < 2 ^ 64 → 0 ≤ parentsToGet < 2 ^ 64 →
  highestBlock ≤ maxCap ∨ 0 < parentsToGet ≤ maxCap + 1 →
  makeslice
    (wrap64 (highestBlock
             - (if wrap64 (parentsToGet - 1) <? highestBlock
                then wrap64 (highestBlock - parentsToGet + 1)
                else 0)))
  = Some [].
Proof.
  intros Hhb Hp Hcap. unfold makeslice.
  destruct (decide (parentsToGet = 0)) as [->|Hne].
  - change (wrap64 (0 - 1)) with (2 ^ 64 - 1).
    destruct (Z.ltb_spec (2 ^ 64 - 1) highestBlock); [lia|].
    rewrite Z.sub_0_r, wrap64_small by done.
    destruct (Z.leb_spec highestBlock maxCap); [done|lia].
  - rewrite (wrap64_small (parentsToGet - 1)) by lia.
    destruct (Z.ltb_spec (parentsToGet - 1) highestBlock).
    + rewrite (wrap64_small (highestBlock - parentsToGet + 1)) by lia.
      rewrite wrap64_small by lia.
      destruct (Z.leb_spec (highestBlock - (highestBlock - parentsToGet + 1)) maxCap);
        [done|lia].
    + rewrite Z.sub_0_r, wrap64_small by done.
      destruct (Z.leb_spec highestBlock maxCap); [done|lia].
Qed.

Lemma requestHeadersNotFromRange_total a reqID highestBlock highestKnown parentsToGet :
  Z.of_nat (size (Cache a)) < 2 ^ 64 →
  0 ≤ highestBlock < 2 ^ 64 → 0 ≤ parentsToGet < 2 ^ 64 →
  highestBlock ≤ maxCap ∨ 0 < parentsToGet ≤ maxCap + 1 →
  is_Some (requestHeadersNotFromRange a reqID highestBlock highestKnown parentsToGet).
Proof.
  intros Hsize Hhb Hp Hcap. unfold requestHeadersNotFromRange.
  rewrite makeslice_granted by done. cbn [mbind option_bind].
  set (minHeader := if _ <? _ then _ else _).
  destruct (walkCache_fuel a highestBlock minHeader (S (size (Cache a))) (Cache a) 0
              highestKnown [] highestBlock highestKnown) as [[[known hpn] hph] Hw];
    try lia; [done|].
  replace (highestBlock - 0) with highestBlock in Hw by lia.
  rewrite wrap64_small in Hw by done. rewrite Hw. cbn. eauto.
Qed.

(** On a miss at the first block looked up, nothing is known and the
    request asks for everything from there. *)
Lemma requestHeadersNotFromRange_miss a reqID highestBlock highestKnown parentsToGet :
  0 ≤ highestBlock < 2 ^ 64 → 0 ≤ parentsToGet < 2 ^ 64 →
  highestBlock ≤ maxCap ∨ 0 < parentsToGet ≤ maxCap + 1 →
  GetCachedHeader a highestKnown highestBlock = None →
  requestHeadersNotFromRange a reqID highestBlock highestKnown parentsToGet
  = Some ([], mkHeadersRequest reqID highestKnown highestBlock parentsToGet).
Proof.
  intros Hhb Hp Hcap Hmiss. unfold requestHeadersNotFromRange.
  rewrite makeslice_granted by done. cbn [mbind option_bind].
  set (minHeader := if _ <? _ then _ else _).
  assert (minHeader ≤ highestBlock) as Hmin.
  { subst minHeader.
    destruct (Z.ltb_spec (wrap64 (parentsToGet - 1)) highestBlock) as [Hlt|]; [|lia].
    destruct (decide (parentsToGet = 0)) as [->|Hne].
    - change (wrap64 (0 - 1)) with (2 ^ 64 - 1) in Hlt. lia.
    - rewrite wrap64_small in Hlt by lia. rewrite wrap64_small; lia. }
  cbn [walkCache]. destruct (Z.ltb_spec highestBlock minHeader); [lia|].
  rewrite Hmiss. cbn. rewrite Z.sub_0_r, wrap64_small; done.
Qed.

(** Above the capacity the machine grants, line 353 ends the run. *)
Lemma requestHeadersNotFromRange_refused a reqID highestBlock highestKnown parentsToGet :
  0 ≤ highestBlock < 2 ^ 64 → 0 ≤ parentsToGet < 2 ^ 64 →
  maxCap < highestBlock → parentsToGet = 0 ∨ maxCap + 1 < parentsToGet →
  requestHeadersNotFromRange a reqID highestBlock highestKnown parentsToGet = None.
Proof.
  intros Hhb Hp Hcap Hget. unfold requestHeadersNotFromRange, makeslice.
  pose proof maxCap_bound.
  destruct (decide (parentsToGet = 0)) as [->|Hne].
  - change (wrap64 (0 - 1)) with (2 ^ 64 - 1).
    destruct (Z.ltb_spec (2 ^ 64 - 1) highestBlock); [lia|].
    rewrite Z.sub_0_r, wrap64_small by done.
    destruct (Z.leb_spec highestBlock maxCap); [lia|done].
  - rewrite (wrap64_small (parentsToGet - 1)) by lia.
    destruct (Z.ltb_spec (parentsToGet - 1) highestBlock).
    + rewrite (wrap64_small (highestBlock - parentsToGet + 1)) by lia.
      rewrite wrap64_small by lia.
      destruct (Z.leb_spec (highestBlock - (highestBlock - parentsToGet + 1)) maxCap);
        [lia|done].
    + rewrite Z.sub_0_r, wrap64_small by done.
      destruct (Z.leb_spec highestBlock maxCap); [lia|done].
Qed.

End Capacity.

(** ** The ancestors taken from the batch *)

Lemma indexOfNumber_total number (l : list Header) i :
  ∃ found, indexOfNumber number (Some <$> l) i = Some found ∧
    match found with
    | Some idx => i ≤ idx < i + Z.of_nat (length l)
    | None => True
    end.
Proof.
  revert i. induction l as [|h l IH]; intros i; cbn.
  - by exists None.
  - destruct (NumberUint64 h =? number).
    + exists (Some i). split; [done|lia].
    + destruct (IH (i + 1)) as (found & -> & Hf). exists found. split; [done|].
      destruct found; [lia|done].
Qed.

Lemma mapM_id_Some {A} (l : list A) : mapM id (Some <$> l) = Some l.
Proof. induction l as [|x l IH]; cbn; [done|]. by rewrite IH. Qed.

Lemma checkHeadersFromRange_total h (l : list Header) pa k :
  0 ≤ pa ≤ k → k < 2 ^ 63 →
  is_Some (checkHeadersFromRange h (Some <$> l) (wrap64 pa) (wrap64 k)).
Proof.
  intros Hpa Hk. unfold checkHeadersFromRange.
  rewrite (wrap64_small pa), (wrap64_small k), (wrap64_small (k - pa)) by lia.
  destruct (k - pa <=? 0); [done|].
  destruct (indexOfNumber_total (NumberUint64 h) l 0) as (found & -> & Hf). cbn.
  destruct found as [idx|]; [|done].
  cbv zeta. rewrite int64_small by lia.
  destruct (Z.ltb_spec (k - pa) 0); [lia|].
  destruct (_ <? 0); [done|].
  destruct (Z.ltb_spec idx (idx - (k - pa))); [lia|].
  rewrite <- fmap_drop, <- fmap_take, mapM_id_Some. done.
Qed.

(** ** The registry *)

Lemma cleanupRequest_fields reqID num a :
  VerifyHeaderResponses (cleanupRequest reqID num a) = VerifyHeaderResponses a ∧
  Cache (cleanupRequest reqID num a) = Cache a ∧
  HeadersRequests (cleanupRequest reqID num a) = HeadersRequests a.
Proof. unfold cleanupRequest. destruct (_ !! _); [case_decide|]; done. Qed.

Lemma pendingAt_cleanupRequest_ne a reqID num n :
  n ≠ num → pendingAt (cleanupRequest reqID num a) reqID n = pendingAt a reqID n.
Proof.
  intros Hne. unfold pendingAt, cleanupRequest.
  destruct (ProcessingRequests a !! reqID) as [blocks|] eqn:Hb; [|by rewrite Hb].
  case_decide as Hsz; cbn.
  - rewrite lookup_delete_eq. cbn. apply map_size_empty_inv in Hsz.
    rewrite <- (lookup_delete_ne blocks num n) by done. by rewrite Hsz.
  - rewrite lookup_insert_eq. cbn. by rewrite lookup_delete_ne.
Qed.

Lemma pendingAt_addVerifyHeaderRequest_eq reqID h s deadline known k a :
  pendingAt (addVerifyHeaderRequest reqID h s deadline known k a) reqID (NumberUint64 h)
  = Some (toVerifyRequest reqID h s deadline known k).
Proof.
  unfold pendingAt, addVerifyHeaderRequest. cbn.
  rewrite lookup_insert_eq. cbn. by rewrite lookup_insert_eq.
Qed.

Lemma pendingAt_addVerifyHeaderRequest_ne reqID h s deadline known k a n :
  n ≠ NumberUint64 h →
  pendingAt (addVerifyHeaderRequest reqID h s deadline known k a) reqID n = pendingAt a reqID n.
Proof.
  intros Hne. unfold pendingAt, addVerifyHeaderRequest. cbn.
  rewrite lookup_insert_eq. cbn. rewrite lookup_insert_ne by done.
  destruct (ProcessingRequests a !! reqID); [done|]. cbn. by rewrite lookup_empty.
Qed.

Lemma storeRequest_fields reqID num req a :
  VerifyHeaderResponses (storeRequest reqID num req a) = VerifyHeaderResponses a ∧
  Cache (storeRequest reqID num req a) = Cache a.
Proof. unfold storeRequest. by destruct (_ !! _). Qed.

Lemma pendingAt_storeRequest_ne reqID num req a n :
  n ≠ num → pendingAt (storeRequest reqID num req a) reqID n = pendingAt a reqID n.
Proof.
  intros Hne. unfold pendingAt, storeRequest.
  destruct (ProcessingRequests a !! reqID) as [blocks|] eqn:Hb; cbn; [|by rewrite Hb].
  rewrite lookup_insert_eq. cbn. by rewrite lookup_insert_ne.
Qed.

Lemma cache_size_CacheHeader h a : (size (Cache (CacheHeader h a)) ≤ S (size (Cache a)))%nat.
Proof.
  unfold CacheHeader. cbn. rewrite map_size_insert. destruct (_ !! _); cbn; lia.
Qed.

(** ** Intake of a batch *)

Section Intake.

Context `{Memory}.

Variable NeededForVerification : Header → Z.
Variable Verify : Header → list Header → bool → bool → option error.
Variable cleanupChCap : nat.


(** The request made for one header, when the cache misses at the origin:
    it carries the origin and the count of [fetchOrigin]. *)
Lemma requestParentHeaders_asks a reqID h (l : list Header) first lst pa hn hh :
  0 ≤ NeededForVerification h ≤ maxCap → NumberUint64 h ≤ maxCap →
  NeededForVerification h ≠ 0 →
  head l = Some first → last l = Some lst →
  fetchOrigin (NeededForVerification h) h first lst = (pa, hn, hh) →
  GetCachedHeader a hh hn = None →
  ∃ known,
    requestParentHeaders NeededForVerification a reqID h (Some <$> l)
    = Some (known, NeededForVerification h, Some (mkHeadersRequest reqID hh hn pa)).
Proof.
  intros Hk Hn Hnz Hfirst Hlast Hfo Hmiss. pose proof maxCap_bound as Hcap.
  unfold requestParentHeaders.
  destruct (Z.eqb_spec (NeededForVerification h) 0); [done|].
  rewrite fmap_last, Hlast. destruct l as [|first' l']; [done|]. injection Hfirst as ->.
  cbn [fmap list_fmap option_fmap option_map head mjoin option_join mbind option_bind].
  rewrite Hfo.
  pose proof (fetchOrigin_own _ _ _ _ _ _ _ Hfo) as Hown.
  destruct (fetchOrigin_bounds (NeededForVerification h) _ _ _ _ _ _ ltac:(lia) Hfo)
    as [Hpa Hhn].
  rewrite (wrap64_small pa) by lia.
  rewrite requestHeadersNotFromRange_miss; [|done|lia| |done].
  2:{ destruct (decide (0 < pa)); [right; lia|left; rewrite Hown; done]. }
  cbn [mbind option_bind].
  destruct (checkHeadersFromRange_total h (first :: l') pa (NeededForVerification h))
    as [kr Hkr]; [done|lia|].
  rewrite (wrap64_small pa) in Hkr by lia.
  cbn [fmap list_fmap] in Hkr. rewrite Hkr. cbn. eauto.
Qed.

(** The two ways verifyByRequest ends: parents are missing and nothing
    happens, or the verdict of the rule engine is sent and the request is
    taken out of the registry, at once or through CleanupCh. *)
Lemma verifyByRequest_attempt a reqID h s k known a' err :
  verifyByRequest Verify cleanupChCap a reqID h s k known = (a', err) →
  (err = Some errNotAllParents ∧ a' = a ∧ Z.of_nat (length known) ≠ k) ∨
  (err = None ∧ Z.of_nat (length known) = k ∧
   VerifyHeaderResponses a' =
     VerifyHeaderResponses a
       ++ [mkVerifyHeaderResponse reqID (HeaderHash h) (Verify h known false s)] ∧
   (∀ n, n ≠ NumberUint64 h → pendingAt a' reqID n = pendingAt a reqID n) ∧
   (size (Cache a') ≤ S (size (Cache a)))%nat).
Proof.
  unfold verifyByRequest.
  destruct (Z.eqb_spec (Z.of_nat (length known)) k) as [Hk|Hk]; cbn [negb].
  - intros [= <- <-]. right. split; [done|]. split; [done|].
    set (a1 := match Verify h known false s with Some _ => a | None => CacheHeader h a end).
    assert (ProcessingRequests a1 = ProcessingRequests a) as Hreg
      by (subst a1; by destruct Verify).
    assert (VerifyHeaderResponses a1 = VerifyHeaderResponses a) as Hresp
      by (subst a1; by destruct Verify).
    assert (size (Cache a1) ≤ S (size (Cache a)))%nat as Hcache.
    { subst a1. destruct Verify; [lia|apply cache_size_CacheHeader]. }
    destruct (Nat.ltb _ _); cbn.
    + rewrite Hresp. split; [done|]. split; [|done].
      intros n _. unfold pendingAt. cbn. by rewrite Hreg.
    + destruct (cleanupRequest_fields reqID (NumberUint64 h)
                  (sendVerifyHeaderResponse
                     (mkVerifyHeaderResponse reqID (HeaderHash h) (Verify h known false s)) a1))
        as (-> & -> & _).
      cbn. rewrite Hresp. split; [done|]. split; [|done].
      intros n Hn. rewrite pendingAt_cleanupRequest_ne by done.
      unfold pendingAt. cbn. by rewrite Hreg.
  - intros [= <- <-]. by left.
Qed.

Lemma verifyByRequest_cache a reqID h s k known a' err :
  verifyByRequest Verify cleanupChCap a reqID h s k known = (a', err) →
  ∀ key, is_Some (Cache a !! key) → is_Some (Cache a' !! key).
Proof.
  unfold verifyByRequest. destruct (negb _); [by intros [= <- <-]|].
  intros [= <- <-] key Hkey.
  assert (is_Some (Cache (match Verify h known false s with
                          | Some _ => a | None => CacheHeader h a end) !! key)) as Hc.
  { destruct Verify; [done|]. cbn. rewrite lookup_insert. case_decide; [done|]. done. }
  destruct (Nat.ltb _ _); [done|].
  by destruct (cleanupRequest_fields reqID (NumberUint64 h)
    (sendVerifyHeaderResponse
       (mkVerifyHeaderResponse reqID (HeaderHash h) (Verify h known false s))
       (match Verify h known false s with Some _ => a | None => CacheHeader h a end)))
    as (_ & -> & _).
Qed.



End Intake.

(** ** The expiry sweep *)

Lemma cleanupBlocks_spec now reqID l a :
  cleanupBlocks now reqID a l =
    match timeouts now reqID l with
    | [] => a
    | out =>
        mkAPI (delete reqID (ProcessingRequests a)) (Cache a)
              (VerifyHeaderResponses a ++ out) (HeadersRequests a) (CleanupCh a) (Log a)
    end.
Proof.
  revert a. induction l as [|[num req] l IH]; intros a; [done|].
  unfold cleanupBlocks in *. cbn [fold_left]. rewrite IH. clear IH.
  unfold timeouts. cbn [map snd]. rewrite filter_cons. cbn [snd].
  destruct (Z.ltb_spec (Deadline req) now) as [Hlt|Hge].
  - rewrite decide_True by done. cbn [map].
    fold (timeoutResponse reqID req).
    destruct (map _ (filter _ (map snd l))) as [|r out]; [destruct a; done|].
    unfold setProcessingRequests, sendVerifyHeaderResponse. cbn.
    rewrite delete_delete_eq. rewrite <- app_assoc. done.
  - rewrite decide_False by lia. done.
Qed.

Lemma cleanup_fold_spec now l a :
  fold_left (λ a kv, cleanupBlocks now kv.1 a (map_to_list kv.2)) l a =
  mkAPI (sweepKeep now l (ProcessingRequests a)) (Cache a)
        (VerifyHeaderResponses a ++ sweepOut now l) (HeadersRequests a) (CleanupCh a) (Log a).
Proof.
  revert a. induction l as [|[rid blocks] l IH]; intros a.
  - cbn. rewrite app_nil_r. by destruct a.
  - cbn [fold_left]. rewrite IH. clear IH. rewrite cleanupBlocks_spec.
    unfold sweepKeep, sweepOut. cbn [fold_left flat_map fst snd].
    destruct (timeouts now rid (map_to_list blocks)) as [|r out] eqn:E; [done|].
    cbn [ProcessingRequests Cache VerifyHeaderResponses HeadersRequests CleanupCh Log].
    by rewrite <- app_assoc.
Qed.

(** The sweep as a whole: only the registry and the responses change. *)
Lemma cleanup_spec now a :
  cleanup now a =
  mkAPI (sweepKeep now (map_to_list (ProcessingRequests a)) (ProcessingRequests a)) (Cache a)
        (VerifyHeaderResponses a ++ sweepOut now (map_to_list (ProcessingRequests a)))
        (HeadersRequests a) (CleanupCh a) (Log a).
Proof. apply cleanup_fold_spec. Qed.

Lemma cleanup_ProcessingRequests now a :
  ProcessingRequests (cleanup now a)
  = sweepKeep now (map_to_list (ProcessingRequests a)) (ProcessingRequests a).
Proof. by rewrite cleanup_spec. Qed.

Lemma cleanup_VerifyHeaderResponses now a :
  VerifyHeaderResponses (cleanup now a)
  = VerifyHeaderResponses a ++ sweepOut now (map_to_list (ProcessingRequests a)).
Proof. by rewrite cleanup_spec. Qed.

Lemma sweepKeep_lookup_expired now l m rid blocks :
  (rid, blocks) ∈ l → timeouts now rid (map_to_list blocks) ≠ [] →
  sweepKeep now l m !! rid = None.
Proof.
  revert m. induction l as [|[k b] l IH]; intros m Hin Hne; [by apply elem_of_nil in Hin|].
  unfold sweepKeep in *. cbn [fold_left fst snd].
  apply elem_of_cons in Hin as [Heq|Hin]; [|by apply IH].
  inversion Heq; subst k b. clear IH Heq.
  destruct (timeouts now rid (map_to_list blocks)) as [|r out]; [done|].
  generalize (delete rid m) (lookup_delete_eq m rid). clear.
  induction l as [|[k b] l IH]; intros m Hm; [done|].
  cbn [fold_left fst snd]. apply IH.
  destruct (timeouts now k (map_to_list b)); [done|].
  destruct (decide (rid = k)) as [->|?]; [apply lookup_delete_eq|by rewrite lookup_delete_ne].
Qed.

Lemma sweepKeep_lookup_kept now l m rid :
  (∀ blocks, (rid, blocks) ∈ l → timeouts now rid (map_to_list blocks) = []) →
  sweepKeep now l m !! rid = m !! rid.
Proof.
  revert m. induction l as [|[k b] l IH]; intros m Hall; [done|].
  unfold sweepKeep in *. cbn [fold_left fst snd].
  rewrite IH by (intros; apply Hall; by right).
  destruct (timeouts now k (map_to_list b)) as [|r out] eqn:E; [done|].
  destruct (decide (rid = k)) as [->|?]; [|by rewrite lookup_delete_ne].
  rewrite (Hall b) in E; [done|by left].
Qed.

Lemma timeouts_respID now rid l r : r ∈ timeouts now rid l → respID r = rid.
Proof. unfold timeouts. intros (req & -> & _)%list_elem_of_fmap. done. Qed.

Lemma filter_all {A} (P : A → Prop) `{∀ x, Decision (P x)} (l : list A) :
  (∀ x, x ∈ l → P x) → filter P l = l.
Proof.
  induction l as [|x l IH]; intros Hall; [done|].
  rewrite filter_cons_True by (apply Hall; by left).
  f_equal. apply IH. intros; apply Hall; by right.
Qed.

Lemma filter_none {A} (P : A → Prop) `{∀ x, Decision (P x)} (l : list A) :
  (∀ x, x ∈ l → ¬ P x) → filter P l = [].
Proof.
  induction l as [|x l IH]; intros Hall; [done|].
  rewrite filter_cons_False by (apply Hall; by left).
  apply IH. intros; apply Hall; by right.
Qed.

Lemma sweepOut_filter_absent now l rid :
  rid ∉ map fst l → filter (λ r, respID r = rid) (sweepOut now l) = [].
Proof.
  intros Hnot. apply filter_none. intros r Hr Hid.
  unfold sweepOut in Hr. apply list_elem_of_In, in_flat_map in Hr as ([k b] & Hin & Hr).
  apply list_elem_of_In, timeouts_respID in Hr. cbn in Hr. rewrite Hid in Hr. subst k.
  apply Hnot. apply list_elem_of_fmap. exists (rid, b). split; [done|by apply list_elem_of_In].
Qed.

Lemma sweepOut_filter now l rid blocks :
  NoDup (map fst l) → (rid, blocks) ∈ l →
  filter (λ r, respID r = rid) (sweepOut now l) = timeouts now rid (map_to_list blocks).
Proof.
  induction l as [|[k b] l IH]; intros Hnd Hin; [by apply elem_of_nil in Hin|].
  cbn [map fst] in Hnd. apply NoDup_cons in Hnd as [Hk Hnd].
  change (sweepOut now ((k, b) :: l)) with (timeouts now k (map_to_list b) ++ sweepOut now l).
  rewrite filter_app.
  apply elem_of_cons in Hin as [Heq|Hin].
  - inversion Heq; subst k b.
    rewrite sweepOut_filter_absent by done. rewrite app_nil_r.
    apply filter_all. intros r Hr. by apply timeouts_respID in Hr.
  - rewrite IH by done.
    rewrite filter_none; [done|]. intros r Hr Hid. apply timeouts_respID in Hr.
    apply Hk. apply list_elem_of_fmap. exists (rid, blocks). split; [cbn; congruence|done].
Qed.

Lemma sweepOut_elem now l rid blocks r :
  (rid, blocks) ∈ l → r ∈ timeouts now rid (map_to_list blocks) → r ∈ sweepOut now l.
Proof.
  intros Hin Hr. unfold sweepOut. apply list_elem_of_In, in_flat_map.
  exists (rid, blocks). split; by apply list_elem_of_In.
Qed.

Lemma timeouts_nonempty now rid blocks num req :
  blocks !! num = Some req → Deadline req < now →
  timeoutResponse rid req ∈ timeouts now rid (map_to_list blocks).
Proof.
  intros Hreq Hlt. unfold timeouts. apply list_elem_of_fmap. exists req. split; [done|].
  apply list_elem_of_filter. split; [done|].
  apply list_elem_of_fmap. exists (num, req). split; [done|]. by apply elem_of_map_to_list.
Qed.

Lemma timeouts_nonempty_expired now rid blocks :
  timeouts now rid (map_to_list blocks) ≠ [] →
  ∃ num req, blocks !! num = Some req ∧ Deadline req < now.
Proof.
  unfold timeouts.
  destruct (filter _ _) as [|req l] eqn:E; [done|]. intros _.
  assert (req ∈ filter (λ req, Deadline req < now) (map snd (map_to_list blocks))) as Hin
    by (rewrite E; by left).
  apply list_elem_of_filter in Hin as [Hlt Hin].
  apply list_elem_of_fmap in Hin as ([num req'] & -> & Hin).
  apply elem_of_map_to_list in Hin. eauto.
Qed.

Lemma cleanup_drops_expired now a reqID num req :
  pendingAt a reqID num = Some req → Deadline req < now →
  ProcessingRequests (cleanup now a) !! reqID = None.
Proof.
  unfold pendingAt. intros Hreq Hlt.
  destruct (ProcessingRequests a !! reqID) as [blocks|] eqn:Hblocks; [|done]. cbn in Hreq.
  rewrite cleanup_ProcessingRequests.
  apply sweepKeep_lookup_expired with blocks; [by apply elem_of_map_to_list|].
  intros E. pose proof (timeouts_nonempty now reqID _ _ _ Hreq Hlt) as Hin.
  rewrite E in Hin. by apply elem_of_nil in Hin.
Qed.

(** What a sweep does to one pending verification: past its deadline it is
    answered with a timeout and dropped; otherwise it stays, unless another
    one of its request id is past its deadline, and then it is dropped. *)
Lemma cleanup_entry now a reqID num req :
  pendingAt a reqID num = Some req →
  (Deadline req < now →
     pendingAt (cleanup now a) reqID num = None ∧
     ∃ out, VerifyHeaderResponses (cleanup now a) = VerifyHeaderResponses a ++ out ∧
            timeoutResponse reqID req ∈ out) ∧
  (¬ Deadline req < now →
     pendingAt (cleanup now a) reqID num = Some req ∨
     (pendingAt (cleanup now a) reqID num = None ∧
      ∃ num' req', pendingAt a reqID num' = Some req' ∧ Deadline req' < now)).
Proof.
  intros Hp. split.
  - intros Hlt. split.
    + unfold pendingAt at 1. by rewrite (cleanup_drops_expired now a reqID num req).
    + unfold pendingAt in Hp.
      destruct (ProcessingRequests a !! reqID) as [blocks|] eqn:Hblocks; [|done]. cbn in Hp.
      rewrite cleanup_VerifyHeaderResponses. eexists. split; [done|].
      eapply sweepOut_elem; [by apply elem_of_map_to_list|].
      by eapply timeouts_nonempty.
  - intros Hge. unfold pendingAt in *.
    destruct (ProcessingRequests a !! reqID) as [blocks|] eqn:Hblocks; [|done]. cbn in Hp.
    rewrite cleanup_ProcessingRequests.
    assert ((reqID, blocks) ∈ map_to_list (ProcessingRequests a)) as Hin
      by (by apply elem_of_map_to_list).
    destruct (timeouts now reqID (map_to_list blocks)) as [|r out] eqn:E.
    + left. rewrite sweepKeep_lookup_kept.
      * rewrite Hblocks. done.
      * intros b Hb. apply elem_of_map_to_list in Hb. rewrite Hblocks in Hb.
        injection Hb as <-. done.
    + right. split.
      * rewrite (sweepKeep_lookup_expired now _ _ reqID blocks); [done|done|]. by rewrite E.
      * destruct (timeouts_nonempty_expired now reqID blocks) as (n' & r' & Hr' & Hlt');
          [by rewrite E|].
        exists n', r'. done.
Qed.

(** ** Folding ancestors *)

Lemma withKnownParents_id req : withKnownParents req (KnownParents req) = req.
Proof. by destruct req. Qed.

(** The second loop of appendAncestors: parents are added at the end, all
    of them from the candidates in the window; the index afterwards holds
    sets it held before or the singleton of the block in hand; and, when
    the index credited the block with known parents only, every candidate
    in the window ends up known by its hash. *)
Lemma foldAncestor_loop b (ancestors : list Header) :
  ∀ req m req' m',
    fold_left (foldAncestor b) ancestors (req, m) = (req', m') →
    ∃ added,
      req' = withKnownParents req (KnownParents req ++ added) ∧
      (∀ p, p ∈ added → p ∈ ancestors ∧ inWindow req p) ∧
      (∀ hash S, m' !! hash = Some S → S = {[b]} ∨ m !! hash = Some S) ∧
      (credited b m (KnownParents req) →
       ∀ p, p ∈ ancestors → inWindow req p → HeaderHash p ∈ HeaderHash <$> KnownParents req').
Proof.
  induction ancestors as [|p ancestors IH]; intros req m req' m' Hfold.
  - cbn in Hfold. injection Hfold as <- <-. exists []. rewrite app_nil_r, withKnownParents_id.
    split; [done|]. split; [by intros ? ?%elem_of_nil|]. split; [by right|].
    by intros _ ? ?%elem_of_nil.
  - cbn [fold_left] in Hfold.
    destruct (foldAncestor b (req, m) p) as [req1 m1] eqn:Hstep.
    apply IH in Hfold as (added & -> & Hadded & Hsets & Hcover). clear IH.
    assert ((req1 = req ∧ m1 = m ∧
             (inWindow req p → credited b m (KnownParents req) →
                HeaderHash p ∈ HeaderHash <$> KnownParents req)) ∨
            (req1 = withKnownParents req (KnownParents req ++ [p]) ∧ inWindow req p ∧
             m1 = <[HeaderHash p := {[b]}]> m)) as Hcase.
    { unfold foldAncestor in Hstep.
      destruct (Z.leb_spec (From req) (NumberUint64 p)) as [Hlo|Hlo]; cbn [andb] in Hstep.
      - destruct (Z.leb_spec (NumberUint64 p) (To req)) as [Hhi|Hhi].
        + destruct (m !! HeaderHash p) as [S|] eqn:Hm.
          * case_decide as Hb.
            -- injection Hstep as <- <-. left. split; [done|]. split; [done|].
               intros _ Hcred. by eapply Hcred.
            -- injection Hstep as <- <-. right. unfold inWindow. done.
          * injection Hstep as <- <-. right. unfold inWindow. done.
        + injection Hstep as <- <-. left. split; [done|]. split; [done|].
          unfold inWindow. lia.
      - injection Hstep as <- <-. left. split; [done|]. split; [done|].
        unfold inWindow. lia. }
    destruct Hcase as [(-> & -> & Hp)|(-> & Hwin & ->)].
    + exists added. split; [done|]. split.
      { intros q Hq. destruct (Hadded q Hq). split; [by right|done]. }
      split; [done|].
      intros Hcred q Hq Hqwin. apply elem_of_cons in Hq as [->|Hq]; [|by apply Hcover].
      cbn. rewrite fmap_app. apply elem_of_app. left. by apply Hp.
    + exists (p :: added). cbn in *. rewrite <- app_assoc in *. cbn in *.
      split; [done|]. split.
      { intros q [->|Hq]%elem_of_cons; [split; [by left|done]|].
        destruct (Hadded q Hq). split; [by right|done]. }
      split.
      { intros hash S HS. destruct (Hsets hash S HS) as [->|Hm1]; [by left|].
        destruct (decide (HeaderHash p = hash)) as [<-|Hne].
        - rewrite lookup_insert_eq in Hm1. injection Hm1 as <-. by left.
        - rewrite lookup_insert_ne in Hm1 by done. by right. }
      intros Hcred q Hq Hqwin. apply elem_of_cons in Hq as [->|Hq].
      * rewrite fmap_app. apply elem_of_app. right. cbn. by left.
      * apply Hcover; [|done|done].
        intros hash S HS Hb. rewrite fmap_app.
        destruct (decide (HeaderHash p = hash)) as [<-|Hne].
        -- apply elem_of_app. right. cbn. by left.
        -- rewrite lookup_insert_ne in HS by done. apply elem_of_app. left. by eapply Hcred.
Qed.

(** The first loop of appendAncestors. *)
Lemma seed_spec b (known : list Header) :
  ∀ m0 : gmap Z (gset Z),
    let m := fold_left (λ m p, <[HeaderHash p := {[b]}]> m) known m0 in
    ∀ hash S, m !! hash = Some S →
      (S = {[b]} ∧ hash ∈ HeaderHash <$> known) ∨ m0 !! hash = Some S.
Proof.
  induction known as [|p known IH]; intros m0 m hash S HS; [by right|].
  subst m. cbn [fold_left] in HS. apply IH in HS as [[-> Hin]|HS].
  - left. split; [done|]. cbn. by right.
  - destruct (decide (HeaderHash p = hash)) as [<-|Hne].
    + rewrite lookup_insert_eq in HS. injection HS as <-. left. split; [done|]. cbn. by left.
    + rewrite lookup_insert_ne in HS by done. by right.
Qed.

Lemma appendAncestors_spec req pool kbr req' kbr' :
  appendAncestors req pool kbr = (req', kbr') →
  (∀ m, kbr !! ID req = Some m → credited (NumberUint64 (ReqHeader req)) m (KnownParents req)) →
  foldedFrom req req' pool pool ∧
  ∃ m', kbr' = <[ID req := m']> kbr ∧
    ∀ hash S, m' !! hash = Some S →
      S = {[NumberUint64 (ReqHeader req)]} ∨ ∃ m, kbr !! ID req = Some m ∧ m !! hash = Some S.
Proof.
  unfold appendAncestors. intros Happ Hcred.
  set (b := NumberUint64 (ReqHeader req)) in *.
  set (m0 := match kbr !! ID req with Some m => m | None => _ end) in Happ.
  destruct (fold_left (foldAncestor b) pool (req, m0)) as [req1 m1] eqn:Hfold.
  injection Happ as <- <-.
  apply foldAncestor_loop in Hfold as (added & -> & Hadded & Hsets & Hcover).
  assert (credited b m0 (KnownParents req)) as Hcred0.
  { subst m0. destruct (kbr !! ID req) as [m|] eqn:Hk; [by apply Hcred|].
    intros hash S HS _. apply seed_spec in HS as [[_ Hin]|HS]; [done|].
    by rewrite lookup_empty in HS. }
  split.
  - exists added. split; [done|]. split; [done|]. by apply Hcover.
  - exists m1. split; [done|]. intros hash S HS.
    destruct (Hsets hash S HS) as [->|Hm0]; [by left|].
    subst m0. destruct (kbr !! ID req) as [m|] eqn:Hk; [right; eauto|].
    apply seed_spec in Hm0 as [[-> _]|Hm0]; [by left|]. by rewrite lookup_empty in Hm0.
Qed.

Lemma appendAncestors_known req pool kbr :
  ∃ added, (appendAncestors req pool kbr).1
           = withKnownParents req (KnownParents req ++ added).
Proof.
  unfold appendAncestors.
  destruct (fold_left _ pool _) as [req1 m1] eqn:Hfold.
  apply foldAncestor_loop in Hfold as (added & -> & _). by exists added.
Qed.

Lemma foldedFrom_weaken req req' pool1 pool1' pool2 pool2' :
  foldedFrom req req' pool1 pool1' →
  (∀ p, p ∈ pool2 → p ∈ pool1) → (∀ p, p ∈ pool1' → p ∈ pool2') →
  foldedFrom req req' pool2 pool2'.
Proof.
  intros (added & Hreq & Hadded & Hcover) H1 H2. exists added. split; [done|]. split.
  - intros p Hp. destruct (Hadded p Hp). split; [by apply H2|done].
  - intros p Hp. apply Hcover. by apply H1.
Qed.

(** ** The pass over the pending verifications of a request id *)

Lemma Forall2_impl_elem {A B} (P Q : A → B → Prop) l k :
  Forall2 P l k → (∀ x y, x ∈ l → P x y → Q x y) → Forall2 Q l k.
Proof.
  induction 1 as [|x y l k HP _ IH]; intros HPQ; constructor.
  - apply HPQ; [by left|done].
  - apply IH. intros x' y' Hin. apply HPQ. by right.
Qed.



Lemma cacheHeaders_fields headers a :
  ProcessingRequests (cacheHeaders headers a) = ProcessingRequests a ∧
  VerifyHeaderResponses (cacheHeaders headers a) = VerifyHeaderResponses a ∧
  (∀ key, is_Some (Cache a !! key) → is_Some (Cache (cacheHeaders headers a) !! key)) ∧
  (∀ h, h ∈ headers →
     is_Some (Cache (cacheHeaders headers a) !! (HeaderHash h, NumberUint64 h))).
Proof.
  revert a. induction headers as [|h headers IH]; intros a.
  - cbn. repeat split; try done. by intros ? ?%elem_of_nil.
  - unfold cacheHeaders in *. cbn [fold_left].
    destruct (IH (CacheHeader h a)) as (Hreg & Hresp & Hmono & Hin).
    split; [by rewrite Hreg|]. split; [by rewrite Hresp|].
    assert (∀ key, is_Some (Cache a !! key) → is_Some (Cache (CacheHeader h a) !! key)) as Hstep.
    { intros key Hkey. cbn. rewrite lookup_insert. by case_decide. }
    split; [intros key Hkey; by apply Hmono, Hstep|].
    intros h' [->|Hh']%elem_of_cons; [|by apply Hin].
    apply Hmono. cbn. rewrite lookup_insert_eq. done.
Qed.

(** *** The cleanup loop at work *)











Section Pass.

Variable Verify : Header → list Header → bool → bool → option error.
Variable cleanupChCap : nat.

(** The loop of the pass, over block numbers that are distinct, all
    pending under [reqID], each under its own number and request id: it
    runs through; [visited] lists each request as it was found and as it
    was folded, in the order of [nums]; the responses sent are the attempts
    on the folded requests, in that order. *)
Lemma passLoop_spec reqID :
  ∀ nums a pool kbr,
    NoDup nums →
    (∀ n, n ∈ nums →
       ∃ req, pendingAt a reqID n = Some req ∧ ID req = reqID
              ∧ NumberUint64 (ReqHeader req) = n) →
    (∀ m hash S x, kbr !! reqID = Some m → m !! hash = Some S → x ∈ S → x ∉ nums) →
    ∃ a' pool' visited,
      passLoop Verify cleanupChCap reqID nums a pool kbr = Some (a', pool') ∧
      Forall2 (λ n v, pendingAt a reqID n = Some v.1) nums visited ∧
      Forall (λ v, foldedFrom v.1 v.2 pool pool') visited ∧
      VerifyHeaderResponses a' =
        VerifyHeaderResponses a ++ flat_map (attemptResponse Verify) (snd <$> visited) ∧
      (∃ more, pool' = pool ++ more) ∧
      (∀ key, is_Some (Cache a !! key) → is_Some (Cache a' !! key)).
Proof.
  induction nums as [|num nums IH]; intros a pool kbr Hnd Hpend Hkbr.
  { exists a, pool, []. cbn. rewrite app_nil_r.
    split; [done|]. split; [constructor|]. split; [constructor|]. split; [done|].
    split; [|done]. exists []. by rewrite app_nil_r. }
  apply NoDup_cons in Hnd as [Hnum Hnd].
  destruct (Hpend num) as (req & Hreq & Hid & Hnumber); [by left|].
  cbn [passLoop]. unfold pendingAt in Hreq.
  destruct (ProcessingRequests a !! reqID) as [blocks|] eqn:Hblocks; [|done].
  cbn in Hreq. cbn [mbind option_bind]. rewrite Hreq. cbn [mbind option_bind].
  destruct (appendAncestors req pool kbr) as [req1 kbr1] eqn:Happ.
  apply appendAncestors_spec in Happ as [Hfolded (m' & -> & Hm')].
  2:{ intros m Hm hash S HS Hb. exfalso. rewrite Hid in Hm.
      eapply (Hkbr m hash S); [done|done|done|]. rewrite Hnumber. by left. }
  pose proof Hfolded as (added & Hreq1 & _).
  assert (ID req1 = reqID ∧ ReqHeader req1 = ReqHeader req) as [Hid1 Hhdr1] by (by subst req1).
  set (a1 := storeRequest reqID num req1 a).
  destruct (verifyByRequest Verify cleanupChCap a1 (ID req1) (ReqHeader req1) (ReqSeal req1)
              (ParentsExpected req1) (KnownParents req1)) as [a2 err] eqn:Hv.
  pose proof (verifyByRequest_cache _ _ _ _ _ _ _ _ _ _ Hv) as Hcache.
  destruct (storeRequest_fields reqID num req1 a) as [Hresp1 Hcache1].
  fold a1 in Hresp1, Hcache1. rewrite Hcache1 in Hcache.
  assert (∀ n, n ∈ nums → pendingAt a2 reqID n = pendingAt a reqID n) as Hkeep.
  { intros n Hn. assert (n ≠ num) as Hne by (intros ->; done).
    transitivity (pendingAt a1 reqID n); [|by apply pendingAt_storeRequest_ne].
    apply verifyByRequest_attempt in Hv as [(_ & -> & _)|(_ & _ & _ & Hk & _)]; [done|].
    rewrite Hid1 in Hk. apply Hk. rewrite Hhdr1, Hnumber. done. }
  set (pool2 := match err with None => pool ++ [ReqHeader req1] | Some _ => pool end).
  assert (VerifyHeaderResponses a2 = VerifyHeaderResponses a ++ attemptResponse Verify req1 ∧
          ∃ more, pool2 = pool ++ more) as [Hresp2 [more2 Hpool2]].
  { unfold attemptResponse, pool2.
    apply verifyByRequest_attempt in Hv as [(-> & -> & Hlen)|(-> & Hlen & Hr & _)].
    - apply Z.eqb_neq in Hlen. rewrite Hlen, app_nil_r. split; [done|].
      exists []. by rewrite app_nil_r.
    - apply Z.eqb_eq in Hlen. rewrite Hlen, Hr, Hresp1. split; [done|]. eauto. }
  destruct (IH a2 pool2 (<[ID req := m']> kbr))
    as (a' & pool' & visited & Hrun & Hvis & Hfold & Hresp & [more Hpool] & Hc).
  { done. }
  { intros n Hn. rewrite Hkeep by done. apply Hpend. by right. }
  { intros m hash S x Hm HS Hx Hin. rewrite Hid, lookup_insert_eq in Hm. injection Hm as <-.
    destruct (Hm' hash S HS) as [->|(m & Hm & HmS)].
    - apply elem_of_singleton in Hx. subst x. rewrite Hnumber in Hin. done.
    - rewrite Hid in Hm. eapply (Hkbr m hash S x); [done..|]. by right. }
  exists a', pool', ((req, req1) :: visited).
  split; [exact Hrun|]. split.
  { constructor; [unfold pendingAt; by rewrite Hblocks|].
    eapply Forall2_impl_elem; [exact Hvis|]. intros n v Hn Hv'. cbn in Hv'.
    by rewrite <- Hkeep. }
  split.
  { constructor.
    - cbn. eapply foldedFrom_weaken; [exact Hfolded|done|].
      intros p Hp. rewrite Hpool, Hpool2. rewrite <- app_assoc. apply elem_of_app. by left.
    - eapply Forall_impl; [exact Hfold|]. intros v Hv'. cbn in Hv'.
      eapply foldedFrom_weaken; [exact Hv'| |done].
      intros p Hp. rewrite Hpool2. apply elem_of_app. by left. }
  split.
  { rewrite Hresp, Hresp2. cbn. by rewrite <- app_assoc. }
  split.
  { exists (more2 ++ more). rewrite Hpool, Hpool2. by rewrite <- app_assoc. }
  intros key Hkey. apply Hc, Hcache, Hkey.
Qed.

(** *** The pass while the cleanup loop is at work *)


(** With the cleanup loop idle the pass is passLoop. *)
Lemma passLoopAmid_idle reqID :
  ∀ nums a pool kbr,
    passLoopAmid Verify cleanupChCap [] reqID nums a pool kbr
    = passLoop Verify cleanupChCap reqID nums a pool kbr.
Proof.
  induction nums as [|num nums IH]; intros a pool kbr; [done|].
  cbn. destruct (ProcessingRequests a !! reqID) as [blocks|]; [|done]. cbn.
  destruct (blocks !! num) as [req|]; [|done]. cbn.
  destruct (appendAncestors req pool kbr) as [req1 kbr1].
  destruct (verifyByRequest _ _ _ _ _ _ _ _) as [a2 err]. apply IH.
Qed.


Lemma VerifyRequestsCommonAncestorAmid_idle a reqID headers :
  VerifyRequestsCommonAncestorAmid Verify cleanupChCap [] a reqID headers
  = VerifyRequestsCommonAncestorPool Verify cleanupChCap a reqID headers.
Proof.
  unfold VerifyRequestsCommonAncestorAmid, VerifyRequestsCommonAncestorPool.
  destruct headers; [done|]. destruct (_ !! _); [|done]. apply passLoopAmid_idle.
Qed.

End Pass.

(** ** An invariant of the registry *)

Lemma wfRegistry_sub a' a : subRegistry a' a → wfRegistry a → wfRegistry a'.
Proof. intros Hsub Hwf reqID num req Hreq. by apply Hwf, Hsub. Qed.

Lemma subRegistry_refl a : subRegistry a a.
Proof. by intros ???. Qed.

Lemma subRegistry_trans a b c : subRegistry a b → subRegistry b c → subRegistry a c.
Proof. intros H1 H2 ??? H. by apply H2, H1. Qed.

Lemma subRegistry_same a' a :
  ProcessingRequests a' = ProcessingRequests a → subRegistry a' a.
Proof. intros Heq ???. unfold pendingAt. by rewrite Heq. Qed.

Lemma subRegistry_delete a reqID :
  subRegistry (setProcessingRequests (delete reqID (ProcessingRequests a)) a) a.
Proof.
  intros rid num req. unfold pendingAt. cbn.
  destruct (decide (reqID = rid)) as [->|Hne].
  - by rewrite lookup_delete_eq.
  - by rewrite lookup_delete_ne.
Qed.

Lemma subRegistry_cleanupRequest reqID num a : subRegistry (cleanupRequest reqID num a) a.
Proof.
  unfold cleanupRequest.
  destruct (ProcessingRequests a !! reqID) as [blocks|] eqn:Hb; [|apply subRegistry_refl].
  case_decide; [apply subRegistry_delete|].
  intros rid n req. unfold pendingAt. cbn.
  destruct (decide (reqID = rid)) as [<-|Hne].
  - rewrite lookup_insert_eq, Hb. cbn.
    destruct (decide (num = n)) as [->|?]; [by rewrite lookup_delete_eq|].
    by rewrite lookup_delete_ne.
  - by rewrite lookup_insert_ne.
Qed.

Lemma wfRegistry_addVerifyHeaderRequest reqID h s deadline known k a :
  wfRegistry a → wfRegistry (addVerifyHeaderRequest reqID h s deadline known k a).
Proof.
  intros Hwf rid num req. unfold pendingAt, addVerifyHeaderRequest. cbn.
  destruct (decide (reqID = rid)) as [<-|Hne].
  - rewrite lookup_insert_eq. cbn.
    destruct (decide (NumberUint64 h = num)) as [<-|Hn].
    + rewrite lookup_insert_eq. by intros [= <-].
    + rewrite lookup_insert_ne by done. intros Hreq. apply Hwf. unfold pendingAt.
      destruct (ProcessingRequests a !! reqID); [done|]. cbn in Hreq. by rewrite lookup_empty in Hreq.
  - rewrite lookup_insert_ne by done. apply Hwf.
Qed.

Lemma wfRegistry_storeRequest reqID num req req' a :
  pendingAt a reqID num = Some req → ID req' = ID req → ReqHeader req' = ReqHeader req →
  wfRegistry a → wfRegistry (storeRequest reqID num req' a).
Proof.
  intros Hreq Hid Hhdr Hwf rid n r. unfold pendingAt, storeRequest in *.
  destruct (ProcessingRequests a !! reqID) as [blocks|] eqn:Hb; [|done]. cbn in *.
  destruct (decide (reqID = rid)) as [<-|Hne].
  - rewrite lookup_insert_eq. cbn.
    destruct (decide (num = n)) as [<-|Hn].
    + rewrite lookup_insert_eq. intros [= <-]. rewrite Hid, Hhdr.
      apply (Hwf reqID num req). unfold pendingAt. by rewrite Hb.
    + rewrite lookup_insert_ne by done. intros Hr. apply (Hwf reqID n r).
      unfold pendingAt. by rewrite Hb.
  - rewrite lookup_insert_ne by done. apply Hwf.
Qed.

Lemma subRegistry_cleanup now a : subRegistry (cleanup now a) a.
Proof.
  intros rid num req. unfold pendingAt. rewrite cleanup_ProcessingRequests.
  generalize (map_to_list (ProcessingRequests a)). intros l.
  generalize (ProcessingRequests a). induction l as [|[k b] l IH]; intros m; [done|].
  unfold sweepKeep in *. cbn [fold_left fst snd]. intros H. apply IH in H.
  destruct (timeouts now k (map_to_list b)); [done|].
  destruct (decide (k = rid)) as [->|?].
  - by rewrite lookup_delete_eq in H.
  - by rewrite lookup_delete_ne in H.
Qed.

Section Invariant.

Context `{Memory}.

Variable NeededForVerification : Header → Z.
Variable Verify : Header → list Header → bool → bool → option error.
Variable cleanupChCap : nat.

Lemma subRegistry_verifyByRequest a reqID h s k known :
  subRegistry (verifyByRequest Verify cleanupChCap a reqID h s k known).1 a.
Proof.
  unfold verifyByRequest. destruct (negb _); [apply subRegistry_refl|].
  cbn [fst]. destruct (Nat.ltb _ _).
  - apply subRegistry_same. cbn. by destruct Verify.
  - eapply subRegistry_trans; [apply subRegistry_cleanupRequest|].
    apply subRegistry_same. cbn. by destruct Verify.
Qed.

Lemma wfRegistry_batchLoop reqID deadline reqHeaders items :
  ∀ a reqs a' ended,
    batchLoop NeededForVerification Verify cleanupChCap reqID deadline reqHeaders items a reqs
      = Some (a', ended) →
    wfRegistry a → wfRegistry a'.
Proof.
  induction items as [|item items IH]; intros a reqs a' ended; cbn [batchLoop].
  - by intros [= <- <-].
  - destruct (header item) as [h|]; [|by intros [= <- <-]].
    destruct (GetCachedHeader a (HeaderHash h) (NumberUint64 h)).
    + intros Hrun Hwf. by eapply IH.
    + destruct (requestParentHeaders _ _ _ _ _) as [[[known k] r]|]; [|done].
      cbn [mbind option_bind].
      pose proof (subRegistry_verifyByRequest a reqID h (seal item) k known) as Hsub.
      destruct (verifyByRequest _ _ _ _ _ _ _ _) as [a1 err]. cbn [fst] in Hsub.
      intros Hrun Hwf. eapply IH; [exact Hrun|].
      pose proof (wfRegistry_sub _ _ Hsub Hwf) as Hwf1.
      destruct err as [[]|]; try done. by apply wfRegistry_addVerifyHeaderRequest.
Qed.

Lemma wfRegistry_passLoop reqID nums :
  ∀ a pool kbr a' pool',
    passLoop Verify cleanupChCap reqID nums a pool kbr = Some (a', pool') →
    wfRegistry a → wfRegistry a'.
Proof.
  induction nums as [|num nums IH]; intros a pool kbr a' pool'; cbn [passLoop].
  - by intros [= <- <-].
  - destruct (ProcessingRequests a !! reqID) as [blocks|] eqn:Hb; [|done].
    cbn [mbind option_bind].
    destruct (blocks !! num) as [req|] eqn:Hreq; [|done]. cbn [mbind option_bind].
    destruct (appendAncestors_known req pool kbr) as [added Hreq1].
    destruct (appendAncestors req pool kbr) as [req1 kbr1]. cbn [fst] in Hreq1.
    pose proof (subRegistry_verifyByRequest (storeRequest reqID num req1 a) (ID req1)
                  (ReqHeader req1) (ReqSeal req1) (ParentsExpected req1) (KnownParents req1))
      as Hsub.
    destruct (verifyByRequest _ _ _ _ _ _ _ _) as [a2 err]. cbn [fst] in Hsub.
    intros Hrun Hwf. eapply IH; [exact Hrun|].
    eapply wfRegistry_sub; [exact Hsub|].
    eapply (wfRegistry_storeRequest reqID num req); [|by subst req1|by subst req1|done].
    unfold pendingAt. by rewrite Hb.
Qed.

(** Every step of the two loops keeps each pending verification under its
    own request id and block number. *)
Lemma wfRegistry_step a e a' :
  step NeededForVerification Verify cleanupChCap a e = Some a' → wfRegistry a → wfRegistry a'.
Proof.
  destruct e as [now req|parentResp|now|]; cbn [step].
  - unfold onVerifyHeaderRequest. destruct (vhrHeaders req) as [|o rest].
    { intros [= <-]. by apply wfRegistry_sub, subRegistry_same. }
    destruct (pairHeaders _ _) as [l0|]; [|done]. cbn [mbind option_bind].
    destruct (sortSlice l0) as [l1|]; [|done]. cbn [mbind option_bind].
    destruct (batchLoop _ _ _ _ _ _ _ _ _) as [[a1 ended]|] eqn:Hloop; [|done].
    cbn [mbind option_bind]. intros Hrun Hwf.
    pose proof (wfRegistry_batchLoop _ _ _ _ _ _ _ _ Hloop Hwf) as Hwf1.
    destruct ended as [reqs|]; [|by injection Hrun as <-].
    destruct (mjoin (head (map header l1))) as [first|]; [|done]. cbn [mbind option_bind] in Hrun.
    destruct (sumHeadersRequestsInRange _ _ _) as [r [err|]]; injection Hrun as <-;
      by eapply wfRegistry_sub; [apply subRegistry_same|].
  - unfold onHeaderResponse. destruct (hresErr parentResp).
    + intros [= <-]. apply wfRegistry_sub.
      eapply subRegistry_trans;
        [apply (subRegistry_delete (sendVerifyHeaderResponse _ a))|].
      by apply subRegistry_same.
    + unfold VerifyRequestsCommonAncestor, VerifyRequestsCommonAncestorPool.
      destruct (hresHeaders parentResp) as [|h0 hs]; [by intros [= <-]|].
      destruct (ProcessingRequests a !! hresID parentResp); [|by intros [= <-]].
      destruct (passLoop _ _ _ _ _ _ _) as [[a1 pool1]|] eqn:Hloop; [|done].
      intros [= <-] Hwf. eapply wfRegistry_passLoop; [exact Hloop|].
      eapply wfRegistry_sub; [|exact Hwf]. apply subRegistry_same.
      by destruct (cacheHeaders_fields (h0 :: hs) a) as [-> _].
  - intros [= <-]. apply wfRegistry_sub, subRegistry_cleanup.
  - intros [= <-]. apply wfRegistry_sub. unfold onCleanupCh.
    destruct (CleanupCh a); [apply subRegistry_refl|].
    eapply subRegistry_trans; [apply subRegistry_cleanupRequest|]. by apply subRegistry_same.
Qed.

Lemma wfRegistry_run events :
  ∀ a a', run NeededForVerification Verify cleanupChCap a events = Some a' →
          wfRegistry a → wfRegistry a'.
Proof.
  induction events as [|e events IH]; intros a a'; cbn [run].
  - by intros [= <-].
  - destruct (step _ _ _ a e) as [a1|] eqn:Hstep; [|done]. cbn [mbind option_bind].
    intros Hrun Hwf. eapply IH; [exact Hrun|]. by eapply wfRegistry_step.
Qed.

End Invariant.

Lemma wfRegistry_empty : wfRegistry emptyAPI.
Proof. intros reqID num req. unfold pendingAt. cbn. by rewrite lookup_empty. Qed.

Lemma wfRegistry_blocks a reqID reqHeaders :
  wfRegistry a → ProcessingRequests a !! reqID = Some reqHeaders →
  map_Forall (λ num req, ID req = reqID ∧ NumberUint64 (ReqHeader req) = num) reqHeaders.
Proof.
  intros Hwf Hreg num req Hreq. apply Hwf. unfold pendingAt. by rewrite Hreg.
Qed.

(** A registry checked entry by entry is a registry in order. *)
Lemma wfRegistry_keyed a : keyedRegistry a → wfRegistry a.
Proof.
  intros Hkey reqID num req. unfold pendingAt.
  destruct (ProcessingRequests a !! reqID) as [blocks|] eqn:Hreg; [|done]. cbn.
  intros Hnum. exact (Hkey reqID blocks Hreg num req Hnum).
Qed.

(** * The claims *)

Section Claims.

Context `{Memory}.

Variable NeededForVerification : Header → Z.
Variable Verify : Header → list Header → bool → bool → option error.
Variable cleanupChCap : nat.


Lemma pairHeaders_Some headers seals l :
  pairHeaders headers seals = Some l → map header l = headers.
Proof.
  revert seals l. induction headers as [|h hs IH]; intros seals l; cbn.
  - by intros [= <-].
  - destruct seals as [|s ss]; [done|].
    destruct (pairHeaders hs ss) as [rest|] eqn:E; cbn; [|done].
    intros [= <-]. cbn. f_equal. by eapply IH.
Qed.

(** C2, where the code departs from it.  A batch of two slots or more, one
    of them nil, does not get its error response: sorting the slots reads
    the Number of the nil header and the process panics. *)
Theorem nil_header_among_several_panics now a req :
  (2 ≤ length (vhrHeaders req))%nat → None ∈ vhrHeaders req →
  onVerifyHeaderRequest NeededForVerification Verify cleanupChCap now a req = None.
Proof.
  intros Hlen Hnil. unfold onVerifyHeaderRequest.
  destruct (vhrHeaders req) as [|o rest] eqn:Ev; [cbn in Hlen; lia|].
  destruct (pairHeaders (o :: rest) (vhrSeal req)) as [l|] eqn:Hpair; [|done].
  cbn [mbind option_bind]. apply pairHeaders_Some in Hpair.
  rewrite sortSlice_nil_panics; [done| |].
  - rewrite <- (length_map header), Hpair. done.
  - rewrite <- Hpair in Hnil. apply list_elem_of_fmap in Hnil as (x & Hx & Hin). eauto.
Qed.

(** C3, amended.  A header numbered [n] strictly above the first and not
    above the last header of the batch, for which the rule engine wants
    [k > 0] ancestors, with [from + k] below 2^64: it asks for nothing
    outside the batch when [n - k >= from], the request then starting from
    the header itself; otherwise it asks for [from - (n - k)] ancestors,
    starting from block [from - 1] (as uint64) with the parent hash of the
    first header of the batch.  That is what lines 311-332 hand to
    requestHeadersNotFromRange; and it is what the request made for the
    header carries when the cache misses at that origin and neither [n]
    nor [k] is above the capacity [maxCap] the machine grants the slice
    of line 353. *)
Theorem in_batch_fetch_count_and_origin a reqID (l : list Header) (h first lst : Header) :
  let n := NumberUint64 h in
  let from := NumberUint64 first in
  let to := NumberUint64 lst in
  let k := NeededForVerification h in
  head l = Some first → last l = Some lst →
  0 < k < 2 ^ 63 → from + k < 2 ^ 64 → from < n → n ≤ to →
  let '(toFetch, origin, originHash) :=
    if from <=? n - k then (0, n, ParentHash h)
    else (from - (n - k), wrap64 (from - 1), ParentHash first) in
  fetchOrigin k h first lst = (toFetch, origin, originHash) ∧
  (n ≤ maxCap → k ≤ maxCap → GetCachedHeader a originHash origin = None →
   ∃ known,
     requestParentHeaders NeededForVerification a reqID h (Some <$> l)
     = Some (known, k, Some (mkHeadersRequest reqID originHash origin toFetch))).
Proof.
  intros n from to k Hfirst Hlast Hk Hov Hlo Hhi.
  pose proof (fetchOrigin_closed_form k h first lst Hk Hov Hlo Hhi) as Hfo.
  cbv zeta in Hfo. fold n from in Hfo.
  destruct (from <=? n - k); (split; [exact Hfo|]); intros Hn Hcap Hmiss;
    eapply (requestParentHeaders_asks NeededForVerification a reqID h l first lst);
    try done; fold k; lia.
Qed.

(** C6, amended.  A pending verification the sweep meets past its deadline
    is answered with a timeout, and nothing stays registered under its
    request id.  What the fetcher then delivers under that request id finds
    no request: delivered headers change nothing at all; a failed fetch
    still sends its one response, with the hash and the error the fetcher
    reported. *)
Theorem timed_out_entry_stays_resolved now a reqID num req parentResp :
  pendingAt a reqID num = Some req → Deadline req < now → hresID parentResp = reqID →
  (∃ out, VerifyHeaderResponses (cleanup now a) = VerifyHeaderResponses a ++ out ∧
          timeoutResponse reqID req ∈ out) ∧
  ProcessingRequests (cleanup now a) !! reqID = None ∧
  ∃ a2, onHeaderResponse Verify cleanupChCap (cleanup now a) parentResp = Some a2 ∧
    ProcessingRequests a2 !! reqID = None ∧
    match hresErr parentResp with
    | None => a2 = cleanup now a
    | Some err =>
        VerifyHeaderResponses a2 =
          VerifyHeaderResponses (cleanup now a)
            ++ [mkVerifyHeaderResponse reqID (hresHash parentResp) (Some err)]
    end.
Proof.
  intros Hreq Hlt Hid.
  destruct (cleanup_entry now a reqID num req Hreq) as [Hexp _].
  destruct (Hexp Hlt) as [_ Hout]. clear Hexp.
  pose proof (cleanup_drops_expired now a reqID num req Hreq Hlt) as Hgone.
  split; [done|]. split; [done|].
  unfold onHeaderResponse. rewrite Hid. destruct (hresErr parentResp) as [err|].
  - eexists. split; [done|]. cbn. split; [apply lookup_delete_eq|done].
  - unfold VerifyRequestsCommonAncestor, VerifyRequestsCommonAncestorPool.
    destruct (hresHeaders parentResp); [by exists (cleanup now a)|].
    rewrite Hgone. by exists (cleanup now a).
Qed.



End Claims.

(** C10.  When the sweep finds, under a request id, a pending verification
    past its deadline, nothing stays registered under that request id, and
    the responses the sweep sends under it are the timeouts of the pending
    verifications past their own deadline, one each: the others are dropped
    without a response. *)
Theorem cleanup_times_out_only_expired now a reqID reqBlocks :
  ProcessingRequests a !! reqID = Some reqBlocks →
  (∃ num req, reqBlocks !! num = Some req ∧ Deadline req < now) →
  ProcessingRequests (cleanup now a) !! reqID = None ∧
  ∃ out,
    VerifyHeaderResponses (cleanup now a) = VerifyHeaderResponses a ++ out ∧
    filter (λ r, respID r = reqID) out =
      map (timeoutResponse reqID)
          (filter (λ req, Deadline req < now) (map snd (map_to_list reqBlocks))).
Proof.
  intros Hreg (num & req & Hreq & Hlt). rewrite cleanup_spec. cbn. split.
  - apply sweepKeep_lookup_expired with reqBlocks; [by apply elem_of_map_to_list|].
    intros E. pose proof (timeouts_nonempty now reqID _ _ _ Hreq Hlt) as Hin.
    rewrite E in Hin. by apply elem_of_nil in Hin.
  - eexists. split; [done|]. apply sweepOut_filter.
    +apply NoDup_fst_map_to_list.
    + by apply elem_of_map_to_list.
Qed.

(** * The claims on the scenarios *)

Import Scenario.

Section ClaimsOnScenarios.

#[local] Existing Instance smallMachine.



Lemma nil_header_among_several_panics_witness :
  onVerifyHeaderRequest needOne acceptAll 0 0 emptyAPI nilBatch = None.
Proof.
  apply (nil_header_among_several_panics needOne acceptAll 0 0 emptyAPI nilBatch).
  - cbn. lia.
  - cbn. left.
Defined.

(** A batch of one slot, nil, gets the one error response the nil check
    sends, and no fetch request. *)
Lemma lone_nil_header_answered :
  onVerifyHeaderRequest needOne acceptAll 0 0 emptyAPI
    (mkVerifyHeaderRequest 1 [None] [true] None)
  = Some (mkAPI ∅ ∅ [mkVerifyHeaderResponse 1 0 (Some errEmptyHeader)] [] [] []).
Proof. vm_compute. reflexivity. Qed.

Lemma in_batch_fetch_count_and_origin_witness :
  fetchOrigin 2 (hdr 11) (hdr 10) (hdr 12) = (1, 9, ParentHash (hdr 10)) ∧
  ∃ known,
    requestParentHeaders (λ _, 2) emptyAPI 1 (hdr 11) (Some <$> [hdr 10; hdr 11; hdr 12])
    = Some (known, 2, Some (mkHeadersRequest 1 (ParentHash (hdr 10)) 9 1)).
Proof.
  destruct (in_batch_fetch_count_and_origin (λ _, 2) emptyAPI 1 [hdr 10; hdr 11; hdr 12]
              (hdr 11) (hdr 10) (hdr 12)) as [Hplan Hreq];
    try (vm_compute; done).
  split; [exact Hplan|]. apply Hreq; by vm_compute.
Defined.

(** C3 as stated fails where [from + k] passes 2^64.  With the batch
    spanning blocks 2^64 - 2 and 2^64 - 1 and five ancestors wanted for
    the second header, [n - k] is below [from] and the claim gives a fetch
    of four ancestors from block [from - 1]; line 321 adds 5 to [from] as
    a uint64, gets 3, and the header asks for nothing, from itself.  The
    slice of line 353 is then asked with a capacity of 2^64 - 1, and the
    run ends there. *)
Lemma fetch_count_wraps_at_uint64_max :
  let first := mkHeader 18446744073709551614 7 8 in
  let h := mkHeader 18446744073709551615 8 9 in
  NumberUint64 first < NumberUint64 h ∧
  ¬ NumberUint64 first ≤ NumberUint64 h - 5 ∧
  NumberUint64 first - (NumberUint64 h - 5) = 4 ∧
  fetchOrigin 5 h first h = (0, NumberUint64 h, ParentHash h) ∧
  requestParentHeaders (λ _, 5) emptyAPI 1 h [Some first; Some h] = None.
Proof. repeat split; by vm_compute. Qed.

(** C4, where the code departs from it.  Headers 10, 11 and 12 come in one
    batch; the rule engine wants no ancestor for header 10, one for
    header 11 and five for header 12.  Header 11 finds its parent in the
    batch and asks for nothing: its request has count 0 and starts at its
    own number 11.  Header 12 misses blocks 7 to 9: its request has count 3
    and starts at block 9.  The merge is seeded with the first request
    without the checks the loop applies, so the merged request starts at
    block 11, inside the batch, and counts 5. *)
Theorem merged_request_seeded_with_first_request :
  sumHeadersRequestsInRange 1 10
    [mkHeadersRequest 1 (HeaderHash (hdr 10)) 11 0;
     mkHeadersRequest 1 (HeaderHash (hdr 9)) 9 3]
  = (mkHeadersRequest 1 (HeaderHash (hdr 10)) 11 5, None) ∧
  HeadersRequests <$>
    onVerifyHeaderRequest needNoneOneFive acceptAll 0 0 emptyAPI
      (batch 1 [10%N; 11%N; 12%N] None)
  = Some [mkHeadersRequest 1 (HeaderHash (hdr 10)) 11 5].
Proof. split; vm_compute; reflexivity. Qed.

(** C5, where the code departs from it.  Headers 10 and 11 come in one
    batch; the rule engine wants no ancestor for header 10 and one for
    header 11, which the batch holds.  Both headers are verified at once
    and nothing is left pending, yet a fetch request goes out, with
    count 0, and nothing is logged: the merge answers "nothing to ask" only
    when no header made a request at all. *)
Theorem zero_count_request_emitted :
  sumHeadersRequestsInRange 1 10 [mkHeadersRequest 1 (HeaderHash (hdr 10)) 11 0]
  = (mkHeadersRequest 1 (HeaderHash (hdr 10)) 11 0, None) ∧
  onVerifyHeaderRequest needNoneThenOne acceptAll 0 0 emptyAPI (batch 1 [10%N; 11%N] None)
  = Some (mkAPI ∅
            {[(HeaderHash (hdr 10), 10) := hdr 10; (HeaderHash (hdr 11), 11) := hdr 11]}
            [mkVerifyHeaderResponse 1 (HeaderHash (hdr 10)) None;
             mkVerifyHeaderResponse 1 (HeaderHash (hdr 11)) None]
            [mkHeadersRequest 1 (HeaderHash (hdr 10)) 11 0] [] []).
Proof. split; vm_compute; reflexivity. Qed.

(** With no request at all the merge does answer "nothing to ask", and the
    event loop logs it and sends nothing. *)
Lemma nothing_to_ask_logged :
  sumHeadersRequestsInRange 1 10 [] = (mkHeadersRequest 0 0 0 0, Some errNothingToAsk) ∧
  (onVerifyHeaderRequest (λ _, 0) acceptAll 0 0 emptyAPI (batch 1 [10%N] None)
     ≫= λ a, Some (HeadersRequests a, Log a))
  = Some ([], [logCantRequestAncestors 1 10 errNothingToAsk]).
Proof. split; vm_compute; reflexivity. Qed.

(** C6 as stated fails.  Header 10 waits under request id 1 with
    deadline 100; the sweep at time 200 times it out.  The fetch then fails
    and reports the hash of header 10: a second response goes out for
    request id 1 and that hash. *)
Lemma timed_out_entry_answered_again :
  VerifyHeaderResponses <$>
    run needOne acceptAll 0 emptyAPI
      [VerifyHeaders 0 (batch 1 [10%N] (Some 100)); CleanupTick 200;
       HeadersArrived (fetchFailed 1 (HeaderHash (hdr 10)))]
  = Some [mkVerifyHeaderResponse 1 (HeaderHash (hdr 10)) (Some errTimeout);
          mkVerifyHeaderResponse 1 (HeaderHash (hdr 10)) (Some (errExternal 7))].
Proof. vm_compute. reflexivity. Qed.

Lemma timed_out_entry_stays_resolved_witness :
  pendingAt oneWaiting 1 10 = Some waiting10 ∧ Deadline waiting10 < 200 ∧
  ProcessingRequests (cleanup 200 oneWaiting) !! 1 = None ∧
  onHeaderResponse acceptAll 0 (cleanup 200 oneWaiting) (fetched 1 [8%N; 9%N])
  = Some (cleanup 200 oneWaiting).
Proof.
  assert (pendingAt oneWaiting 1 10 = Some waiting10) as H1 by (vm_compute; reflexivity).
  assert (Deadline waiting10 < 200) as H2 by (vm_compute; reflexivity).
  destruct (timed_out_entry_stays_resolved acceptAll 0 200 oneWaiting 1 10 waiting10
              (fetched 1 [8%N; 9%N]) H1 H2 eq_refl) as (_ & Hgone & a2 & Hrun & _ & Heq).
  cbn in Heq. subst a2. done.
Defined.

(** C7, where the code departs from it.  Headers 10 and 11 come in one
    batch and want two and three ancestors.  The fetcher first delivers
    header 9 alone, then headers 8 and 9.  The index against duplicates is
    built anew on each arrival, and seeded only from the first request of
    the pass: on the second arrival header 9 is folded into the request of
    header 11 again, which ends with four known parents for three
    expected, and is never attempted. *)
Theorem refetched_ancestor_folded_twice :
  (run needTwoThenThree acceptAll 0 emptyAPI
     [VerifyHeaders 0 (batch 1 [10%N; 11%N] (Some 100));
      HeadersArrived (fetched 1 [9%N]);
      HeadersArrived (fetched 1 [8%N; 9%N])]
   ≫= λ a, pendingAt a 1 11)
  = Some (mkVerifyRequest 1 (hdr 11) true 100 [hdr 10; hdr 9; hdr 8; hdr 9] 3 8 9).
Proof. vm_compute. reflexivity. Qed.



(** A removal that waits for a verification still to be visited ends the
    pass when the cleanup loop carries it out before the lookup: block 11
    is removed after block 10 is attempted, the lookup of block 11 finds
    nil, and line 266 panics.  With the cleanup loop idle the same pass
    returns. *)
Lemma removal_before_lookup_ends_the_pass :
  VerifyRequestsCommonAncestorAmid rejectAll 1 [(0, 0); (1, 0)]%nat removalOfPending 1
    [hdr 8; hdr 9] = None ∧
  is_Some (VerifyRequestsCommonAncestorAmid rejectAll 1 [] removalOfPending 1 [hdr 8; hdr 9]).
Proof. split; vm_compute; eauto. Qed.

(** The rule engine rejects header 10, and header 11 is attempted all the
    same with header 10 as its parent. *)
Lemma rejected_header_serves_as_parent :
  VerifyHeaderResponses <$>
    run needTwoThenThree rejectAll 0 emptyAPI
      [VerifyHeaders 0 (batch 1 [10%N; 11%N] (Some 100));
       HeadersArrived (fetched 1 [8%N; 9%N])]
  = Some [mkVerifyHeaderResponse 1 (HeaderHash (hdr 10)) (Some (errExternal 1));
          mkVerifyHeaderResponse 1 (HeaderHash (hdr 11)) (Some (errExternal 1))].
Proof. vm_compute. reflexivity. Qed.


Lemma cleanup_times_out_only_expired_witness :
  ProcessingRequests (cleanup 200 twoWaiting) !! 1 = None ∧
  ∃ out,
    VerifyHeaderResponses (cleanup 200 twoWaiting) = VerifyHeaderResponses twoWaiting ++ out ∧
    filter (λ r, respID r = 1) out =
      map (timeoutResponse 1)
          (filter (λ req, Deadline req < 200)
             (map snd (map_to_list ({[10 := waiting10; 20 := waiting20]} : gmap Z VerifyRequest)))).
Proof.
  apply (cleanup_times_out_only_expired 200 twoWaiting 1 {[10 := waiting10; 20 := waiting20]}).
  - vm_compute. reflexivity.
  - exists 10, waiting10. split; [vm_compute; reflexivity|vm_compute; reflexivity].
Defined.

End ClaimsOnScenarios.

(** * Further properties of the process *)

(** ** The registry: cleanupRequest and addVerifyHeaderRequest *)

Lemma pendingAt_same a' a :
  ProcessingRequests a' = ProcessingRequests a →
  ∀ rid n, pendingAt a' rid n = pendingAt a rid n.
Proof. intros E rid n. unfold pendingAt. by rewrite E. Qed.

Lemma pendingAt_cleanupRequest_other a reqID num rid n :
  rid ≠ reqID → pendingAt (cleanupRequest reqID num a) rid n = pendingAt a rid n.
Proof.
  intros Hne. unfold pendingAt, cleanupRequest.
  destruct (ProcessingRequests a !! reqID) as [blocks|] eqn:E; [|done].
  destruct (decide _); cbn.
  - by rewrite lookup_delete_ne.
  - by rewrite lookup_insert_ne.
Qed.

Lemma pendingAt_cleanupRequest_eq a reqID num :
  pendingAt (cleanupRequest reqID num a) reqID num = None.
Proof.
  unfold pendingAt, cleanupRequest.
  destruct (ProcessingRequests a !! reqID) as [blocks|] eqn:E; [|by rewrite E].
  destruct (decide _); cbn.
  - by rewrite lookup_delete_eq.
  - rewrite lookup_insert_eq. cbn. by rewrite lookup_delete_eq.
Qed.

Lemma pendingAt_addVerifyHeaderRequest_other reqID h s deadline known k a rid n :
  rid ≠ reqID →
  pendingAt (addVerifyHeaderRequest reqID h s deadline known k a) rid n = pendingAt a rid n.
Proof.
  intros Hne. unfold pendingAt, addVerifyHeaderRequest. cbn. by rewrite lookup_insert_ne.
Qed.

Lemma pendingAt_storeRequest_other reqID num req a rid n :
  rid ≠ reqID → pendingAt (storeRequest reqID num req a) rid n = pendingAt a rid n.
Proof.
  intros Hne. unfold pendingAt, storeRequest.
  destruct (ProcessingRequests a !! reqID); [|done]. cbn. by rewrite lookup_insert_ne.
Qed.


Lemma cleanupRequest_Log reqID num a :
  Log (cleanupRequest reqID num a) = Log a ∧
  HeadersRequests (cleanupRequest reqID num a) = HeadersRequests a.
Proof.
  unfold cleanupRequest. destruct (ProcessingRequests a !! reqID); [|done].
  by destruct (decide _).
Qed.

(** X1.  cleanupRequest removes the pending verification registered under
    the request id and block number it is given, and no other: every other
    entry of the registry, under that request id or another, is found as
    before.  A request id or a block number that is not registered is no
    error, and nothing changes. *)
Theorem cleanupRequest_removes_one_entry reqID number a rid n :
  pendingAt (cleanupRequest reqID number a) rid n =
    if decide (rid = reqID ∧ n = number) then None else pendingAt a rid n.
Proof.
  destruct (decide _) as [[-> ->]|Hne].
  - apply pendingAt_cleanupRequest_eq.
  - destruct (decide (rid = reqID)) as [->|Hr].
    + apply pendingAt_cleanupRequest_ne. naive_solver.
    + by apply pendingAt_cleanupRequest_other.
Qed.

(** X2.  After addVerifyHeaderRequest the registry holds, under the request
    id and the block number of the header, the request toVerifyRequest
    builds (taking the place of an entry that was there), and every other
    entry as before; cleanupRequest for that request id and block number
    then takes the entry out again and leaves the others. *)
Theorem registered_then_removed reqID h s deadline known k a rid n :
  pendingAt (addVerifyHeaderRequest reqID h s deadline known k a) rid n =
    (if decide (rid = reqID ∧ n = NumberUint64 h)
     then Some (toVerifyRequest reqID h s deadline known k) else pendingAt a rid n) ∧
  pendingAt (cleanupRequest reqID (NumberUint64 h)
               (addVerifyHeaderRequest reqID h s deadline known k a)) rid n =
    (if decide (rid = reqID ∧ n = NumberUint64 h) then None else pendingAt a rid n).
Proof.
  destruct (decide _) as [[-> ->]|Hne].
  - split; [apply pendingAt_addVerifyHeaderRequest_eq|apply pendingAt_cleanupRequest_eq].
  - destruct (decide (rid = reqID)) as [->|Hr].
    + assert (n ≠ NumberUint64 h) by naive_solver.
      rewrite pendingAt_cleanupRequest_ne by done.
      by rewrite pendingAt_addVerifyHeaderRequest_ne.
    + rewrite pendingAt_cleanupRequest_other by done.
      by rewrite pendingAt_addVerifyHeaderRequest_other.
Qed.

(** ** No request id with an empty map of blocks *)

Lemma noEmptyBlocks_same a' a :
  ProcessingRequests a' = ProcessingRequests a → noEmptyBlocks a → noEmptyBlocks a'.
Proof. intros E H rid b. rewrite E. apply H. Qed.

Lemma noEmptyBlocks_delete reqID a :
  noEmptyBlocks a → noEmptyBlocks (setProcessingRequests (delete reqID (ProcessingRequests a)) a).
Proof.
  intros H rid b. cbn. intros [_ Hb]%lookup_delete_Some. by apply (H rid).
Qed.

Lemma noEmptyBlocks_cleanupRequest reqID num a :
  noEmptyBlocks a → noEmptyBlocks (cleanupRequest reqID num a).
Proof.
  intros H. unfold cleanupRequest.
  destruct (ProcessingRequests a !! reqID) as [blocks|] eqn:E; [|done].
  destruct (decide _) as [Hz|Hnz].
  - by apply noEmptyBlocks_delete.
  - intros rid b. cbn. intros [[<- <-]|[_ Hb]]%lookup_insert_Some.
    + intros Hem. apply Hnz. rewrite Hem. apply map_size_empty.
    + by apply (H rid).
Qed.

Lemma noEmptyBlocks_addVerifyHeaderRequest reqID h s deadline known k a :
  noEmptyBlocks a → noEmptyBlocks (addVerifyHeaderRequest reqID h s deadline known k a).
Proof.
  intros H rid b. unfold addVerifyHeaderRequest. cbn.
  intros [[<- <-]|[_ Hb]]%lookup_insert_Some.
  - apply insert_non_empty.
  - by apply (H rid).
Qed.

Lemma noEmptyBlocks_storeRequest reqID num req a :
  noEmptyBlocks a → noEmptyBlocks (storeRequest reqID num req a).
Proof.
  intros H. unfold storeRequest.
  destruct (ProcessingRequests a !! reqID) as [blocks|] eqn:E; [|done].
  intros rid b. cbn. intros [[<- <-]|[_ Hb]]%lookup_insert_Some.
  - apply insert_non_empty.
  - by apply (H rid).
Qed.

Lemma sweepKeep_lookup_Some now l :
  ∀ m rid blocks, sweepKeep now l m !! rid = Some blocks → m !! rid = Some blocks.
Proof.
  induction l as [|kv l IH]; intros m rid blocks; [done|].
  cbn. intros Hl. apply IH in Hl.
  destruct (timeouts now kv.1 (map_to_list kv.2)); [done|].
  by apply lookup_delete_Some in Hl as [_ ?].
Qed.

Lemma noEmptyBlocks_cleanup now a : noEmptyBlocks a → noEmptyBlocks (cleanup now a).
Proof.
  intros H rid b. rewrite cleanup_ProcessingRequests.
  intros Hl%sweepKeep_lookup_Some. by apply (H rid).
Qed.

Lemma noEmptyBlocks_cacheHeaders headers a :
  noEmptyBlocks a → noEmptyBlocks (cacheHeaders headers a).
Proof.
  apply noEmptyBlocks_same. by destruct (cacheHeaders_fields headers a) as [-> _].
Qed.

(** ** The window of a pending verification and the fold of appendAncestors *)

Lemma foldAncestor_sublist b (ancestors : list Header) :
  ∀ req m req' m',
    fold_left (foldAncestor b) ancestors (req, m) = (req', m') →
    ∃ added,
      req' = withKnownParents req (KnownParents req ++ added) ∧
      added `sublist_of` filter (inWindow req) ancestors ∧
      (indexed b m (KnownParents req) → NoDup (HeaderHash <$> KnownParents req) →
       NoDup (HeaderHash <$> KnownParents req')).
Proof.
  induction ancestors as [|p ancestors IH]; intros req m req' m'.
  { cbn. intros [= <- <-]. exists []. rewrite app_nil_r, withKnownParents_id. done. }
  cbn [fold_left]. unfold foldAncestor at 2.
  assert (∀ req1 m1,
            req1 = addKnownParent req p → inWindow req p →
            (indexed b m (KnownParents req) → HeaderHash p ∉ HeaderHash <$> KnownParents req) →
            m1 = <[HeaderHash p := {[b]}]> m →
            fold_left (foldAncestor b) ancestors (req1, m1) = (req', m') →
            ∃ added,
              req' = withKnownParents req (KnownParents req ++ added) ∧
              added `sublist_of` filter (inWindow req) (p :: ancestors) ∧
              (indexed b m (KnownParents req) → NoDup (HeaderHash <$> KnownParents req) →
               NoDup (HeaderHash <$> KnownParents req'))) as Hadd.
  { intros req1 m1 -> Hwin Hfresh -> Hl.
    apply IH in Hl as (added & -> & Hsub & Hnd).
    exists (p :: added). split.
    { unfold withKnownParents, addKnownParent. cbn. by rewrite <- app_assoc. }
    split.
    - rewrite filter_cons_True by done. apply sublist_skip. exact Hsub.
    - intros Hidx Hno.
      replace (withKnownParents req (KnownParents req ++ p :: added))
        with (withKnownParents (addKnownParent req p)
                (KnownParents (addKnownParent req p) ++ added))
        by (unfold withKnownParents, addKnownParent; cbn; by rewrite <- app_assoc).
      apply Hnd; cbn [KnownParents addKnownParent].
      + intros q [Hq| ->%list_elem_of_singleton]%elem_of_app.
        * destruct (Hidx q Hq) as (S & HS & Hb).
          destruct (decide (HeaderHash q = HeaderHash p)) as [E|E].
          -- exists {[b]}. rewrite E, lookup_insert_eq. split; [done|]. by apply elem_of_singleton.
          -- exists S. by rewrite lookup_insert_ne.
        * exists {[b]}. rewrite lookup_insert_eq. split; [done|]. by apply elem_of_singleton.
      + rewrite fmap_app. apply NoDup_app. split; [done|]. split.
        * intros x Hx ->%list_elem_of_singleton. by apply Hfresh.
        * apply NoDup_singleton. }
  assert (fold_left (foldAncestor b) ancestors (req, m) = (req', m') →
          ∃ added,
            req' = withKnownParents req (KnownParents req ++ added) ∧
            added `sublist_of` filter (inWindow req) (p :: ancestors) ∧
            (indexed b m (KnownParents req) → NoDup (HeaderHash <$> KnownParents req) →
             NoDup (HeaderHash <$> KnownParents req'))) as Hskip.
  { intros Hl. apply IH in Hl as (added & -> & Hsub & Hnd).
    exists added. split; [done|]. split; [|done].
    destruct (decide (inWindow req p)).
    - rewrite filter_cons_True by done. apply sublist_cons. exact Hsub.
    - rewrite filter_cons_False by done. exact Hsub. }
  destruct ((From req <=? NumberUint64 p) && (NumberUint64 p <=? To req)) eqn:Hw; [|done].
  apply andb_true_iff in Hw as [Hlo%Z.leb_le Hhi%Z.leb_le].
  assert (inWindow req p) as Hwin by done.
  destruct (m !! HeaderHash p) as [S|] eqn:Hm.
  - destruct (decide (b ∈ S)) as [Hin|Hout]; [done|].
    apply Hadd; try done.
    intros Hidx (q & Hq & Hqin)%list_elem_of_fmap.
    destruct (Hidx q Hqin) as (S' & HS' & Hb). rewrite <- Hq, Hm in HS'.
    injection HS' as <-. done.
  - apply Hadd; try done.
    intros Hidx (q & Hq & Hqin)%list_elem_of_fmap.
    destruct (Hidx q Hqin) as (S' & HS' & Hb). rewrite <- Hq, Hm in HS'. done.
Qed.

Lemma seed_indexed b (known : list Header) :
  ∀ m0 : gmap Z (gset Z),
    let m := fold_left (λ m p, <[HeaderHash p := {[b]}]> m) known m0 in
    ∀ hash, hash ∈ HeaderHash <$> known ∨ m0 !! hash = Some {[b]} → m !! hash = Some {[b]}.
Proof.
  induction known as [|p known IH]; intros m0; cbn.
  - intros hash [Hin|?]; [|done]. by apply elem_of_nil in Hin.
  - intros hash Hh. apply IH.
    destruct (decide (hash = HeaderHash p)) as [->|Hne].
    + right. apply lookup_insert_eq.
    + rewrite lookup_insert_ne by done.
      destruct Hh as [[?|?]%elem_of_cons|?]; [done|by left|by right].
Qed.

(** X3.  appendAncestors only ever appends to the known parents of a
    request: what it adds is taken from the ancestors inside the window
    [From, To] of the request, in the order the ancestors come in, and the
    parents known before, the header, the deadline, the count expected and
    the window stay as they were. *)
Theorem ancestors_appended_in_order_from_window req ancestors knownByRequests :
  ∃ added,
    (appendAncestors req ancestors knownByRequests).1
      = withKnownParents req (KnownParents req ++ added) ∧
    added `sublist_of` filter (inWindow req) ancestors.
Proof.
  unfold appendAncestors.
  destruct (fold_left _ ancestors _) as [req' m'] eqn:Hfold.
  apply foldAncestor_sublist in Hfold as (added & -> & Hsub & _).
  by exists added.
Qed.

(** X4.  When the index handed to appendAncestors has no entry yet for the
    request id (the first request of a pass), the index is seeded from the
    known parents of the request, and the fold adds no header whose hash
    is already among them, nor the same hash twice: known parents with
    distinct hashes stay distinct. *)
Theorem fresh_index_keeps_parents_distinct req ancestors knownByRequests :
  knownByRequests !! ID req = None →
  NoDup (HeaderHash <$> KnownParents req) →
  NoDup (HeaderHash <$> KnownParents (appendAncestors req ancestors knownByRequests).1).
Proof.
  intros Hfresh Hnd. unfold appendAncestors. rewrite Hfresh.
  destruct (fold_left _ ancestors _) as [req' m'] eqn:Hfold.
  apply foldAncestor_sublist in Hfold as (added & -> & _ & Hno).
  apply Hno; [|done].
  intros p Hp. exists {[NumberUint64 (ReqHeader req)]}.
  split; [|by apply elem_of_singleton].
  apply seed_indexed. left. by apply list_elem_of_fmap_2.
Qed.

(** X5.  A header that wants more ancestors than its block number ([k]
    above the number, fewer parents known than the number) gets from
    toVerifyRequest a window whose lower end has wrapped around as a
    uint64 and lies above its upper end: the window is empty, and
    appendAncestors never adds a parent to such a request, whatever
    headers arrive. *)
Theorem request_below_genesis_never_grows reqID h s deadline known k ancestors knownByRequests :
  NumberUint64 h < k < 2 ^ 64 → Z.of_nat (length known) < NumberUint64 h →
  (appendAncestors (toVerifyRequest reqID h s deadline known k) ancestors knownByRequests).1
  = toVerifyRequest reqID h s deadline known k.
Proof.
  intros Hk Hlen. unfold appendAncestors.
  destruct (fold_left _ ancestors _) as [req' m'] eqn:Hfold.
  apply foldAncestor_sublist in Hfold as (added & -> & Hsub & _).
  rewrite filter_none in Hsub.
  - apply sublist_nil_r in Hsub as ->. by rewrite app_nil_r, withKnownParents_id.
  - intros p _. unfold inWindow, toVerifyRequest. cbn.
    pose proof (NumberUint64_range h).
    rewrite (wrap64_small k) by lia.
    rewrite (wrap64_small (Z.of_nat (length known))) by lia.
    rewrite (wrap64_small (NumberUint64 h - Z.of_nat (length known) - 1)) by lia.
    unfold wrap64. Z.div_mod_to_equations. lia.
Qed.

(** ** The walk of requestHeadersNotFromRange *)

Section Walk.
Context `{Memory}.

Lemma walkCache_spec (a : API) (minHeader : Z) (fuel : nat) :
  ∀ highestKnown parentBlockNum known hpn hph known' hpn' hph',
    walkCache fuel a highestKnown parentBlockNum minHeader known hpn hph
      = Some (known', hpn', hph') →
    ∃ found,
      known' = known ++ found ∧
      cachedChain a highestKnown parentBlockNum found ∧
      hpn ≤ hpn' ∧
      (0 < minHeader ≤ parentBlockNum + 1 → parentBlockNum < 2 ^ 64 →
       Z.of_nat (length found) ≤ parentBlockNum + 1 - minHeader ∧
       (Z.of_nat (length found) < parentBlockNum + 1 - minHeader →
        GetCachedHeader a (chainEnd highestKnown found)
          (parentBlockNum - Z.of_nat (length found)) = None)) ∧
      (Forall (λ p, NumberUint64 p ≤ hpn) found → hpn' = hpn ∧ hph' = hph).
Proof.
  induction fuel as [|fuel IH]; intros hk pbn known hpn hph known' hpn' hph'; [done|].
  cbn [walkCache].
  destruct (pbn <? minHeader) eqn:Hlt.
  { intros [= <- <- <-]. exists []. rewrite app_nil_r. cbn.
    apply Z.ltb_lt in Hlt.
    split; [done|]. split; [done|]. split; [lia|]. split; [|done].
    intros ? ?. split; lia. }
  apply Z.ltb_ge in Hlt.
  destruct (GetCachedHeader a hk pbn) as [p|] eqn:Hc.
  2:{ intros [= <- <- <-]. exists []. rewrite app_nil_r. cbn.
      split; [done|]. split; [done|]. split; [lia|]. split; [|done].
      intros ? ?. split; [lia|]. intros _. by rewrite Z.sub_0_r. }
  destruct (hpn <? NumberUint64 p) eqn:Hup.
  - intros Hw. apply IH in Hw as (found & -> & Hchain & Hle & Hbound & Hkeep).
    apply Z.ltb_lt in Hup.
    exists (p :: found). rewrite <- app_assoc. cbn [app cachedChain length].
    split; [done|]. split; [done|]. split; [lia|]. split.
    + intros Hmin Hpbn. rewrite wrap64_small in Hbound by lia.
      destruct Hbound as [Hlen Hmiss]; [lia|lia|]. split; [lia|].
      intros Hshort. cbn [chainEnd].
      replace (pbn - Z.of_nat (S (length found))) with (pbn - 1 - Z.of_nat (length found)) by lia.
      apply Hmiss. lia.
    + intros HF. apply Forall_cons in HF as [Hp _]. lia.
  - intros Hw. apply IH in Hw as (found & -> & Hchain & Hle & Hbound & Hkeep).
    exists (p :: found). rewrite <- app_assoc. cbn [app cachedChain length].
    split; [done|]. split; [done|]. split; [lia|]. split.
    + intros Hmin Hpbn. rewrite wrap64_small in Hbound by lia.
      destruct Hbound as [Hlen Hmiss]; [lia|lia|]. split; [lia|].
      intros Hshort. cbn [chainEnd].
      replace (pbn - Z.of_nat (S (length found))) with (pbn - 1 - Z.of_nat (length found)) by lia.
      apply Hmiss. lia.
    + intros HF. apply Forall_cons in HF as [_ HF]. by apply Hkeep.
Qed.

Lemma cachedChain_chainFrom a :
  keyedByOwn a →
  ∀ l hash num, 0 ≤ num → Z.of_nat (length l) ≤ num + 1 →
    cachedChain a hash num l → chainFrom hash num l.
Proof.
  intros Hkey. induction l as [|p l IH]; intros hash num Hnum Hlen; [done|].
  cbn [cachedChain chainFrom length]. intros [Hc Hl].
  apply Hkey in Hc. injection Hc as -> ->.
  split; [done|]. split; [done|].
  destruct l as [|q l]; [done|].
  cbn [length] in Hlen.
  pose proof (NumberUint64_range p).
  rewrite wrap64_small in Hl by lia.
  apply IH; [lia| |done]. cbn [length]. lia.
Qed.

Lemma chainFrom_numbers hash num l :
  chainFrom hash num l → Forall (λ p, NumberUint64 p ≤ num) l.
Proof.
  revert hash num. induction l as [|p l IH]; intros hash num; [done|].
  cbn [chainFrom]. intros (_ & Hn & Hl). constructor; [lia|].
  apply IH in Hl. eapply Forall_impl; [exact Hl|]. cbn. intros. lia.
Qed.

Lemma requestHeadersNotFromRange_walk a reqID highestBlock highestKnown parentsToGet known r :
  0 < parentsToGet ≤ highestBlock → highestBlock < 2 ^ 64 →
  requestHeadersNotFromRange a reqID highestBlock highestKnown parentsToGet = Some (known, r) →
  ∃ hpn hph,
    walkCache (S (size (Cache a))) a highestKnown highestBlock
      (highestBlock - parentsToGet + 1) [] highestBlock highestKnown = Some (known, hpn, hph) ∧
    r = mkHeadersRequest reqID hph hpn (wrap64 (parentsToGet - Z.of_nat (length known))).
Proof.
  intros Hp Hhb. unfold requestHeadersNotFromRange.
  rewrite (wrap64_small (parentsToGet - 1)) by lia.
  destruct (parentsToGet - 1 <? highestBlock) eqn:Hlt; [|apply Z.ltb_ge in Hlt; lia].
  rewrite (wrap64_small (highestBlock - parentsToGet + 1)) by lia.
  unfold makeslice.
  destruct (_ <=? maxCap); [|done]. cbn [mbind option_bind].
  destruct (walkCache _ _ _ _ _ _ _ _) as [[[known' hpn] hph]|]; [|done].
  cbn. intros [= <- <-]. eauto.
Qed.

(** X6.  Asked for [parentsToGet] ancestors from block [highestBlock]
    downwards, with [0 < parentsToGet <= highestBlock] (so that the lowest
    block asked for is above block 0) and with the capacity of the slice of
    line 353, [parentsToGet - 1], one the machine grants
    ([parentsToGet - 1 <= maxCap]), requestHeadersNotFromRange returns,
    with at most [parentsToGet] headers taken from the cache, and the
    request it builds carries the request id and asks for exactly the
    ancestors not found: [parentsToGet] less the number of headers
    returned, with no wrap-around. *)
Theorem cached_ancestors_reduce_the_count a reqID highestBlock highestKnown parentsToGet :
  Z.of_nat (size (Cache a)) < 2 ^ 64 →
  0 < parentsToGet ≤ highestBlock → highestBlock < 2 ^ 64 →
  parentsToGet - 1 ≤ maxCap →
  ∃ known r,
    requestHeadersNotFromRange a reqID highestBlock highestKnown parentsToGet = Some (known, r) ∧
    Z.of_nat (length known) ≤ parentsToGet ∧
    hrID r = reqID ∧
    hrNumber r = parentsToGet - Z.of_nat (length known).
Proof.
  intros Hsize Hp Hhb Hcap.
  destruct (requestHeadersNotFromRange_total a reqID highestBlock highestKnown parentsToGet)
    as [[known r] Hr]; [done|lia|lia|right; lia|].
  exists known, r. split; [done|].
  apply requestHeadersNotFromRange_walk in Hr as (hpn & hph & Hw & ->); [|done..].
  apply walkCache_spec in Hw as (found & Hk & _ & _ & Hbound & _).
  cbn in Hk. subst found.
  destruct Hbound as [Hlen _]; [lia..|].
  cbn. split; [lia|]. split; [done|]. apply wrap64_small. lia.
Qed.

(** X7.  The headers requestHeadersNotFromRange returns are the ones the
    cache holds along the parent hashes: the first under the hash and block
    number it starts from, each next one under the parent hash of the one
    before and the block number below.  When it returns fewer than
    [parentsToGet] headers, the cache holds nothing under the next parent
    hash and block number: the walk stops at the first miss and not
    earlier ([0 < parentsToGet <= highestBlock]). *)
Theorem known_parents_follow_the_cache a reqID highestBlock highestKnown parentsToGet known r :
  0 < parentsToGet ≤ highestBlock → highestBlock < 2 ^ 64 →
  requestHeadersNotFromRange a reqID highestBlock highestKnown parentsToGet = Some (known, r) →
  cachedChain a highestKnown highestBlock known ∧
  (Z.of_nat (length known) < parentsToGet →
   GetCachedHeader a (chainEnd highestKnown known) (highestBlock - Z.of_nat (length known))
   = None).
Proof.
  intros Hp Hhb Hr.
  apply requestHeadersNotFromRange_walk in Hr as (hpn & hph & Hw & ->); [|done..].
  apply walkCache_spec in Hw as (found & Hk & Hchain & _ & Hbound & _).
  cbn in Hk. subst found. split; [done|].
  destruct Hbound as [_ Hmiss]; [lia..|].
  intros Hshort. apply Hmiss. lia.
Qed.

(** X8.  With a cache that holds every header under its own hash and block
    number, the headers requestHeadersNotFromRange returns are a chain of
    ancestors going down from the block it starts from, and the request it
    builds still starts from that block and hash: finding ancestors in the
    cache lowers the count of the request and leaves its highest block and
    highest hash where they were ([0 < parentsToGet <= highestBlock]). *)
Theorem request_keeps_its_origin a reqID highestBlock highestKnown parentsToGet known r :
  keyedByOwn a →
  0 < parentsToGet ≤ highestBlock → highestBlock < 2 ^ 64 →
  requestHeadersNotFromRange a reqID highestBlock highestKnown parentsToGet = Some (known, r) →
  chainFrom highestKnown highestBlock known ∧
  r = mkHeadersRequest reqID highestKnown highestBlock
        (parentsToGet - Z.of_nat (length known)).
Proof.
  intros Hkey Hp Hhb Hr.
  apply requestHeadersNotFromRange_walk in Hr as (hpn & hph & Hw & ->); [|done..].
  apply walkCache_spec in Hw as (found & Hk & Hchain & _ & Hbound & Hkeep).
  cbn in Hk. subst found.
  destruct Hbound as [Hlen _]; [lia..|].
  assert (chainFrom highestKnown highestBlock known) as Hfrom.
  { apply (cachedChain_chainFrom a); [done|lia|lia|done]. }
  split; [done|].
  destruct Hkeep as [-> ->]; [by eapply chainFrom_numbers|].
  f_equal. apply wrap64_small. lia.
Qed.

End Walk.

(** ** The ancestors taken from the batch: checkHeadersFromRange *)

Lemma indexOfNumber_absent number (l : list Header) :
  ∀ i, Forall (λ x, NumberUint64 x ≠ number) l →
       indexOfNumber number (Some <$> l) i = Some None.
Proof.
  induction l as [|x l IH]; intros i; [done|].
  intros [Hx Hl]%Forall_cons. cbn.
  destruct (NumberUint64 x =? number) eqn:E; [apply Z.eqb_eq in E; done|].
  by apply IH.
Qed.

Lemma indexOfNumber_found number (pre : list Header) x post :
  ∀ i, Forall (λ x, NumberUint64 x ≠ number) pre → NumberUint64 x = number →
       indexOfNumber number (Some <$> (pre ++ x :: post)) i
       = Some (Some (i + Z.of_nat (length pre))).
Proof.
  induction pre as [|y pre IH]; intros i.
  - intros _ Hx. cbn. rewrite Hx, Z.eqb_refl. do 2 f_equal. lia.
  - intros [Hy Hpre]%Forall_cons Hx. cbn.
    destruct (NumberUint64 y =? number) eqn:E; [apply Z.eqb_eq in E; done|].
    rewrite IH by done. do 2 f_equal. lia.
Qed.

Lemma checkHeadersFromRange_absent (h : Header) (l : list Header) (pa k : Z) :
  0 ≤ pa ≤ k → k < 2 ^ 64 →
  Forall (λ x, NumberUint64 x ≠ NumberUint64 h) l →
  checkHeadersFromRange h (Some <$> l) pa k = Some [].
Proof.
  intros Hpa Hk Habs. unfold checkHeadersFromRange.
  rewrite (wrap64_small (k - pa)) by lia.
  destruct (k - pa <=? 0); [done|].
  by rewrite indexOfNumber_absent.
Qed.

Lemma checkHeadersFromRange_found (h : Header) (pre : list Header) x post (pa k : Z) :
  0 ≤ pa ≤ k → k < 2 ^ 64 → k - pa < 2 ^ 63 →
  Forall (λ x, NumberUint64 x ≠ NumberUint64 h) pre → NumberUint64 x = NumberUint64 h →
  checkHeadersFromRange h (Some <$> (pre ++ x :: post)) pa k =
    Some (if Z.of_nat (length pre) <? k - pa then []
          else drop (length pre - Z.to_nat (k - pa)) pre).
Proof.
  intros Hpa Hk Hdiff Hpre Hx. unfold checkHeadersFromRange.
  rewrite (wrap64_small (k - pa)) by lia.
  destruct (k - pa <=? 0) eqn:Hz.
  - apply Z.leb_le in Hz. assert (k - pa = 0) as -> by lia.
    destruct (Z.of_nat (length pre) <? 0) eqn:E; [apply Z.ltb_lt in E; lia|].
    cbn. rewrite Nat.sub_0_r. by rewrite drop_all.
  - apply Z.leb_gt in Hz.
    rewrite indexOfNumber_found by done. cbn [mbind option_bind].
    cbv zeta. rewrite int64_small by lia. rewrite Z.add_0_l.
    destruct (Z.ltb_spec (k - pa) 0); [lia|].
    destruct (Z.of_nat (length pre) - (k - pa) <? 0) eqn:Hlow.
    + apply Z.ltb_lt in Hlow.
      destruct (Z.of_nat (length pre) <? k - pa) eqn:E; [done|apply Z.ltb_ge in E; lia].
    + apply Z.ltb_ge in Hlow.
      destruct (Z.of_nat (length pre) <? k - pa) eqn:E; [apply Z.ltb_lt in E; lia|].
      destruct (Z.of_nat (length pre) <? Z.of_nat (length pre) - (k - pa)) eqn:E2;
        [apply Z.ltb_lt in E2; lia|].
      rewrite <- fmap_drop, <- fmap_take, mapM_id_Some. f_equal.
      replace (Z.to_nat (Z.of_nat (length pre) - (k - pa)))
        with (length pre - Z.to_nat (k - pa))%nat by lia.
      replace (Z.to_nat (Z.of_nat (length pre)
                         - (Z.of_nat (length pre) - (k - pa))))
        with (Z.to_nat (k - pa)) by lia.
      rewrite drop_app_le by lia.
      rewrite take_app_le by (rewrite length_drop; lia).
      apply take_ge. rewrite length_drop. lia.
Qed.

Lemma head_fmap_Some {A B} (f : A → B) (l : list A) x :
  head l = Some x → head (f <$> l) = Some (f x).
Proof. destruct l; [done|]. by intros [= ->]. Qed.

(** X9.  checkHeadersFromRange gives all the ancestors that were to come
    from the batch or none of them.  With [parentsToValidate] ancestors
    wanted and [parentsToGet] of them asked for outside the batch, it
    returns nothing when no header of the batch has the block number of the
    header; otherwise it looks at the first header of the batch with that
    number, returns the [parentsToValidate - parentsToGet] headers that
    stand right before it in the batch when there are that many, and
    nothing when there are fewer. *)
Theorem parents_from_batch_all_or_nothing (h : Header) (l : list Header) (pa k : Z) :
  0 ≤ pa ≤ k → k < 2 ^ 64 → k - pa < 2 ^ 63 →
  (Forall (λ x, NumberUint64 x ≠ NumberUint64 h) l →
   checkHeadersFromRange h (Some <$> l) pa k = Some []) ∧
  (∀ pre x post,
     l = pre ++ x :: post →
     Forall (λ x, NumberUint64 x ≠ NumberUint64 h) pre → NumberUint64 x = NumberUint64 h →
     checkHeadersFromRange h (Some <$> l) pa k =
       Some (if Z.of_nat (length pre) <? k - pa then []
             else drop (length pre - Z.to_nat (k - pa)) pre)).
Proof.
  intros Hpa Hk Hdiff. split.
  - by apply checkHeadersFromRange_absent.
  - intros pre x post -> Hpre Hx. by apply checkHeadersFromRange_found.
Qed.

(** ** The merged request: sumHeadersRequestsInRange *)

Lemma sumStep_uncounted reqID from acc r :
  ¬ counted reqID r → sumStep reqID from acc r = acc.
Proof.
  intros Hn. destruct acc as [[mx mh] mn]. unfold sumStep.
  destruct (hrID r =? reqID) eqn:Hid; [|done]. cbn [negb].
  destruct (hrNumber r =? 0) eqn:Hz; [done|].
  apply Z.eqb_eq in Hid. apply Z.eqb_neq in Hz. by destruct Hn.
Qed.

Lemma sumStep_filter reqID from reqs :
  ∀ acc, fold_left (sumStep reqID from) reqs acc
         = fold_left (sumStep reqID from) (filter (counted reqID) reqs) acc.
Proof.
  induction reqs as [|r reqs IH]; intros acc; [done|].
  cbn [fold_left]. destruct (decide (counted reqID r)) as [Hc|Hn].
  - rewrite filter_cons_True by done. cbn [fold_left]. apply IH.
  - rewrite filter_cons_False by done. rewrite sumStep_uncounted by done. apply IH.
Qed.

(** X10.  Merging a single request gives that request back under the
    request id of the batch: same highest hash, same highest block, same
    count (the count being a uint64). *)
Theorem merge_of_one_request reqID from r :
  0 ≤ hrNumber r < 2 ^ 64 →
  sumHeadersRequestsInRange reqID from [r]
  = (mkHeadersRequest reqID (HighestHash r) (HighestBlockNumber r) (hrNumber r), None).
Proof.
  intros Hn. unfold sumHeadersRequestsInRange. cbn [fold_left]. unfold sumStep.
  assert (wrap64 (HighestBlockNumber r - wrap64 (HighestBlockNumber r - hrNumber r + 1) + 1)
          = hrNumber r) as Hback.
  { unfold wrap64. Z.div_mod_to_equations. lia. }
  destruct (negb (hrID r =? reqID)); [by rewrite Hback|].
  destruct (hrNumber r =? 0); [by rewrite Hback|].
  rewrite Z.ltb_irrefl. cbn [andb]. rewrite Z.ltb_irrefl. by rewrite Hback.
Qed.

(** X11.  After the first request, the merge looks only at the requests
    made under the request id of the batch with a count other than zero:
    taking the other requests out of the list, the first one apart,
    changes nothing in the result. *)
Theorem merge_ignores_uncounted_requests reqID from r0 rest :
  sumHeadersRequestsInRange reqID from (r0 :: rest)
  = sumHeadersRequestsInRange reqID from (r0 :: filter (counted reqID) rest).
Proof.
  unfold sumHeadersRequestsInRange. cbn [fold_left].
  by rewrite sumStep_filter.
Qed.

(** X12.  When the first request is made under the request id of the
    batch, for one header or more, from a block below the batch, and no
    request made under that request id asks for blocks below block 0 (its
    count is at most its highest block plus one, so that its lowest block
    does not wrap around), the merge returns no error and a request under
    that request id which asks for one header or more, down to a block
    that is not below 0, and covers every such request of the list: its
    lowest block is not above the lowest block of any of them, and its
    highest block is not below the highest block of any of them that
    starts below the batch, all as plain integers.  [from] is a uint64. *)
Theorem merged_request_covers_counted reqID from r0 rest :
  counted reqID r0 → HighestBlockNumber r0 < from → from < 2 ^ 64 →
  Forall (λ r, counted reqID r →
               0 < hrNumber r ≤ HighestBlockNumber r + 1 ∧ HighestBlockNumber r < 2 ^ 64)
    (r0 :: rest) →
  ∃ res,
    sumHeadersRequestsInRange reqID from (r0 :: rest) = (res, None) ∧
    hrID res = reqID ∧
    0 < hrNumber res ≤ HighestBlockNumber res + 1 ∧
    ∀ r, r ∈ r0 :: rest → counted reqID r →
      HighestBlockNumber res - hrNumber res + 1 ≤ HighestBlockNumber r - hrNumber r + 1 ∧
      (HighestBlockNumber r < from → HighestBlockNumber r ≤ HighestBlockNumber res).
Proof.
  intros Hc Hlt Hfrom Hfit.
  destruct (sum_when_first_request_counts reqID from r0 rest Hc Hlt)
    as (res & lowest & Hsum & Hid & (rh & _ & _ & Hhigh & Hres & _) & Hmax
        & (rl & Hrl & Hcl & Hlow) & Hmin & Hnum).
  assert (∀ r, r ∈ r0 :: rest → counted reqID r →
            0 < hrNumber r ≤ HighestBlockNumber r + 1 ∧
            lowestAsked r = HighestBlockNumber r - hrNumber r + 1) as Hplain.
  { intros r Hr Hcr. rewrite Forall_forall in Hfit. destruct (Hfit r Hr Hcr) as [Hn Hh].
    split; [done|]. unfold lowestAsked. apply wrap64_small. lia. }
  assert (r0 ∈ r0 :: rest) as Hr0 by (by left).
  destruct (Hplain r0 Hr0 Hc) as [Hn0 Hl0].
  destruct (Hplain rl Hrl Hcl) as [Hnl Hll].
  pose proof (Hmin r0 Hr0 Hc) as Hmin0. pose proof (Hmax r0 Hr0 Hc Hlt) as Hmax0.
  rewrite Hl0 in Hmin0. rewrite Hll in Hlow.
  assert (hrNumber res = HighestBlockNumber res - lowest + 1) as Hcount.
  { rewrite Hnum. apply wrap64_small. lia. }
  exists res. split; [done|]. split; [done|]. split; [lia|].
  intros r Hin Hcr. destruct (Hplain r Hin Hcr) as [_ Hl].
  pose proof (Hmin r Hin Hcr) as Hminr. rewrite Hl in Hminr.
  split; [lia|]. intros Hr. by apply Hmax.
Qed.

(** ** The expiry sweep: cleanup *)

Lemma timeouts_earlier now now' rid l :
  now' ≤ now → timeouts now rid l = [] → timeouts now' rid l = [].
Proof.
  intros Hle. unfold timeouts. intros Hnil.
  apply fmap_nil_inv in Hnil.
  rewrite filter_none; [done|].
  intros req Hin Hd.
  assert (req ∈ filter (λ req, Deadline req < now) (map snd l)) as Habs.
  { apply list_elem_of_filter. split; [lia|done]. }
  rewrite Hnil in Habs. by apply not_elem_of_nil in Habs.
Qed.

Lemma sweepOut_nil now l :
  (∀ kv, kv ∈ l → timeouts now kv.1 (map_to_list kv.2) = []) → sweepOut now l = [].
Proof.
  induction l as [|kv l IH]; [done|]. intros H. cbn.
  rewrite (H kv) by left. cbn. apply IH. intros kv' Hin. apply H. by right.
Qed.

Lemma sweepKeep_nil now l :
  ∀ m, (∀ kv, kv ∈ l → timeouts now kv.1 (map_to_list kv.2) = []) → sweepKeep now l m = m.
Proof.
  induction l as [|kv l IH]; [done|]. intros m H. cbn.
  rewrite (H kv) by left. apply IH. intros kv' Hin. apply H. by right.
Qed.

Lemma cleanup_nothing_expired now a rid blocks :
  ProcessingRequests (cleanup now a) !! rid = Some blocks →
  ProcessingRequests a !! rid = Some blocks ∧ timeouts now rid (map_to_list blocks) = [].
Proof.
  rewrite cleanup_ProcessingRequests. intros Hl.
  pose proof (sweepKeep_lookup_Some _ _ _ _ _ Hl) as Hin. split; [done|].
  destruct (timeouts now rid (map_to_list blocks)) as [|r out] eqn:Ht; [done|].
  rewrite (sweepKeep_lookup_expired now _ _ rid blocks) in Hl; [done| |by rewrite Ht].
  by apply elem_of_map_to_list.
Qed.

(** X13.  Once the sweep has run at a time [now], a sweep at the same or
    an earlier time changes nothing: no pending verification is removed
    and no timeout is sent a second time. *)
Theorem second_sweep_does_nothing now now' a :
  now' ≤ now → cleanup now' (cleanup now a) = cleanup now a.
Proof.
  intros Hle. rewrite (cleanup_spec now' (cleanup now a)).
  assert (∀ kv, kv ∈ map_to_list (ProcessingRequests (cleanup now a)) →
                timeouts now' kv.1 (map_to_list kv.2) = []) as Hnone.
  { intros [rid blocks] Hin. apply elem_of_map_to_list in Hin.
    apply cleanup_nothing_expired in Hin as [_ Hin].
    by apply (timeouts_earlier now). }
  rewrite sweepOut_nil, sweepKeep_nil by done.
  rewrite app_nil_r. by destruct (cleanup now a).
Qed.

(** X14.  The sweep leaves a request id alone when none of its pending
    verifications has a deadline before the time of the sweep (a deadline
    equal to that time has not passed): all its entries stay registered,
    and none of the responses the sweep sends carries that request id. *)
Theorem sweep_keeps_requests_in_time now a reqID reqBlocks :
  ProcessingRequests a !! reqID = Some reqBlocks →
  map_Forall (λ _ req, now ≤ Deadline req) reqBlocks →
  ProcessingRequests (cleanup now a) !! reqID = Some reqBlocks ∧
  ∃ out,
    VerifyHeaderResponses (cleanup now a) = VerifyHeaderResponses a ++ out ∧
    Forall (λ r, respID r ≠ reqID) out.
Proof.
  intros Hreg Hlive.
  assert (timeouts now reqID (map_to_list reqBlocks) = []) as Hnone.
  { destruct (timeouts now reqID (map_to_list reqBlocks)) as [|r out] eqn:Ht; [done|].
    destruct (timeouts_nonempty_expired now reqID reqBlocks) as (num & req & Hnum & Hd).
    { by rewrite Ht. }
    apply Hlive in Hnum. cbn in Hnum. lia. }
  split.
  - rewrite cleanup_ProcessingRequests, sweepKeep_lookup_kept; [done|].
    intros blocks Hin. apply elem_of_map_to_list in Hin.
    rewrite Hreg in Hin. by injection Hin as <-.
  - exists (sweepOut now (map_to_list (ProcessingRequests a))).
    split; [apply cleanup_VerifyHeaderResponses|].
    apply Forall_forall. intros r Hr Hid.
    unfold sweepOut in Hr. apply list_elem_of_In, in_flat_map in Hr as ([rid blocks] & Hkv & Hin).
    apply list_elem_of_In in Hkv, Hin.
    apply timeouts_respID in Hin as Hrid. cbn in Hrid.
    apply elem_of_map_to_list in Hkv.
    assert (rid = reqID) as -> by congruence.
    rewrite Hreg in Hkv. injection Hkv as <-.
    cbn in Hin. rewrite Hnone in Hin. by apply not_elem_of_nil in Hin.
Qed.

(** ** The handlers of the two loops *)

Lemma sink_length x r r' : sink x r = Some r' → length r' = S (length r).
Proof.
  revert r'. induction r as [|y r IH]; intros r'; cbn.
  - by intros [= <-].
  - destruct (lessNumber x y) as [[]|]; cbn; [|by intros [= <-]|done].
    destruct (sink x r) as [r1|]; [|done]. cbn. intros [= <-]. cbn. f_equal. by apply IH.
Qed.

Lemma insertionSort_length rest :
  ∀ rprefix l, insertionSort rprefix rest = Some l →
               length l = (length rprefix + length rest)%nat.
Proof.
  induction rest as [|x rest IH]; intros rprefix l; cbn.
  - intros [= <-]. rewrite length_rev. lia.
  - destruct (sink x rprefix) as [r1|] eqn:Hs; [|done]. cbn.
    intros Hl%IH. apply sink_length in Hs. lia.
Qed.

Lemma pairHeaders_length headers :
  ∀ seals l, pairHeaders headers seals = Some l → length l = length headers.
Proof.
  induction headers as [|h headers IH]; intros seals l; cbn.
  - by intros [= <-].
  - destruct seals as [|s seals]; [done|].
    destruct (pairHeaders headers seals) as [l1|] eqn:Hp; [|done]. cbn.
    intros [= <-]. cbn. f_equal. by eapply IH.
Qed.

Section Handlers.

Context `{Mem : Memory}.
Variable NeededForVerification : Header → Z.
Variable Verify : Header → list Header → bool → bool → option error.
Variable cleanupChCap : nat.

(** *** verifyByRequest *)

Lemma verifyByRequest_Cache a reqID h s k known :
  Cache (verifyByRequest Verify cleanupChCap a reqID h s k known).1 =
    if Z.of_nat (length known) =? k then
      match Verify h known false s with
      | None => <[(HeaderHash h, NumberUint64 h) := h]> (Cache a)
      | Some _ => Cache a
      end
    else Cache a.
Proof.
  unfold verifyByRequest. destruct (Z.of_nat (length known) =? k); [|done].
  cbn [negb fst]. destruct (Nat.ltb _ _).
  - by destruct (Verify h known false s).
  - destruct (cleanupRequest_fields reqID (NumberUint64 h)
      (sendVerifyHeaderResponse (mkVerifyHeaderResponse reqID (HeaderHash h) (Verify h known false s))
         match Verify h known false s with
         | None => CacheHeader h a
         | Some _ => a
         end)) as (_ & Hc & _).
    cbn [frReqID frBlockNumber]. rewrite Hc.
    by destruct (Verify h known false s).
Qed.

Lemma verifyByRequest_channels a reqID h s k known :
  HeadersRequests (verifyByRequest Verify cleanupChCap a reqID h s k known).1
    = HeadersRequests a ∧
  Log (verifyByRequest Verify cleanupChCap a reqID h s k known).1 = Log a.
Proof.
  unfold verifyByRequest. destruct (negb _); [done|]. cbn [fst].
  destruct (Nat.ltb _ _).
  - by destruct (Verify h known false s).
  - destruct (cleanupRequest_Log reqID (NumberUint64 h)
      (sendVerifyHeaderResponse (mkVerifyHeaderResponse reqID (HeaderHash h) (Verify h known false s))
         match Verify h known false s with
         | None => CacheHeader h a
         | Some _ => a
         end)) as (Hl & Hr).
    cbn [frReqID frBlockNumber]. rewrite Hr, Hl.
    by destruct (Verify h known false s).
Qed.

Lemma verifyByRequest_other a reqID h s k known rid n :
  rid ≠ reqID →
  pendingAt (verifyByRequest Verify cleanupChCap a reqID h s k known).1 rid n
  = pendingAt a rid n.
Proof.
  intros Hne. unfold verifyByRequest. destruct (negb _); [done|]. cbn [fst].
  destruct (Nat.ltb _ _).
  - apply pendingAt_same. by destruct (Verify h known false s).
  - cbn [frReqID frBlockNumber]. rewrite pendingAt_cleanupRequest_other by done.
    apply pendingAt_same. by destruct (Verify h known false s).
Qed.


Lemma noEmptyBlocks_verifyByRequest a reqID h s k known :
  noEmptyBlocks a →
  noEmptyBlocks (verifyByRequest Verify cleanupChCap a reqID h s k known).1.
Proof.
  intros H. unfold verifyByRequest.
  destruct (negb _); [done|]. cbn [fst].
  destruct (Nat.ltb _ _).
  - revert H. apply noEmptyBlocks_same. by destruct (Verify h known false s).
  - apply noEmptyBlocks_cleanupRequest. revert H. apply noEmptyBlocks_same.
    by destruct (Verify h known false s).
Qed.

(** X15.  A header the rule engine accepts with all its parents is in the
    cache when verifyByRequest returns, under its own hash and block
    number; a batch that brings that header alone afterwards is answered
    from the cache: one response without error under the request id of
    the batch, no fetch request, nothing registered, and the loop logs
    that there is nothing to ask. *)
Theorem accepted_header_answered_from_cache a reqID h s k known now reqID' s' deadline :
  Z.of_nat (length known) = k → Verify h known false s = None →
  let a1 := (verifyByRequest Verify cleanupChCap a reqID h s k known).1 in
  GetCachedHeader a1 (HeaderHash h) (NumberUint64 h) = Some h ∧
  onVerifyHeaderRequest NeededForVerification Verify cleanupChCap now a1
    (mkVerifyHeaderRequest reqID' [Some h] [s'] deadline)
  = Some (logError (logCantRequestAncestors reqID' (NumberUint64 h) errNothingToAsk)
            (sendVerifyHeaderResponse (mkVerifyHeaderResponse reqID' (HeaderHash h) None) a1)).
Proof.
  intros Hlen Hv a1.
  assert (GetCachedHeader a1 (HeaderHash h) (NumberUint64 h) = Some h) as Hc.
  { unfold GetCachedHeader, a1. rewrite verifyByRequest_Cache.
    rewrite Hlen, Z.eqb_refl, Hv. apply lookup_insert_eq. }
  split; [done|].
  unfold onVerifyHeaderRequest. cbn. by rewrite Hc.
Qed.

(** X16.  The two ways verifyByRequest has to remove a finished request
    come to the same: when the channel CleanupCh is empty and takes the
    message, the state after the cleanup loop has received it is the state
    verifyByRequest leaves when the channel takes nothing and it calls
    cleanupRequest itself. *)
Theorem queued_removal_is_direct_removal cap a reqID h s k known :
  CleanupCh a = [] →
  onCleanupCh (verifyByRequest Verify (S cap) a reqID h s k known).1
  = (verifyByRequest Verify 0 a reqID h s k known).1.
Proof.
  intros Hq. unfold verifyByRequest.
  destruct (negb _).
  - cbn [fst]. unfold onCleanupCh. by rewrite Hq.
  - cbn [fst]. destruct a as [reg cache out reqs queue log]. cbn in Hq. subst queue.
    by destruct (Verify h known false s).
Qed.

(** *** The loop over the headers of a batch *)

Lemma batchLoop_sends reqID deadline reqHeaders items :
  ∀ a reqs a' ended,
    batchLoop NeededForVerification Verify cleanupChCap reqID deadline reqHeaders items a reqs
      = Some (a', ended) →
    (∃ out, VerifyHeaderResponses a' = VerifyHeaderResponses a ++ out ∧
            Forall (λ r, respID r = reqID) out ∧ (length out ≤ length items)%nat) ∧
    HeadersRequests a' = HeadersRequests a ∧
    (∀ rid n, rid ≠ reqID → pendingAt a' rid n = pendingAt a rid n).
Proof.
  induction items as [|item items IH]; intros a reqs a' ended; cbn [batchLoop].
  - intros [= <- <-]. split; [|done]. exists []. by rewrite app_nil_r.
  - destruct (header item) as [h|].
    2:{ intros [= <- <-]. split; [|done]. eexists [_]. cbn. split; [done|].
        split; [by repeat constructor|lia]. }
    destruct (GetCachedHeader a (HeaderHash h) (NumberUint64 h)).
    + intros Hl. apply IH in Hl as ((out & Hout & Hid & Hlen) & Hreqs & Hreg).
      split; [|done].
      eexists (_ :: out). cbn in Hout. rewrite <- app_assoc in Hout. split; [exact Hout|].
      split; [by constructor|cbn; lia].
    + destruct (requestParentHeaders _ _ _ _ _) as [[[known k] r]|]; [|done]. cbn.
      pose proof (verifyByRequest_attempt Verify cleanupChCap a reqID h (seal item) k known) as Hv.
      pose proof (verifyByRequest_channels a reqID h (seal item) k known) as [Hh _].
      pose proof (λ rid n, verifyByRequest_other a reqID h (seal item) k known rid n) as Ho.
      destruct (verifyByRequest _ _ _ _ _ _ _ _) as [a1 err]. cbn [fst] in Hh, Ho.
      specialize (Hv a1 err eq_refl).
      intros Hl. apply IH in Hl as ((out & Hout & Hid & Hlen) & Hreqs & Hreg).
      destruct Hv as [(-> & -> & _)|(-> & _ & Hresp & _)].
      * cbn in Hout, Hreqs. split; [|split; [done|]].
        -- exists out. split; [done|]. split; [done|]. cbn. lia.
        -- intros rid n Hne. rewrite Hreg by done.
           by apply pendingAt_addVerifyHeaderRequest_other.
      * rewrite Hresp, <- app_assoc in Hout. rewrite Hh in Hreqs. split; [|split; [done|]].
        -- eexists (_ :: out). split; [exact Hout|]. split; [by constructor|cbn; lia].
        -- intros rid n Hne. rewrite Hreg by done. by apply Ho.
Qed.

Lemma batchLoop_cached reqID deadline reqHeaders :
  ∀ (items : list reqHeader) (hs : list Header) a reqs,
    map header items = Some <$> hs →
    Forall (λ h, is_Some (GetCachedHeader a (HeaderHash h) (NumberUint64 h))) hs →
    batchLoop NeededForVerification Verify cleanupChCap reqID deadline reqHeaders items a reqs
    = Some (mkAPI (ProcessingRequests a) (Cache a)
              (VerifyHeaderResponses a
                 ++ map (λ h, mkVerifyHeaderResponse reqID (HeaderHash h) None) hs)
              (HeadersRequests a) (CleanupCh a) (Log a),
            RanThrough reqs).
Proof.
  induction items as [|item items IH]; intros hs a reqs Hmap Hc.
  - destruct hs; [|done]. cbn. rewrite app_nil_r. by destruct a.
  - destruct hs as [|h hs]; [done|]. cbn in Hmap. injection Hmap as Hh Hmap.
    apply Forall_cons in Hc as [[c Hc] Hcs].
    cbn [batchLoop]. rewrite Hh, Hc.
    rewrite (IH hs) by done. cbn. by rewrite <- app_assoc.
Qed.

Lemma noEmptyBlocks_batchLoop reqID deadline reqHeaders items :
  ∀ a reqs a' ended,
    batchLoop NeededForVerification Verify cleanupChCap reqID deadline reqHeaders items a reqs
      = Some (a', ended) →
    noEmptyBlocks a → noEmptyBlocks a'.
Proof.
  induction items as [|item items IH]; intros a reqs a' ended; cbn [batchLoop].
  - by intros [= <- <-].
  - destruct (header item) as [h|]; [|by intros [= <- <-]].
    destruct (GetCachedHeader a (HeaderHash h) (NumberUint64 h)).
    + intros Hl Ha. eapply IH; [exact Hl|]. revert Ha. by apply noEmptyBlocks_same.
    + destruct (requestParentHeaders _ _ _ _ _) as [[[known k] r]|]; [|done]. cbn.
      pose proof (noEmptyBlocks_verifyByRequest a reqID h (seal item) k known) as Hv.
      destruct (verifyByRequest _ _ _ _ _ _ _ _) as [a1 err]. cbn [fst] in Hv.
      intros Hl Ha. eapply IH; [exact Hl|].
      destruct err as [[]|]; auto using noEmptyBlocks_addVerifyHeaderRequest.
Qed.

(** *** The pass over the pending verifications *)

Lemma passLoop_other reqID nums :
  ∀ a pool kbr a' pool',
    passLoop Verify cleanupChCap reqID nums a pool kbr = Some (a', pool') →
    wfRegistry a →
    ∀ rid n, rid ≠ reqID → pendingAt a' rid n = pendingAt a rid n.
Proof.
  induction nums as [|num nums IH]; intros a pool kbr a' pool'; cbn [passLoop].
  - by intros [= <- <-].
  - destruct (ProcessingRequests a !! reqID) as [blocks|] eqn:Hreg; [|done]. cbn.
    destruct (blocks !! num) as [req|] eqn:Hnum; [|done]. cbn.
    assert (pendingAt a reqID num = Some req) as Hpend.
    { unfold pendingAt. by rewrite Hreg. }
    destruct (appendAncestors_known req pool kbr) as (added & Hreq1).
    destruct (appendAncestors req pool kbr) as [req1 kbr1]. cbn [fst] in Hreq1.
    pose proof (λ rid n, verifyByRequest_other (storeRequest reqID num req1 a) (ID req1)
                  (ReqHeader req1) (ReqSeal req1) (ParentsExpected req1) (KnownParents req1)
                  rid n) as Ho.
    pose proof (subRegistry_verifyByRequest Verify cleanupChCap
                  (storeRequest reqID num req1 a) (ID req1)
                  (ReqHeader req1) (ReqSeal req1) (ParentsExpected req1) (KnownParents req1))
      as Hsub.
    destruct (verifyByRequest _ _ _ _ _ _ _ _) as [a1 err]. cbn [fst] in Ho, Hsub.
    intros Hl Hwf rid n Hne.
    assert (ID req1 = reqID) as Hid.
    { rewrite Hreq1. cbn. by destruct (Hwf reqID num req Hpend). }
    assert (wfRegistry (storeRequest reqID num req1 a)) as Hwf1.
    { apply (wfRegistry_storeRequest reqID num req); [done|by rewrite Hreq1..|done]. }
    rewrite (IH _ _ _ _ _ Hl) by (done || by eapply wfRegistry_sub).
    rewrite Ho by congruence.
    by apply pendingAt_storeRequest_other.
Qed.

Lemma noEmptyBlocks_passLoop reqID nums :
  ∀ a pool kbr a' pool',
    passLoop Verify cleanupChCap reqID nums a pool kbr = Some (a', pool') →
    noEmptyBlocks a → noEmptyBlocks a'.
Proof.
  induction nums as [|num nums IH]; intros a pool kbr a' pool'; cbn [passLoop].
  - by intros [= <- <-].
  - destruct (ProcessingRequests a !! reqID) as [blocks|]; [|done]. cbn.
    destruct (blocks !! num) as [req|]; [|done]. cbn.
    destruct (appendAncestors req pool kbr) as [req1 kbr1].
    pose proof (noEmptyBlocks_verifyByRequest (storeRequest reqID num req1 a) (ID req1)
                  (ReqHeader req1) (ReqSeal req1) (ParentsExpected req1) (KnownParents req1)) as Hv.
    destruct (verifyByRequest _ _ _ _ _ _ _ _) as [a1 err]. cbn [fst] in Hv.
    intros Hl Ha. eapply IH; [exact Hl|]. auto using noEmptyBlocks_storeRequest.
Qed.

Lemma noEmptyBlocks_step a e a' :
  step NeededForVerification Verify cleanupChCap a e = Some a' →
  noEmptyBlocks a → noEmptyBlocks a'.
Proof.
  destruct e as [now req|resp|now|]; cbn [step].
  - unfold onVerifyHeaderRequest.
    destruct (vhrHeaders req) as [|o rest] eqn:Ev.
    { intros [= <-]. by apply noEmptyBlocks_same. }
    destruct (pairHeaders _ _) as [paired|]; [|done]. cbn.
    destruct (sortSlice paired) as [sorted|]; [|done]. cbn.
    destruct (batchLoop _ _ _ _ _ _ _ _ _) as [[a1 ended]|] eqn:Hl; [|done]. cbn.
    intros Hs Ha. apply noEmptyBlocks_batchLoop in Hl; [|done].
    destruct ended as [reqs|]; [|by injection Hs as <-].
    destruct (mjoin _); [|done]. cbn in Hs.
    destruct (sumHeadersRequestsInRange _ _ _) as [r [err|]]; injection Hs as <-;
      revert Hl; by apply noEmptyBlocks_same.
  - unfold onHeaderResponse. destruct (hresErr resp).
    + intros [= <-] Ha. apply (noEmptyBlocks_delete _ (sendVerifyHeaderResponse _ a)).
      revert Ha. by apply noEmptyBlocks_same.
    + unfold VerifyRequestsCommonAncestor, VerifyRequestsCommonAncestorPool.
      destruct (hresHeaders resp) as [|h0 hs]; [by intros [= <-]|].
      destruct (ProcessingRequests a !! hresID resp); [|by intros [= <-]].
      destruct (passLoop _ _ _ _ _ _ _) as [[a1 pool]|] eqn:Hl; [|done].
      intros [= <-] Ha. eapply noEmptyBlocks_passLoop; [exact Hl|].
      by apply noEmptyBlocks_cacheHeaders.
  - intros [= <-]. apply noEmptyBlocks_cleanup.
  - intros [= <-] Ha. unfold onCleanupCh. destruct (CleanupCh a) as [|fr rest]; [done|].
    apply noEmptyBlocks_cleanupRequest. revert Ha. by apply noEmptyBlocks_same.
Qed.

(** *** The states the loops reach *)

(** X17.  The registry never keeps a request id without a pending
    verification: from a state where every request id of the registry has
    at least one block registered, every state the event loop and the
    cleanup loop reach is such a state, whatever the events. *)
Theorem registry_never_keeps_empty_request events :
  ∀ a a', noEmptyBlocks a →
          run NeededForVerification Verify cleanupChCap a events = Some a' →
          noEmptyBlocks a'.
Proof.
  induction events as [|e events IH]; intros a a' Ha; cbn [run].
  - by intros [= <-].
  - destruct (step _ _ _ _ _) as [a1|] eqn:Hs; [|done]. cbn.
    apply IH. by eapply noEmptyBlocks_step.
Qed.

(** X18.  In every state the two loops reach from the initial state, with
    an empty registry, each pending verification sits under the request id
    it carries and under the block number of its header. *)
Theorem reachable_registry_well_keyed events a :
  run NeededForVerification Verify cleanupChCap emptyAPI events = Some a → wfRegistry a.
Proof.
  intros Hrun. eapply wfRegistry_run; [exact Hrun|]. apply wfRegistry_empty.
Qed.

(** *** One event *)

(** X19.  A fetch that failed fails the whole request id: the event loop
    sends one response, with the request id, the hash and the error of the
    failure, drops every pending verification of that request id without
    a response of its own, and leaves the pending verifications of the other
    request ids and the cache as they were. *)
Theorem failed_fetch_fails_the_request a resp err :
  hresErr resp = Some err →
  ∃ a',
    onHeaderResponse Verify cleanupChCap a resp = Some a' ∧
    VerifyHeaderResponses a' =
      VerifyHeaderResponses a
        ++ [mkVerifyHeaderResponse (hresID resp) (hresHash resp) (Some err)] ∧
    (∀ n, pendingAt a' (hresID resp) n = None) ∧
    (∀ rid n, rid ≠ hresID resp → pendingAt a' rid n = pendingAt a rid n) ∧
    Cache a' = Cache a.
Proof.
  intros He. unfold onHeaderResponse. rewrite He. eexists. split; [done|].
  cbn. split; [done|]. split; [|split; [|done]].
  - intros n. unfold pendingAt. cbn. by rewrite lookup_delete_eq.
  - intros rid n Hne. unfold pendingAt. cbn. by rewrite lookup_delete_ne.
Qed.

(** X20.  Whatever a batch holds, when its intake returns it has sent
    responses under the request id of the batch only, at most one for each
    slot of the batch (one for an empty batch), and at most one fetch
    request, under that request id too. *)
Theorem intake_sends_under_its_own_id now a req a' :
  onVerifyHeaderRequest NeededForVerification Verify cleanupChCap now a req = Some a' →
  ∃ out reqs,
    VerifyHeaderResponses a' = VerifyHeaderResponses a ++ out ∧
    Forall (λ r, respID r = vhrID req) out ∧
    (length out ≤ Nat.max 1 (length (vhrHeaders req)))%nat ∧
    HeadersRequests a' = HeadersRequests a ++ reqs ∧
    Forall (λ r, hrID r = vhrID req) reqs ∧
    (length reqs ≤ 1)%nat.
Proof.
  unfold onVerifyHeaderRequest.
  destruct (vhrHeaders req) as [|o rest] eqn:Ev.
  { intros [= <-]. eexists [_], []. cbn. rewrite app_nil_r.
    split; [done|]. split; [by repeat constructor|].
    split; [lia|]. split; [done|]. split; [done|lia]. }
  destruct (pairHeaders _ _) as [paired|] eqn:Hp; [|done]. cbn.
  destruct (sortSlice paired) as [sorted|] eqn:Hs; [|done]. cbn.
  destruct (batchLoop _ _ _ _ _ _ _ _ _) as [[a1 ended]|] eqn:Hl; [|done]. cbn.
  apply batchLoop_sends in Hl as ((out & Hout & Hid & Hlen) & Hreqs & _).
  apply pairHeaders_length in Hp. apply insertionSort_length in Hs.
  cbn [length] in Hp, Hs.
  assert (length out ≤ Nat.max 1 (S (length rest)))%nat as Hbound by lia.
  destruct ended as [reqs|].
  2:{ intros [= <-]. exists out, []. rewrite app_nil_r.
      do 5 (split; [done|]). cbn. lia. }
  destruct (mjoin _); [|done]. cbn.
  destruct (sumHeadersRequestsInRange _ _ _) as [r [err|]] eqn:Hsum; intros [= <-].
  - exists out, []. cbn. rewrite app_nil_r.
    do 5 (split; [done|]). lia.
  - exists out, [r]. cbn. rewrite Hreqs.
    do 4 (split; [done|]). split; [|lia].
    constructor; [|done].
    unfold sumHeadersRequestsInRange in Hsum. destruct reqs as [|r0 reqs]; [done|].
    destruct (fold_left _ _ _) as [[mx mh] mn]. by injection Hsum as <-.
Qed.

(** X21.  The intake of a batch touches the pending verifications of its
    own request id only: those registered under any other request id are
    found as before. *)
Theorem intake_leaves_other_requests now a req a' rid n :
  onVerifyHeaderRequest NeededForVerification Verify cleanupChCap now a req = Some a' →
  rid ≠ vhrID req →
  pendingAt a' rid n = pendingAt a rid n.
Proof.
  unfold onVerifyHeaderRequest.
  destruct (vhrHeaders req) as [|o rest] eqn:Ev.
  { by intros [= <-]. }
  destruct (pairHeaders _ _) as [paired|] eqn:Hp; [|done]. cbn.
  destruct (sortSlice paired) as [sorted|] eqn:Hs; [|done]. cbn.
  destruct (batchLoop _ _ _ _ _ _ _ _ _) as [[a1 ended]|] eqn:Hl; [|done]. cbn.
  apply batchLoop_sends in Hl as (_ & _ & Hreg).
  intros Hend Hne. rewrite <- (Hreg rid n) by done.
  destruct ended as [reqs|]; [|by injection Hend as <-].
  destruct (mjoin _); [|done]. cbn in Hend.
  by destruct (sumHeadersRequestsInRange _ _ _) as [r [err|]]; injection Hend as <-.
Qed.

(** X22.  With every pending verification registered under the request id
    it carries, the answer of the fetcher for one request id, headers or
    failure, touches the pending verifications of that request id only:
    those registered under any other request id are found as before. *)
Theorem delivery_leaves_other_requests a resp a' rid n :
  wfRegistry a →
  onHeaderResponse Verify cleanupChCap a resp = Some a' →
  rid ≠ hresID resp →
  pendingAt a' rid n = pendingAt a rid n.
Proof.
  intros Hwf. unfold onHeaderResponse. destruct (hresErr resp).
  - intros [= <-] Hne. unfold pendingAt. cbn. by rewrite lookup_delete_ne.
  - unfold VerifyRequestsCommonAncestor, VerifyRequestsCommonAncestorPool.
    destruct (hresHeaders resp) as [|h0 hs]; [by intros [= <-]|].
    destruct (ProcessingRequests a !! hresID resp); [|by intros [= <-]].
    destruct (passLoop _ _ _ _ _ _ _) as [[a1 pool]|] eqn:Hl; [|done].
    intros [= <-] Hne.
    destruct (cacheHeaders_fields (h0 :: hs) a) as (Hreg & _).
    rewrite (passLoop_other _ _ _ _ _ _ _ Hl); [by apply pendingAt_same| |done].
    eapply wfRegistry_sub; [|exact Hwf]. by apply subRegistry_same.
Qed.

(** X23.  A batch all of whose headers are in the cache is answered at
    once: one response without error for each header of the batch, under
    the request id of the batch; the registry, the cache and the fetch
    requests stay as they were, and the loop logs that there is nothing to
    ask, with the block number of the header answered first. *)
Theorem cached_batch_answered_at_once now a req (hs : list Header) :
  hs ≠ [] → vhrHeaders req = Some <$> hs → (length hs ≤ length (vhrSeal req))%nat →
  Forall (λ h, is_Some (GetCachedHeader a (HeaderHash h) (NumberUint64 h))) hs →
  ∃ sorted first,
    sorted ≡ₚ hs ∧ head sorted = Some first ∧
    onVerifyHeaderRequest NeededForVerification Verify cleanupChCap now a req
    = Some (mkAPI (ProcessingRequests a) (Cache a)
              (VerifyHeaderResponses a
                 ++ map (λ h, mkVerifyHeaderResponse (vhrID req) (HeaderHash h) None) sorted)
              (HeadersRequests a) (CleanupCh a)
              (Log a ++ [logCantRequestAncestors (vhrID req) (NumberUint64 first)
                           errNothingToAsk])).
Proof.
  intros Hne Hhs Hlen Hc. unfold onVerifyHeaderRequest.
  destruct (vhrHeaders req) as [|o rest] eqn:Ev; [by destruct hs|].
  destruct (pairHeaders_total (o :: rest) (vhrSeal req)) as (paired & -> & Hmap).
  { rewrite Hhs, length_fmap. done. }
  cbn [mbind option_bind].
  assert (Forall present paired) as Hpres.
  { apply Forall_forall. intros x Hx. unfold present.
    assert (header x ∈ map header paired) as Hin by (apply list_elem_of_fmap; eauto).
    rewrite Hmap, Hhs in Hin. apply list_elem_of_fmap in Hin as (h & -> & _). eauto. }
  destruct (sortSlice_total paired Hpres) as (sorted & -> & Hperm). cbn [mbind option_bind].
  assert (Forall present sorted) as Hpres' by (by rewrite Hperm).
  pose proof (omap_header_present sorted Hpres') as Hsorted.
  set (hs' := omap header sorted) in *.
  assert (hs' ≡ₚ hs) as Hperm'.
  { subst hs'. rewrite Hperm. rewrite Hhs in Hmap. by rewrite (omap_header_Some _ _ Hmap). }
  rewrite Hsorted.
  rewrite (batchLoop_cached _ _ _ sorted hs'); [|done|by rewrite Hperm'].
  cbn [mbind option_bind].
  destruct hs' as [|first rest'].
  { symmetry in Hperm'. by apply Permutation_nil_r in Hperm'. }
  exists (first :: rest'), first. split; [done|]. split; [done|].
  done.
Qed.

(** X24.  A batch of one header that is not in the cache, wants [k > 0]
    ancestors, no more than the capacity the machine grants to the slice
    of line 353 ([k <= maxCap]), and whose parent is not in the cache
    either: the header is registered under the request id of the batch and
    its block number, with no parent known and the deadline of the batch
    (the time of the intake plus ttl when the batch has none), and one
    fetch request is sent, for [k] headers from the parent hash of the
    header at the block below it (as uint64); no response is sent. *)
Theorem lone_header_waits_for_its_ancestors now a reqID h s deadline :
  0 < NeededForVerification h ≤ maxCap →
  GetCachedHeader a (HeaderHash h) (NumberUint64 h) = None →
  GetCachedHeader a (ParentHash h) (wrap64 (NumberUint64 h - 1)) = None →
  onVerifyHeaderRequest NeededForVerification Verify cleanupChCap now a
    (mkVerifyHeaderRequest reqID [Some h] [s] deadline)
  = Some (sendHeadersRequest
            (mkHeadersRequest reqID (ParentHash h) (wrap64 (NumberUint64 h - 1))
               (NeededForVerification h))
            (addVerifyHeaderRequest reqID h s (default (now + ttl) deadline) []
               (NeededForVerification h) a)).
Proof.
  intros Hk Hmiss Hparent. pose proof maxCap_bound as Hcap.
  unfold onVerifyHeaderRequest. cbn -[requestParentHeaders verifyByRequest sumHeadersRequestsInRange].
  rewrite Hmiss.
  unfold requestParentHeaders.
  destruct (NeededForVerification h =? 0) eqn:Hz; [apply Z.eqb_eq in Hz; lia|].
  cbn [head last mjoin option_join mbind option_bind].
  unfold fetchOrigin. rewrite Z.ltb_irrefl. cbn [andb].
  destruct (0 <? NeededForVerification h) eqn:Hpos; [|apply Z.ltb_ge in Hpos; lia].
  rewrite (wrap64_small (NeededForVerification h)) by lia.
  rewrite requestHeadersNotFromRange_miss; [|apply wrap64_range|lia|right; lia|done].
  cbn [mbind option_bind].
  unfold checkHeadersFromRange. rewrite Z.sub_diag. change (wrap64 0 <=? 0) with true.
  cbn [mbind option_bind app].
  unfold verifyByRequest. cbn [length].
  destruct (Z.of_nat 0 =? NeededForVerification h) eqn:E; [apply Z.eqb_eq in E; lia|].
  cbn [negb].
  assert (wrap64 (wrap64 (NumberUint64 h - 1)
                  - wrap64 (wrap64 (NumberUint64 h - 1) - NeededForVerification h + 1) + 1)
          = NeededForVerification h) as Hback.
  { unfold wrap64. Z.div_mod_to_equations. lia. }
  unfold sumHeadersRequestsInRange, sumStep. cbn.
  rewrite Z.eqb_refl. cbn [negb]. rewrite Hz.
  rewrite Z.ltb_irrefl. cbn [andb]. rewrite Z.ltb_irrefl. by rewrite Hback.
Qed.

(** X25.  A batch of one header that is not in the cache and wants no
    ancestor is verified at intake against an empty list of parents: the
    one response carries the verdict of the rule engine, no fetch request
    is sent, nothing is added to the registry, and the loop logs that
    there is nothing to ask. *)
Theorem header_without_ancestors_verified_at_intake now a reqID h s deadline :
  NeededForVerification h = 0 →
  GetCachedHeader a (HeaderHash h) (NumberUint64 h) = None →
  ∃ a',
    onVerifyHeaderRequest NeededForVerification Verify cleanupChCap now a
      (mkVerifyHeaderRequest reqID [Some h] [s] deadline) = Some a' ∧
    VerifyHeaderResponses a' =
      VerifyHeaderResponses a
        ++ [mkVerifyHeaderResponse reqID (HeaderHash h) (Verify h [] false s)] ∧
    HeadersRequests a' = HeadersRequests a ∧
    Log a' = Log a ++ [logCantRequestAncestors reqID (NumberUint64 h) errNothingToAsk] ∧
    subRegistry a' a.
Proof.
  intros Hk Hmiss.
  unfold onVerifyHeaderRequest. cbn -[verifyByRequest].
  rewrite Hmiss. unfold requestParentHeaders. rewrite Hk. cbn -[verifyByRequest].
  pose proof (verifyByRequest_attempt Verify cleanupChCap a reqID h s 0 []) as Hv.
  pose proof (subRegistry_verifyByRequest Verify cleanupChCap a reqID h s 0 []) as Hsub.
  pose proof (verifyByRequest_channels a reqID h s 0 []) as [Hh Hlog].
  destruct (verifyByRequest _ _ _ _ _ _ _ _) as [a1 err]. cbn [fst] in Hsub, Hh, Hlog.
  destruct (Hv a1 err eq_refl) as [(_ & _ & Habs)|(-> & _ & Hresp & _)]; [done|].
  eexists. split; [done|]. cbn. split; [done|].
  split; [done|]. split; [by rewrite Hlog|].
  intros rid n r Hp. apply Hsub. exact Hp.
Qed.

(** X26.  A header of the batch whose [k] ancestors all stand before it
    in the batch (the first header of the batch at least [k] blocks below,
    [k] headers or more before it, none of them with its block number)
    takes its parents from the batch: requestParentHeaders returns the [k]
    headers right before it, in their order, and a request for zero
    headers that starts from the header itself; the cache is taken to hold
    nothing under the parent hash of the header at its own block number,
    and the block number of the header, which is the capacity line 353
    asks for when no header is to be fetched, to be one the machine grants
    ([NumberUint64 h <= maxCap]). *)
Theorem ancestors_inside_batch_taken_from_batch a reqID h (pre post : list Header) first lst :
  let k := NeededForVerification h in
  let l := pre ++ h :: post in
  0 < k < 2 ^ 63 →
  NumberUint64 h ≤ maxCap →
  head l = Some first → last l = Some lst →
  NumberUint64 first + k ≤ NumberUint64 h → NumberUint64 h ≤ NumberUint64 lst →
  Forall (λ x, NumberUint64 x ≠ NumberUint64 h) pre →
  k ≤ Z.of_nat (length pre) →
  GetCachedHeader a (ParentHash h) (NumberUint64 h) = None →
  requestParentHeaders NeededForVerification a reqID h (Some <$> l)
  = Some (drop (length pre - Z.to_nat k) pre, k,
          Some (mkHeadersRequest reqID (ParentHash h) (NumberUint64 h) 0)).
Proof.
  intros k l Hk Hcap Hfirst Hlast Hfrom Hto Hpre Hlen Hmiss. unfold requestParentHeaders.
  fold k. destruct (Z.eqb_spec k 0); [lia|].
  rewrite fmap_last, Hlast.
  rewrite (head_fmap_Some Some l first) by done.
  cbn [mjoin option_join mbind option_bind fmap option_fmap option_map].
  pose proof (NumberUint64_range h) as Hn. pose proof (NumberUint64_range first) as Hf.
  rewrite (fetchOrigin_closed_form k h first lst) by lia.
  destruct (NumberUint64 first <=? NumberUint64 h - k) eqn:E; [|apply Z.leb_gt in E; lia].
  change (wrap64 0) with 0.
  rewrite requestHeadersNotFromRange_miss; [|lia|lia|by left|done].
  cbn [mbind option_bind].
  rewrite (wrap64_small k) by lia.
  unfold l. rewrite checkHeadersFromRange_found by (done || lia).
  rewrite Z.sub_0_r.
  destruct (Z.of_nat (length pre) <? k) eqn:E2; [apply Z.ltb_lt in E2; lia|].
  done.
Qed.

(** *** The registry after a pass *)




End Handlers.

(** ** The further properties on the scenarios *)

Section FurtherOnScenarios.

#[local] Existing Instance smallMachine.

Lemma fresh_index_keeps_parents_distinct_witness :
  NoDup (HeaderHash <$> KnownParents
           (appendAncestors waiting10 [hdr 9; hdr 9; hdr 8; hdr 7] ∅).1).
Proof.
  apply (fresh_index_keeps_parents_distinct waiting10 [hdr 9; hdr 9; hdr 8; hdr 7] ∅).
  - reflexivity.
  - apply (bool_decide_unpack _). vm_compute. exact I.
Defined.

Lemma request_below_genesis_never_grows_witness :
  (appendAncestors (toVerifyRequest 1 (hdr 2) true 100 [hdr 1] 5)
     [hdr 0; hdr 1; hdr 2] ∅).1
  = toVerifyRequest 1 (hdr 2) true 100 [hdr 1] 5.
Proof.
  apply (request_below_genesis_never_grows 1 (hdr 2) true 100 [hdr 1] 5
           [hdr 0; hdr 1; hdr 2] ∅).
  - vm_compute. split; reflexivity.
  - vm_compute. reflexivity.
Defined.

Lemma cached_ancestors_reduce_the_count_witness :
  ∃ known r,
    requestHeadersNotFromRange cachedTwo 1 9 (HeaderHash (hdr 9)) 3 = Some (known, r) ∧
    Z.of_nat (length known) ≤ 3 ∧ hrID r = 1 ∧ hrNumber r = 3 - Z.of_nat (length known).
Proof.
  apply (cached_ancestors_reduce_the_count cachedTwo 1 9 (HeaderHash (hdr 9)) 3).
  - vm_compute. reflexivity.
  - lia.
  - lia.
  - vm_compute. discriminate.
Defined.

Lemma known_parents_follow_the_cache_witness :
  cachedChain cachedTwo (HeaderHash (hdr 9)) 9 [hdr 9; hdr 8] ∧
  (Z.of_nat (length [hdr 9; hdr 8]) < 3 →
   GetCachedHeader cachedTwo (chainEnd (HeaderHash (hdr 9)) [hdr 9; hdr 8])
     (9 - Z.of_nat (length [hdr 9; hdr 8])) = None).
Proof.
  apply (known_parents_follow_the_cache cachedTwo 1 9 (HeaderHash (hdr 9)) 3
           [hdr 9; hdr 8] (mkHeadersRequest 1 (HeaderHash (hdr 9)) 9 1)).
  - lia.
  - lia.
  - vm_compute. reflexivity.
Defined.

Lemma request_keeps_its_origin_witness :
  chainFrom (HeaderHash (hdr 9)) 9 [hdr 9; hdr 8] ∧
  mkHeadersRequest 1 (HeaderHash (hdr 9)) 9 1
  = mkHeadersRequest 1 (HeaderHash (hdr 9)) 9 (3 - Z.of_nat (length [hdr 9; hdr 8])).
Proof.
  apply (request_keeps_its_origin cachedTwo 1 9 (HeaderHash (hdr 9)) 3
           [hdr 9; hdr 8] (mkHeadersRequest 1 (HeaderHash (hdr 9)) 9 1)).
  - apply (bool_decide_unpack _). vm_compute. exact I.
  - lia.
  - lia.
  - vm_compute. reflexivity.
Defined.

(** Asked for 2^63 parents, [int(parentsToGet)] is negative and
    [idx - int(parentsToGet)] wraps around to a negative int: nothing is
    taken from the batch. *)
Lemma checkHeadersFromRange_int_wraps :
  checkHeadersFromRange (hdr 10) [Some (hdr 10)] 0 (2 ^ 63) = Some [].
Proof. vm_compute. reflexivity. Qed.

Lemma parents_from_batch_all_or_nothing_witness :
  checkHeadersFromRange (hdr 13) (Some <$> [hdr 10; hdr 11; hdr 12; hdr 13]) 1 3
  = Some [hdr 11; hdr 12].
Proof.
  apply (proj2 (parents_from_batch_all_or_nothing (hdr 13)
                  [hdr 10; hdr 11; hdr 12; hdr 13] 1 3
                  ltac:(lia) ltac:(lia) ltac:(lia))
           [hdr 10; hdr 11; hdr 12] (hdr 13) []).
  - reflexivity.
  - apply (bool_decide_unpack _). vm_compute. exact I.
  - reflexivity.
Defined.

Lemma merge_of_one_request_witness :
  sumHeadersRequestsInRange 1 10 [mkHeadersRequest 1 (HeaderHash (hdr 9)) 9 3]
  = (mkHeadersRequest 1 (HeaderHash (hdr 9)) 9 3, None).
Proof.
  apply (merge_of_one_request 1 10 (mkHeadersRequest 1 (HeaderHash (hdr 9)) 9 3)).
  cbn. lia.
Defined.

Lemma merged_request_covers_counted_witness :
  ∃ res,
    sumHeadersRequestsInRange 1 10
      [mkHeadersRequest 1 (HeaderHash (hdr 9)) 9 2;
       mkHeadersRequest 2 (HeaderHash (hdr 5)) 5 4;
       mkHeadersRequest 1 (HeaderHash (hdr 9)) 9 3] = (res, None) ∧
    hrID res = 1 ∧
    0 < hrNumber res ≤ HighestBlockNumber res + 1 ∧
    ∀ r, r ∈ [mkHeadersRequest 1 (HeaderHash (hdr 9)) 9 2;
              mkHeadersRequest 2 (HeaderHash (hdr 5)) 5 4;
              mkHeadersRequest 1 (HeaderHash (hdr 9)) 9 3] →
         counted 1 r →
         HighestBlockNumber res - hrNumber res + 1 ≤ HighestBlockNumber r - hrNumber r + 1 ∧
         (HighestBlockNumber r < 10 → HighestBlockNumber r ≤ HighestBlockNumber res).
Proof.
  apply (merged_request_covers_counted 1 10 (mkHeadersRequest 1 (HeaderHash (hdr 9)) 9 2)
           [mkHeadersRequest 2 (HeaderHash (hdr 5)) 5 4;
            mkHeadersRequest 1 (HeaderHash (hdr 9)) 9 3]).
  - split; [reflexivity|]. cbn. lia.
  - cbn. lia.
  - lia.
  - repeat (apply Forall_cons; split; [intros _; cbn; lia|]). constructor.
Defined.

Lemma second_sweep_does_nothing_witness :
  cleanup 150 (cleanup 200 twoWaiting) = cleanup 200 twoWaiting.
Proof. apply (second_sweep_does_nothing 200 150 twoWaiting). lia. Defined.

Lemma sweep_keeps_requests_in_time_witness :
  ProcessingRequests (cleanup 50 twoWaiting) !! 1
  = Some ({[10 := waiting10; 20 := waiting20]} : gmap Z VerifyRequest) ∧
  ∃ out,
    VerifyHeaderResponses (cleanup 50 twoWaiting) = VerifyHeaderResponses twoWaiting ++ out ∧
    Forall (λ r, respID r ≠ 1) out.
Proof.
  apply (sweep_keeps_requests_in_time 50 twoWaiting 1 {[10 := waiting10; 20 := waiting20]}).
  - vm_compute. reflexivity.
  - apply (bool_decide_unpack _). vm_compute. exact I.
Defined.

Lemma accepted_header_answered_from_cache_witness :
  let a1 := (verifyByRequest acceptAll 0 emptyAPI 1 (hdr 10) true 0 []).1 in
  GetCachedHeader a1 (HeaderHash (hdr 10)) (NumberUint64 (hdr 10)) = Some (hdr 10) ∧
  onVerifyHeaderRequest needOne acceptAll 0 0 a1
    (mkVerifyHeaderRequest 2 [Some (hdr 10)] [true] None)
  = Some (logError (logCantRequestAncestors 2 (NumberUint64 (hdr 10)) errNothingToAsk)
            (sendVerifyHeaderResponse (mkVerifyHeaderResponse 2 (HeaderHash (hdr 10)) None) a1)).
Proof.
  apply (accepted_header_answered_from_cache needOne acceptAll 0 emptyAPI 1 (hdr 10) true 0 []
           0 2 true None).
  - reflexivity.
  - reflexivity.
Defined.

Lemma queued_removal_is_direct_removal_witness :
  onCleanupCh (verifyByRequest acceptAll 1 oneWaiting 1 (hdr 10) true 2 [hdr 9; hdr 8]).1
  = (verifyByRequest acceptAll 0 oneWaiting 1 (hdr 10) true 2 [hdr 9; hdr 8]).1.
Proof.
  apply (queued_removal_is_direct_removal acceptAll 0 oneWaiting 1 (hdr 10) true 2
           [hdr 9; hdr 8]).
  reflexivity.
Defined.

Lemma registry_never_keeps_empty_request_witness :
  noEmptyBlocks
    (default emptyAPI
       (run needTwoThenThree acceptAll 0 emptyAPI
          [VerifyHeaders 0 (batch 1 [10%N; 11%N] None);
           HeadersArrived (fetched 1 [9%N]);
           HeadersArrived (fetched 1 [8%N])])).
Proof.
  apply (registry_never_keeps_empty_request needTwoThenThree acceptAll 0
           [VerifyHeaders 0 (batch 1 [10%N; 11%N] None);
            HeadersArrived (fetched 1 [9%N]);
            HeadersArrived (fetched 1 [8%N])] emptyAPI).
  - apply (bool_decide_unpack _). vm_compute. exact I.
  - vm_compute. reflexivity.
Defined.

Lemma reachable_registry_well_keyed_witness :
  wfRegistry
    (default emptyAPI
       (run needTwoThenThree acceptAll 0 emptyAPI
          [VerifyHeaders 0 (batch 1 [10%N; 11%N] None); HeadersArrived (fetched 1 [9%N])])).
Proof.
  apply (reachable_registry_well_keyed needTwoThenThree acceptAll 0
           [VerifyHeaders 0 (batch 1 [10%N; 11%N] None); HeadersArrived (fetched 1 [9%N])]).
  vm_compute. reflexivity.
Defined.

Lemma failed_fetch_fails_the_request_witness :
  ∃ a',
    onHeaderResponse acceptAll 0 twoWaiting (fetchFailed 1 (HeaderHash (hdr 10))) = Some a' ∧
    VerifyHeaderResponses a' =
      VerifyHeaderResponses twoWaiting
        ++ [mkVerifyHeaderResponse 1 (HeaderHash (hdr 10)) (Some (errExternal 7))] ∧
    (∀ n, pendingAt a' 1 n = None) ∧
    (∀ rid n, rid ≠ 1 → pendingAt a' rid n = pendingAt twoWaiting rid n) ∧
    Cache a' = Cache twoWaiting.
Proof.
  apply (failed_fetch_fails_the_request acceptAll 0 twoWaiting
           (fetchFailed 1 (HeaderHash (hdr 10))) (errExternal 7)).
  reflexivity.
Defined.

Lemma intake_sends_under_its_own_id_witness :
  let a' :=
    default emptyAPI
      (onVerifyHeaderRequest needOne acceptAll 0 0 emptyAPI (batch 1 [10%N; 11%N] None)) in
  ∃ out reqs,
    VerifyHeaderResponses a' = VerifyHeaderResponses emptyAPI ++ out ∧
    Forall (λ r, respID r = 1) out ∧
    (length out ≤ Nat.max 1 2)%nat ∧
    HeadersRequests a' = HeadersRequests emptyAPI ++ reqs ∧
    Forall (λ r, hrID r = 1) reqs ∧
    (length reqs ≤ 1)%nat.
Proof.
  apply (intake_sends_under_its_own_id needOne acceptAll 0 0 emptyAPI
           (batch 1 [10%N; 11%N] None)).
  vm_compute. reflexivity.
Defined.

Lemma intake_leaves_other_requests_witness :
  pendingAt
    (default emptyAPI
       (onVerifyHeaderRequest needOne acceptAll 0 0 twoWaiting (batch 2 [30%N] None))) 1 10
  = pendingAt twoWaiting 1 10.
Proof.
  apply (intake_leaves_other_requests needOne acceptAll 0 0 twoWaiting (batch 2 [30%N] None)).
  - vm_compute. reflexivity.
  - done.
Defined.

Lemma delivery_leaves_other_requests_witness :
  pendingAt
    (default emptyAPI (onHeaderResponse acceptAll 0 twoWaiting (fetched 2 [9%N]))) 1 10
  = pendingAt twoWaiting 1 10.
Proof.
  apply (delivery_leaves_other_requests acceptAll 0 twoWaiting (fetched 2 [9%N])).
  - apply wfRegistry_keyed, (bool_decide_unpack _). vm_compute. exact I.
  - vm_compute. reflexivity.
  - done.
Defined.

Lemma cached_batch_answered_at_once_witness :
  ∃ sorted first,
    sorted ≡ₚ [hdr 11; hdr 10] ∧ head sorted = Some first ∧
    onVerifyHeaderRequest needOne acceptAll 0 0 cachedBatch (batch 1 [11%N; 10%N] None)
    = Some (mkAPI (ProcessingRequests cachedBatch) (Cache cachedBatch)
              (VerifyHeaderResponses cachedBatch
                 ++ map (λ h, mkVerifyHeaderResponse 1 (HeaderHash h) None) sorted)
              (HeadersRequests cachedBatch) (CleanupCh cachedBatch)
              (Log cachedBatch ++ [logCantRequestAncestors 1 (NumberUint64 first)
                                     errNothingToAsk])).
Proof.
  apply (cached_batch_answered_at_once needOne acceptAll 0 0 cachedBatch
           (batch 1 [11%N; 10%N] None) [hdr 11; hdr 10]).
  - done.
  - reflexivity.
  - cbn. lia.
  - repeat constructor; vm_compute; eauto.
Defined.

Lemma lone_header_waits_for_its_ancestors_witness :
  onVerifyHeaderRequest needOne acceptAll 0 0 emptyAPI
    (mkVerifyHeaderRequest 1 [Some (hdr 10)] [true] None)
  = Some (sendHeadersRequest
            (mkHeadersRequest 1 (ParentHash (hdr 10)) (wrap64 (NumberUint64 (hdr 10) - 1))
               (needOne (hdr 10)))
            (addVerifyHeaderRequest 1 (hdr 10) true (default (0 + ttl) None) []
               (needOne (hdr 10)) emptyAPI)).
Proof.
  apply (lone_header_waits_for_its_ancestors needOne acceptAll 0 0 emptyAPI 1 (hdr 10)
           true None).
  - vm_compute. split; [reflexivity|discriminate].
  - reflexivity.
  - reflexivity.
Defined.

Lemma header_without_ancestors_verified_at_intake_witness :
  ∃ a',
    onVerifyHeaderRequest needNoneThenOne rejectAll 0 0 oneWaiting
      (mkVerifyHeaderRequest 2 [Some (hdr 10)] [true] None) = Some a' ∧
    VerifyHeaderResponses a' =
      VerifyHeaderResponses oneWaiting
        ++ [mkVerifyHeaderResponse 2 (HeaderHash (hdr 10)) (rejectAll (hdr 10) [] false true)] ∧
    HeadersRequests a' = HeadersRequests oneWaiting ∧
    Log a' = Log oneWaiting
               ++ [logCantRequestAncestors 2 (NumberUint64 (hdr 10)) errNothingToAsk] ∧
    subRegistry a' oneWaiting.
Proof.
  apply (header_without_ancestors_verified_at_intake needNoneThenOne rejectAll 0 0 oneWaiting
           2 (hdr 10) true None).
  - reflexivity.
  - reflexivity.
Defined.

Lemma ancestors_inside_batch_taken_from_batch_witness :
  requestParentHeaders needTwoThenThree emptyAPI 1 (hdr 13)
    (Some <$> [hdr 10; hdr 11; hdr 12; hdr 13])
  = Some ([hdr 10; hdr 11; hdr 12], 3,
          Some (mkHeadersRequest 1 (ParentHash (hdr 13)) (NumberUint64 (hdr 13)) 0)).
Proof.
  apply (ancestors_inside_batch_taken_from_batch needTwoThenThree emptyAPI 1 (hdr 13)
           [hdr 10; hdr 11; hdr 12] [] (hdr 10) (hdr 13)).
  - vm_compute. split; reflexivity.
  - vm_compute. discriminate.
  - reflexivity.
  - reflexivity.
  - vm_compute. discriminate.
  - vm_compute. discriminate.
  - apply (bool_decide_unpack _). vm_compute. exact I.
  - vm_compute. discriminate.
  - reflexivity.
Defined.


End FurtherOnScenarios.
